(** * springcraft: anisotropic network models

    A shallow embedding of [springcraft/interaction.py] (adjacency
    resolution and Hessian assembly) and of [springcraft/anm.py] (the
    [ANM] class with its cached, mutually dependent matrices), followed by
    the properties of the specification that were checked against it and
    by further properties of the code.

    Conventions.
    - Python exceptions are values of [exn]; a computation that can raise
      returns an [outcome].
    - NumPy floats are idealised as real numbers ([R]): rounding and
      infinities are outside the model, and so is NaN except where the
      square root of a negative number produces it ([frequencies], where it
      is written [None]).  Theorems that depend on a division state the
      non-zero divisor as a hypothesis.
    - Library code that is not part of the repository (NumPy's linear
      algebra, biotite's cell list and mass table) is a field of the class
      [Externals]. *)

From Stdlib Require Import String.
From Stdlib Require Import List ZArith Bool Reals Lia Lra Psatz Sorted.
Import ListNotations.

Set Implicit Arguments.

(** ** Python exceptions and results *)

Module Py.

Inductive exn : Type :=
| ValueError
| IndexError
| TypeError
| AttributeError
| KeyError
| RecursionError
| LinAlgError.

Inductive outcome (A : Type) : Type :=
| Return (a : A)
| Raise (e : exn).

Arguments Return {A} a.
Arguments Raise {A} e.

Definition bind {A B : Type} (c : outcome A) (k : A -> outcome B) : outcome B :=
  match c with
  | Return a => k a
  | Raise e => Raise e
  end.

End Py.

Import Py.

Declare Scope py_scope.
Delimit Scope py_scope with py.
Notation "x <- c ;; k" := (bind c (fun x => k))
  (at level 61, c at next level, right associativity) : py_scope.
Notation "' pat <- c ;; k" := (bind c (fun x => match x with pat => k end))
  (at level 61, pat pattern, c at next level, right associativity) : py_scope.

(** ** NumPy arrays *)

Module Np.

(** A C-contiguous float array: its [shape] tuple and its elements in
    row-major order. *)
Record ndarray : Type := mk_ndarray {
  shape : list nat;
  data : list R
}.

Definition ndim (a : ndarray) : nat := length (shape a).

Definition size_of (sh : list nat) : nat := fold_right Nat.mul 1 sh.

(** [len(a)]: the first dimension; a 0-d array has no length. *)
Definition len (a : ndarray) : outcome nat :=
  match shape a with
  | [] => Raise TypeError
  | d :: _ => Return d
  end.

(** [a.flatten()] *)
Definition flatten (a : ndarray) : ndarray :=
  mk_ndarray [size_of (shape a)] (data a).

(** [a.reshape(sh)] for a fully given shape. *)
Definition reshape (a : ndarray) (sh : list nat) : outcome ndarray :=
  if size_of sh =? size_of (shape a) then Return (mk_ndarray sh (data a))
  else Raise ValueError.

(** Splitting a flat sequence into [n] consecutive rows of [k] elements. *)
Fixpoint chunks {A : Type} (n k : nat) (l : list A) : list (list A) :=
  match n with
  | 0 => []
  | S n' => firstn k l :: chunks n' k (skipn k l)
  end.

(** The rows of a 2-d array. *)
Definition rows (a : ndarray) : list (list R) :=
  chunks (nth 0 (shape a) 0) (nth 1 (shape a) 0) (data a).

(** Entry [(r, c)] of a 2-d array. *)
Definition entry (a : ndarray) (r c : nat) : R :=
  nth (r * nth 1 (shape a) 0 + c) (data a) 0%R.

Definition shape_eqb (s1 s2 : list nat) : bool :=
  if list_eq_dec Nat.eq_dec s1 s2 then true else false.

(** The position an index within [-n, n) denotes on an axis of length
    [n]: negative indices count from the end. *)
Definition wrap (n : nat) (i : Z) : nat := Z.to_nat (i mod Z.of_nat n).

(** Normalisation of one index against an axis of length [n]: anything
    outside [-n, n) is an [IndexError]. *)
Definition norm_index (n : nat) (i : Z) : outcome nat :=
  if ((- Z.of_nat n <=? i) && (i <? Z.of_nat n))%Z then Return (wrap n i)
  else Raise IndexError.

Fixpoint set_nth {A : Type} (i : nat) (x : A) (l : list A) : list A :=
  match l, i with
  | [], _ => []
  | _ :: t, 0 => x :: t
  | h :: t, S k => h :: set_nth k x t
  end.

Definition get2 {A : Type} (d : A) (m : list (list A)) (i j : nat) : A :=
  nth j (nth i m []) d.

Definition set2 {A : Type} (m : list (list A)) (i j : nat) (x : A) : list (list A) :=
  set_nth i (set_nth j x (nth i m [])) m.

(** Number of columns of a matrix kept as a list of rows. *)
Definition ncols {A : Type} (m : list (list A)) : nat := length (hd [] m).

(** The index pairs of an integer array of shape (k,2), normalised against
    the matrix they index; one bad index fails the whole statement. *)
Fixpoint norm_pairs (nr nc : nat) (idx : list (Z * Z)) : outcome (list (nat * nat)) :=
  match idx with
  | [] => Return []
  | (i, j) :: rest =>
      (i' <- norm_index nr i ;;
       j' <- norm_index nc j ;;
       rest' <- norm_pairs nr nc rest ;;
       Return ((i', j') :: rest'))%py
  end.

(** [m[tuple(idx.T)] = x]: the indices are checked first, then the entries
    are written in order. *)
Definition assign_pairs {A : Type} (m : list (list A)) (idx : list (Z * Z)) (x : A)
  : outcome (list (list A)) :=
  (ps <- norm_pairs (length m) (ncols m) idx ;;
   Return (fold_left (fun acc p => set2 acc (fst p) (snd p) x) ps m))%py.

(** [a.any()] of an integer array. *)
Definition any (l : list Z) : bool := existsb (fun z => negb (z =? 0)%Z) l.

(** [a == b] of an integer array and a boolean scalar: the boolean is
    promoted to 0 or 1. *)
Definition eq_bool_scalar (l : list Z) (b : bool) : list bool :=
  map (fun z => (z =? Z.b2z b)%Z) l.

(** [np.where(m)] of a boolean matrix: the index pairs of its true entries
    in row-major order. *)
Definition true_columns (row : list bool) : list nat :=
  map fst (filter snd (combine (seq 0 (length row)) row)).

Definition where_ (m : list (list bool)) : list (nat * nat) :=
  flat_map (fun ir => map (fun j => (fst ir, j)) (true_columns (snd ir)))
           (combine (seq 0 (length m)) m).

(** Row-major order of index pairs, the order in which [np.where] lists
    them. *)
Definition pair_lt (p q : nat * nat) : Prop :=
  fst p < fst q \/ (fst p = fst q /\ snd p < snd q).

(** [np.fill_diagonal(m, x)] *)
Definition fill_diagonal {A : Type} (m : list (list A)) (x : A) : list (list A) :=
  map (fun ir => set_nth (fst ir) x (snd ir)) (combine (seq 0 (length m)) m).

(** The sequence [f 0, ..., f (n-1)]. *)
Definition tabulate {A : Type} (n : nat) (f : nat -> A) : list A := map f (seq 0 n).

(** A matrix kept as a list of rows has [n] rows of [k] entries each. *)
Definition rect {A : Type} (n k : nat) (m : list (list A)) : Prop :=
  length m = n /\ Forall (fun r => length r = k) m.

(** The entry of an (n,n) matrix that an index pair denotes. *)
Definition denotes (n : nat) (p : Z * Z) : nat * nat :=
  (wrap n (fst p), wrap n (snd p)).

(** [np.full((n, k), x)] *)
Definition full {A : Type} (n k : nat) (x : A) : list (list A) := repeat (repeat x k) n.

End Np.

Import Np.

(** ** Library code outside the repository *)

(** What the repository calls and does not define.  Each field stands for
    the named library function; nothing is assumed of them here, the
    theorems that need a contract state it. *)
Class Externals : Type := {
  (** [bool(a)] of an empty array: an error from NumPy 2.2 on, [False]
      (with a deprecation warning) before. *)
  empty_truth_raises : bool;
  (** [biotite.structure.CellList(coord, c).create_adjacency_matrix(c)]: a
      boolean matrix of shape (n,n) for n coordinates, given by its
      entries. *)
  CellList_adjacency : list (list R) -> R -> outcome (nat -> nat -> bool);
  (** [np.linalg.pinv(a, hermitian=True, rcond=1e-6)]; the argument is
      [None] when the caller passes Python's [None]. *)
  np_linalg_pinv : option ndarray -> outcome ndarray;
  (** [np.linalg.eigh(a)]: eigenvalues and the matrix whose columns are
      the eigenvectors. *)
  np_linalg_eigh : ndarray -> outcome (ndarray * ndarray);
  (** [a @ b] *)
  np_matmul : ndarray -> ndarray -> outcome ndarray;
  (** [np.dot(a, b)] *)
  np_dot : ndarray -> ndarray -> outcome ndarray;
  (** [biotite.structure.info.mass(res_name, is_residue=True)] *)
  struc_info_mass : string -> outcome R
}.

(** ** interaction.py *)

Module interaction.

(** The force field capability: [natoms] ([None] when unconstrained),
    [cutoff_distance] ([None] when there is no cutoff) and the force
    constant of one pair at one squared distance. *)
Record ForceField : Type := mk_ForceField {
  natoms : option nat;
  cutoff_distance : option R;
  force_constant : nat -> nat -> R -> R
}.

(** The vectorised call [force_field.force_constant(i, j, sq_dist)]. *)
Fixpoint force_constant_v (ff : ForceField) (atom_i atom_j : list nat) (sq_dist : list R)
  : list R :=
  match atom_i, atom_j, sq_dist with
  | i :: is_, j :: js, d :: ds => force_constant ff i j d :: force_constant_v ff is_ js ds
  | _, _, _ => []
  end.

Definition sum_R (l : list R) : R := fold_right Rplus 0%R l.

(** Componentwise difference [v - u] of two coordinate rows. *)
Fixpoint vsub (v u : list R) : list R :=
  match v, u with
  | x :: v', y :: u' => (x - y)%R :: vsub v' u'
  | _, _ => []
  end.

(** Componentwise sum [v + u] of two coordinate rows. *)
Fixpoint vadd (v u : list R) : list R :=
  match v, u with
  | x :: v', y :: u' => (x + y)%R :: vadd v' u'
  | _, _ => []
  end.

(** [biotite.structure.displacement(atoms1, atoms2)] without a box: the
    vector from [atoms1] to [atoms2]. *)
Definition displacement (atoms1 atoms2 : list R) : list R := vsub atoms2 atoms1.

(** [biotite.structure.index_displacement(coord, pairs)]: for each index
    pair, the displacement from its first atom to its second. *)
Definition index_displacement (coord : list (list R)) (pairs : list (nat * nat))
  : list (list R) :=
  map (fun p => displacement (nth (fst p) coord []) (nth (snd p) coord [])) pairs.

(** The displacement the resolver attaches to a pair: the distance matrix
    of the brute-force path holds the vector from the second atom to the
    first, [index_displacement] gives the vector from the first to the
    second. *)
Definition resolver_displacement (xyz : list (list R)) (brute : bool) (p : nat * nat)
  : list R :=
  if brute then vsub (nth (fst p) xyz []) (nth (snd p) xyz [])
  else vsub (nth (snd p) xyz []) (nth (fst p) xyz []).

(** [np.sum(d * d, axis=-1)] of one row. *)
Definition sum_sq (d : list R) : R := sum_R (map (fun x => (x * x)%R) d).

Definition Rle_bool (x y : R) : bool := if Rle_dec x y then true else false.

Section WithExternals.
Context {ext : Externals}.

(** Truth value of a boolean array, as [if a:] takes it. *)
Definition truth_value (a : list bool) : outcome bool :=
  match a with
  | [] => if empty_truth_raises then Raise ValueError else Return false
  | [b] => Return b
  | _ :: _ :: _ => Raise ValueError
  end.

Definition _patch_adjacency_matrix (matrix : list (list bool))
    (contact_pair_off contact_pair_on : option (list (Z * Z)))
  : outcome (list (list bool)) :=
  (matrix1 <- match contact_pair_off with
              | Some off => assign_pairs matrix off false
              | None => Return matrix
              end ;;
   match contact_pair_on with
   | None => Return matrix1
   | Some on =>
       match contact_pair_off with
       | None => Raise TypeError
       | Some off =>
           c <- truth_value (eq_bool_scalar (map fst off) (any (map snd off))) ;;
           if c then Raise ValueError
           else assign_pairs matrix1 on true
       end
   end)%py.

Definition _prepare_values_for_interaction_matrix (coord : ndarray)
    (force_field : ForceField) (use_cell_list : bool)
    (contact_pair_off contact_pair_on : option (list (Z * Z)))
  : outcome (list (nat * nat) * list (list R) * list R) :=
  if negb (ndim coord =? 2) || negb (nth 1 (shape coord) 0 =? 3) then Raise ValueError
  else
    let n := nth 0 (shape coord) 0 in
    if match natoms force_field with
       | Some k => negb (n =? k)
       | None => false
       end
    then Raise ValueError
    else
      let xyz := rows coord in
      let disp_matrix :=
        map (fun ci => map (fun cj => displacement cj ci) xyz) xyz in
      let sq_dist_matrix := map (map sum_sq) disp_matrix in
      (adj_matrix <- match cutoff_distance force_field with
                     | None => Return (full n n true)
                     | Some c =>
                         if use_cell_list then
                           (adj <- CellList_adjacency xyz c ;;
                            Return (tabulate n (fun i => tabulate n (adj i))))%py
                         else Return (map (map (fun d => Rle_bool d (c ^ 2))) sq_dist_matrix)
                     end ;;
       adj_matrix <- _patch_adjacency_matrix (fill_diagonal adj_matrix false)
                       contact_pair_off contact_pair_on ;;
       let pairs := where_ adj_matrix in
       match cutoff_distance force_field with
       | Some _ =>
           if use_cell_list then
             let disp := index_displacement xyz pairs in
             Return (pairs, disp, map sum_sq disp)
           else
             Return (pairs,
                     map (fun p => get2 [] disp_matrix (fst p) (snd p)) pairs,
                     map (fun p => get2 0%R sq_dist_matrix (fst p) (snd p)) pairs)
       | None =>
           let disp := index_displacement xyz pairs in
           Return (pairs, disp, map sum_sq disp)
       end)%py.

(** One 3x3 superelement:
    [-k / sq_dist * disp[:, newaxis] * disp[newaxis, :]]. *)
Definition superelement (k sq_dist : R) (disp : list R) : list (list R) :=
  tabulate 3 (fun a => tabulate 3 (fun b =>
    (- k / sq_dist * nth a disp 0 * nth b disp 0)%R)).

Fixpoint superelements (force_constants sq_dist : list R) (disp : list (list R))
  : list (list (list R)) :=
  match force_constants, sq_dist, disp with
  | k :: ks, s :: ss, d :: ds => superelement k s d :: superelements ks ss ds
  | _, _, _ => []
  end.

Definition zero_block : list (list R) := repeat (repeat 0%R 3) 3.

Definition bget (blk : list (list R)) (a b : nat) : R := get2 0%R blk a b.

(** [hessian[pairs[:,0], pairs[:,1]] = values]: the superelements are
    written in order (the pairs index an (n,n) adjacency matrix, so they
    are within bounds). *)
Fixpoint assign_blocks (h : list (list (list (list R)))) (pairs : list (nat * nat))
    (values : list (list (list R))) : list (list (list (list R))) :=
  match pairs, values with
  | p :: ps, v :: vs => assign_blocks (set2 h (fst p) (snd p) v) ps vs
  | _, _ => h
  end.

(** [np.sum(hessian, axis=0)]: for each second index [j], the sum of the
    superelements [hessian[i][j]] over the first index. *)
Definition sum_axis0 (n : nat) (h : list (list (list (list R)))) : list (list (list R)) :=
  tabulate n (fun j => tabulate 3 (fun a => tabulate 3 (fun b =>
    sum_R (map (fun row => bget (nth j row zero_block) a b) h)))).

Definition neg_block (blk : list (list R)) : list (list R) :=
  map (map Ropp) blk.

(** [hessian[indices, indices] = values] with [indices = arange(n)]. *)
Definition assign_diagonal (n : nat) (h : list (list (list (list R))))
    (values : list (list (list R))) : list (list (list (list R))) :=
  fold_left (fun acc i => set2 acc i i (nth i values zero_block)) (seq 0 n) h.

(** [np.transpose(h, (0, 2, 1, 3)).reshape(n*3, n*3)]: row [3i+a] of the
    result is the concatenation over [j] of row [a] of [h[i][j]]. *)
Definition flatten_superelements (n : nat) (h : list (list (list (list R)))) : ndarray :=
  mk_ndarray [n * 3; n * 3]
    (concat (concat
       (map (fun row => tabulate 3 (fun a =>
               concat (map (fun blk => tabulate 3 (fun b => bget blk a b)) row)))
            h))).

(** Lines 98-114 of [compute_hessian]: the matrix assembled from the
    resolver's pairs, displacements and squared distances. *)
Definition assemble_hessian (n : nat) (force_field : ForceField)
    (pairs : list (nat * nat)) (disp : list (list R)) (sq_dist : list R) : ndarray :=
  let hessian := full n n zero_block in
  let force_constants :=
    force_constant_v force_field (map fst pairs) (map snd pairs) sq_dist in
  let hessian := assign_blocks hessian pairs
                   (superelements force_constants sq_dist disp) in
  let hessian := assign_diagonal n hessian
                   (map neg_block (sum_axis0 n hessian)) in
  flatten_superelements n hessian.

Definition compute_hessian (coord : ndarray) (force_field : ForceField)
    (use_cell_list : bool) (contact_pair_off contact_pair_on : option (list (Z * Z)))
  : outcome (ndarray * list (nat * nat)) :=
  ('(pairs, disp, sq_dist) <- _prepare_values_for_interaction_matrix
       coord force_field use_cell_list contact_pair_off contact_pair_on ;;
   n <- len coord ;;
   Return (assemble_hessian n force_field pairs disp sq_dist, pairs))%py.

(** [kirchhoff[pairs[:,0], pairs[:,1]] = values]: the values are written
    in order (the pairs index an (n,n) adjacency matrix, so they are within
    bounds). *)
Fixpoint assign_entries (m : list (list R)) (pairs : list (nat * nat)) (values : list R)
  : list (list R) :=
  match pairs, values with
  | p :: ps, v :: vs => assign_entries (set2 m (fst p) (snd p) v) ps vs
  | _, _ => m
  end.

(** [np.sum(m, axis=0)] of an (n,n) matrix: for each column, the sum of
    its entries over the rows. *)
Definition column_sums (n : nat) (m : list (list R)) : list R :=
  tabulate n (fun j => sum_R (map (fun row => nth j row 0%R) m)).

(** [np.fill_diagonal(m, values)] with an array of one value per row. *)
Definition fill_diagonal_values (m : list (list R)) (values : list R) : list (list R) :=
  map (fun ir => set_nth (fst ir) (nth (fst ir) values 0%R) (snd ir))
      (combine (seq 0 (length m)) m).

(** Lines 49-55 of [compute_kirchhoff]: the matrix assembled from the
    resolver's pairs and squared distances. *)
Definition assemble_kirchhoff (n : nat) (force_field : ForceField)
    (pairs : list (nat * nat)) (sq_dist : list R) : ndarray :=
  let kirchhoff := full n n 0%R in
  let force_constants :=
    force_constant_v force_field (map fst pairs) (map snd pairs) sq_dist in
  let kirchhoff := assign_entries kirchhoff pairs (map Ropp force_constants) in
  let kirchhoff :=
    fill_diagonal_values kirchhoff (map Ropp (column_sums n kirchhoff)) in
  mk_ndarray [n; n] (concat kirchhoff).

Definition compute_kirchhoff (coord : ndarray) (force_field : ForceField)
    (use_cell_list : bool) (contact_pair_off contact_pair_on : option (list (Z * Z)))
  : outcome (ndarray * list (nat * nat)) :=
  ('(pairs, _, sq_dist) <- _prepare_values_for_interaction_matrix
       coord force_field use_cell_list contact_pair_off contact_pair_on ;;
   n <- len coord ;;
   Return (assemble_kirchhoff n force_field pairs sq_dist, pairs))%py.

End WithExternals.

(** [coord + t] for coordinates of shape (n,3) and a vector of three
    components: every atom is moved by [t]. *)
Definition translate (t : list R) (coord : ndarray) : ndarray :=
  mk_ndarray (shape coord) (concat (map (vadd t) (rows coord))).

(** Symmetry and translational invariance of a (3n,3n) matrix: it equals
    its transpose, and along every block row the 3x3 blocks sum to the
    zero block. *)
Definition hessian_invariants (n : nat) (H : ndarray) : Prop :=
  shape H = [n * 3; n * 3] /\
  (forall r c, r < n * 3 -> c < n * 3 -> entry H r c = entry H c r) /\
  (forall i a b, i < n -> a < 3 -> b < 3 ->
     sum_R (map (fun j => entry H (i * 3 + a) (j * 3 + b)) (seq 0 n)) = 0%R).

(** The index pairs a resolver call ends with, or its exception. *)
Definition pairs_of (r : outcome (list (nat * nat) * list (list R) * list R))
  : outcome (list (nat * nat)) :=
  (r' <- r ;; Return (fst (fst r')))%py.

End interaction.

Import interaction.

(** More of NumPy, as [anm.py] uses it. *)

Module NpOps.

Definition cols (k : nat) (rs : list (list R)) : list (list R) :=
  tabulate k (fun j => map (fun r => nth j r 0%R) rs).

(** The elements of [a.T] (all axes reversed) in row-major order. *)
Fixpoint T_data (sh : list nat) (d : list R) : list R :=
  match sh with
  | [] => d
  | d0 :: rest =>
      concat (cols (size_of rest) (map (T_data rest) (chunks d0 (size_of rest) d)))
  end.

(** [a.T] *)
Definition T (a : ndarray) : ndarray :=
  mk_ndarray (rev (shape a)) (T_data (shape a) (data a)).

(** [a[i]] for one integer index on the first axis. *)
Definition getitem (a : ndarray) (i : Z) : outcome ndarray :=
  match shape a with
  | [] => Raise IndexError
  | d0 :: rest =>
      (k <- norm_index d0 i ;;
       Return (mk_ndarray rest (nth k (chunks d0 (size_of rest) (data a)) [])))%py
  end.

(** [a.reshape((-1, 3))] *)
Definition reshape_rows3 (a : ndarray) : outcome ndarray :=
  if size_of (shape a) mod 3 =? 0
  then Return (mk_ndarray [size_of (shape a) / 3; 3] (data a))
  else Raise ValueError.

(** [np.max(v)] of a one-dimensional array. *)
Definition max (v : list R) : outcome R :=
  match v with
  | [] => Raise ValueError
  | x :: rest => Return (fold_left Rmax rest x)
  end.

(** [np.linspace(0, 1, num, endpoint=False)] *)
Definition linspace01 (num : Z) : outcome (list R) :=
  if (num <? 0)%Z then Raise ValueError
  else Return (tabulate (Z.to_nat num) (fun k => (INR k * (1 / IZR num) + 0)%R)).

(** [np.floor(x)] *)
Definition floor (x : R) : R := IZR (Int_part x).

(** [a.diagonal()]: the diagonal over the first two axes.  The remaining
    axes come first in the result and the position on the diagonal last;
    an array of fewer than two dimensions has no diagonal. *)
Definition diagonal (a : ndarray) : outcome ndarray :=
  match shape a with
  | d0 :: d1 :: rest =>
      let r := size_of rest in
      let m := Nat.min d0 d1 in
      Return (mk_ndarray (rest ++ [m])
                (concat (tabulate r (fun q => tabulate m (fun k =>
                   nth ((k * d1 + k) * r + q) (data a) 0%R)))))
  | _ => Raise ValueError
  end.

(** [np.reshape(a, (n, -1))]: the second dimension is inferred, which
    takes [n] to be positive and to divide the number of elements. *)
Definition reshape_rows (a : ndarray) (n : nat) : outcome ndarray :=
  let size := size_of (shape a) in
  if (n =? 0) || negb (size mod n =? 0) then Raise ValueError
  else Return (mk_ndarray [n; size / n] (data a)).

(** [np.sum(a, axis=1)] of a two-dimensional array: the sum of each row. *)
Definition sum_axis1 (a : ndarray) : ndarray :=
  mk_ndarray [nth 0 (shape a) 0] (map sum_R (rows a)).

(** [np.sqrt(x)] of one float: NaN, written [None], below zero. *)
Definition sqrt (x : R) : option R :=
  if Rle_dec 0 x then Some (R_sqrt.sqrt x) else None.

End NpOps.

(** ** anm.py *)

Module anm.

(** One atom of an [AtomArray]: its residue name and its coordinates. *)
Record Atom : Type := mk_Atom {
  res_name : string;
  coord : R * R * R
}.

(** The [atoms] argument of the constructor: an [AtomArray], or an array
    of coordinates. *)
Inductive atoms_t : Type :=
| AtomArray (l : list Atom)
| CoordArray (a : ndarray).

(** [biotite.structure.coord(atoms)] *)
Definition struc_coord (atoms : atoms_t) : ndarray :=
  match atoms with
  | AtomArray l =>
      mk_ndarray [length l; 3]
        (flat_map (fun a => let '(x, y, z) := coord a in [x; y; z]) l)
  | CoordArray a => a
  end.

(** A Python value held in a cache field or returned by a property:
    [None] or an array. *)
Definition pyval : Type := option ndarray.

Record ANM : Type := mk_ANM {
  _coord : ndarray;
  _atoms : atoms_t;
  _ff : ForceField;
  _use_cell_list : bool;
  _mass_weights : pyval;
  _hessian : pyval;
  _hessian_mw : pyval;
  _covariance : pyval;
  _covariance_mw : pyval
}.

Definition __init__ (atoms : atoms_t) (force_field : ForceField) (use_cell_list : bool)
  : ANM :=
  mk_ANM (struc_coord atoms) atoms force_field use_cell_list None None None None None.

Definition set_mass_weights (v : pyval) (s : ANM) : ANM :=
  mk_ANM (_coord s) (_atoms s) (_ff s) (_use_cell_list s)
         v (_hessian s) (_hessian_mw s) (_covariance s) (_covariance_mw s).
Definition set_hessian (v : pyval) (s : ANM) : ANM :=
  mk_ANM (_coord s) (_atoms s) (_ff s) (_use_cell_list s)
         (_mass_weights s) v (_hessian_mw s) (_covariance s) (_covariance_mw s).
Definition set_hessian_mw (v : pyval) (s : ANM) : ANM :=
  mk_ANM (_coord s) (_atoms s) (_ff s) (_use_cell_list s)
         (_mass_weights s) (_hessian s) v (_covariance s) (_covariance_mw s).
Definition set_covariance (v : pyval) (s : ANM) : ANM :=
  mk_ANM (_coord s) (_atoms s) (_ff s) (_use_cell_list s)
         (_mass_weights s) (_hessian s) (_hessian_mw s) v (_covariance_mw s).
Definition set_covariance_mw (v : pyval) (s : ANM) : ANM :=
  mk_ANM (_coord s) (_atoms s) (_ff s) (_use_cell_list s)
         (_mass_weights s) (_hessian s) (_hessian_mw s) (_covariance s) v.

(** A method body: it runs on the instance and leaves it, possibly with
    other cache fields, together with a result or an exception. *)
Definition M (A : Type) : Type := ANM -> outcome A * ANM.

Definition ret {A : Type} (a : A) : M A := fun s => (Return a, s).
Definition raise {A : Type} (e : exn) : M A := fun s => (Raise e, s).
Definition mbind {A B : Type} (c : M A) (k : A -> M B) : M B :=
  fun s => match c s with
           | (Return a, s') => k a s'
           | (Raise e, s') => (Raise e, s')
           end.
Definition lift {A : Type} (c : outcome A) : M A := fun s => (c, s).
Definition get : M ANM := fun s => (Return s, s).
Definition modify (f : ANM -> ANM) : M unit := fun s => (Return tt, f s).

Declare Scope anm_scope.
Delimit Scope anm_scope with anm.
Notation "x <- c ;; k" := (mbind c (fun x => k))
  (at level 61, c at next level, right associativity) : anm_scope.
Notation "' pat <- c ;; k" := (mbind c (fun x => match x with pat => k end))
  (at level 61, pat pattern, c at next level, right associativity) : anm_scope.
Notation "c ;;; k" := (mbind c (fun _ => k))
  (at level 61, right associativity) : anm_scope.

(** The names the class body binds to properties. *)
Inductive attr : Type :=
| mass_weights
| hessian
| hessian_mw
| covariance
| covariance_mw.

Definition attr_eqb (a b : attr) : bool :=
  match a, b with
  | mass_weights, mass_weights
  | hessian, hessian
  | hessian_mw, hessian_mw
  | covariance, covariance
  | covariance_mw, covariance_mw => true
  | _, _ => false
  end.

(** A property object: its getter and its setter, when it has one.  A
    getter reads other attributes of [self] through its first argument,
    which the class resolves when the property is read (late binding). *)
Definition getter : Type := (attr -> M pyval) -> M pyval.
Definition setter : Type := ndarray -> M unit.

Record property : Type := mk_property {
  fget : option getter;
  fset : option setter
}.

(** The namespace a class body builds: the latest binding of a name comes
    first. *)
Definition namespace : Type := list (attr * property).

Fixpoint lookup (ns : namespace) (name : attr) : option property :=
  match ns with
  | [] => None
  | (k, p) :: rest => if attr_eqb k name then Some p else lookup rest name
  end.

(** [@property] over [def name(self)] *)
Definition def_property (ns : namespace) (name : attr) (g : getter) : namespace :=
  (name, mk_property (Some g) None) :: ns.

(** [@base.setter] over [def name(self, value)]: a copy of the property
    bound to [base], with the new setter, is bound to [name]. *)
Definition def_setter (ns : namespace) (base name : attr) (f : setter) : namespace :=
  match lookup ns base with
  | Some p => (name, mk_property (fget p) (Some f)) :: ns
  | None => ns
  end.

Section WithExternals.
Context {ext : Externals}.

Local Open Scope anm_scope.

(** The shape every matrix-valued setter requires:
    [(len(self._coord) * 3, len(self._coord) * 3)]. *)
Definition expected_shape (self : ANM) : outcome (list nat) :=
  (n <- len (_coord self) ;; Return [n * 3; n * 3])%py.

(** [value.shape != (len(self._coord) * 3, len(self._coord) * 3)] followed
    by [raise IndexError]. *)
Definition check_shape (value : ndarray) : M unit :=
  self <- get ;;
  sh <- lift (expected_shape self) ;;
  if shape_eqb (shape value) sh then ret tt else raise IndexError.

(** The loop [for atom in self._atoms: m = mass(atom.res_name); masses +=
    [m]*3].  Iterating over a coordinate array yields rows, which have no
    [res_name]. *)
Fixpoint residue_masses (l : list Atom) : outcome (list R) :=
  match l with
  | [] => Return []
  | atom :: rest =>
      (m <- struc_info_mass (res_name atom) ;;
       masses <- residue_masses rest ;;
       Return (m :: m :: m :: masses))%py
  end.

Definition masses_of (atoms : atoms_t) : outcome (list R) :=
  match atoms with
  | AtomArray l => residue_masses l
  | CoordArray a =>
      match shape a with
      | [] => Raise TypeError
      | 0 :: _ => Return []
      | S _ :: _ => Raise AttributeError
      end
  end.

(** Lines 62-79. *)
Definition mass_weights_fget : getter := fun self_get =>
  self <- get ;;
  match _mass_weights self with
  | None =>
      masses <- lift (masses_of (_atoms self)) ;;
      let mw_matrix :=
        map (fun m_en => map (fun m => sqrt (m * m_en)) masses) masses in
      modify (set_mass_weights (Some (mk_ndarray [length masses] masses)))
  | Some _ => ret tt
  end ;;;
  self <- get ;;
  ret (_mass_weights self).

(** Lines 81-92. *)
Definition mass_weights_fset : setter := fun value =>
  check_shape value ;;;
  modify (set_mass_weights (Some value)) ;;;
  modify (set_hessian_mw None) ;;;
  modify (set_covariance_mw None).

(** Lines 94-105. *)
Definition hessian_fget : getter := fun self_get =>
  self <- get ;;
  match _hessian self with
  | None =>
      match _covariance self with
      | None =>
          r <- lift (compute_hessian (_coord self) (_ff self) (_use_cell_list self)
                       None None) ;;
          modify (set_hessian (Some (fst r)))
      | Some c =>
          h <- lift (np_linalg_pinv (Some c)) ;;
          modify (set_hessian (Some h))
      end
  | Some _ => ret tt
  end ;;;
  self <- get ;;
  ret (_hessian self).

(** Lines 107-117. *)
Definition hessian_fset : setter := fun value =>
  check_shape value ;;;
  modify (set_hessian (Some value)) ;;;
  modify (set_covariance None).

(** Lines 119-121: the body has no [return]. *)
Definition hessian_mw_fget : getter := fun self_get =>
  w <- self_get mass_weights ;;
  h <- self_get hessian ;;
  r <- lift match w, h with
            | Some w', Some h' => np_matmul w' h'
            | _, _ => Raise TypeError
            end ;;
  modify (set_hessian_mw (Some r)) ;;;
  ret None.

(** Lines 123-134. *)
Definition hessian_mw_fset : setter := fun value =>
  check_shape value ;;;
  modify (set_hessian_mw (Some value)) ;;;
  modify (set_mass_weights None) ;;;
  modify (set_covariance_mw None).

(** Lines 136-142. *)
Definition covariance_fget : getter := fun self_get =>
  self <- get ;;
  match _covariance self with
  | None =>
      h <- self_get hessian ;;
      c <- lift (np_linalg_pinv h) ;;
      modify (set_covariance (Some c))
  | Some _ => ret tt
  end ;;;
  self <- get ;;
  ret (_covariance self).

(** Lines 144-154. *)
Definition covariance_fset : setter := fun value =>
  check_shape value ;;;
  modify (set_covariance (Some value)) ;;;
  modify (set_hessian None).

(** Lines 156-161: the body has no [return]. *)
Definition covariance_mw_fget : getter := fun self_get =>
  self <- get ;;
  match _covariance_mw self with
  | None =>
      h <- self_get hessian_mw ;;
      c <- lift (np_linalg_pinv h) ;;
      modify (set_covariance_mw (Some c))
  | Some _ => ret tt
  end ;;;
  ret None.

(** Lines 163-174: decorated [@covariance_mw.setter], defined under the
    name [hessian_mw]. *)
Definition covariance_mw_fset : setter := fun value =>
  check_shape value ;;;
  modify (set_covariance_mw (Some value)) ;;;
  modify (set_mass_weights None) ;;;
  modify (set_hessian_mw None).

(** The properties of the class, bound in the order of the class body. *)
Definition class_ANM : namespace :=
  let ns := [] in
  let ns := def_property ns mass_weights mass_weights_fget in
  let ns := def_setter ns mass_weights mass_weights mass_weights_fset in
  let ns := def_property ns hessian hessian_fget in
  let ns := def_setter ns hessian hessian hessian_fset in
  let ns := def_property ns hessian_mw hessian_mw_fget in
  let ns := def_setter ns hessian_mw hessian_mw hessian_mw_fset in
  let ns := def_property ns covariance covariance_fget in
  let ns := def_setter ns covariance covariance covariance_fset in
  let ns := def_property ns covariance_mw covariance_mw_fget in
  let ns := def_setter ns covariance_mw hessian_mw covariance_mw_fset in
  ns.

(** Reading [self.name].  [depth] is the number of nested property reads
    the interpreter still allows (Python's recursion limit): a read that
    would exceed it raises [RecursionError]. *)
Fixpoint getattr (depth : nat) (name : attr) : M pyval :=
  match depth with
  | 0 => raise RecursionError
  | S d =>
      match lookup class_ANM name with
      | Some p =>
          match fget p with
          | Some g => g (getattr d)
          | None => raise AttributeError
          end
      | None => raise AttributeError
      end
  end.

(** The assignment [self.name = value]; a property without a setter
    refuses it. *)
Definition setattr (name : attr) (value : ndarray) : M unit :=
  match lookup class_ANM name with
  | Some p =>
      match fset p with
      | Some f => f value
      | None => raise AttributeError
      end
  | None => raise AttributeError
  end.

(** Lines 176-191. *)
Definition eigen (depth : nat) : M (ndarray * ndarray) :=
  h <- getattr depth hessian ;;
  r <- lift match h with
            | Some h' => np_linalg_eigh h'
            | None => Raise TypeError
            end ;;
  ret (fst r, NpOps.T (snd r)).

(** [np.sqrt(np.sum(mode_vectors**2, axis=-1))]: the length of each row. *)
Definition vector_lengths (mode_vectors : list (list R)) : list R :=
  map (fun v => sqrt (sum_R (map (fun x => (x ^ 2)%R) v))) mode_vectors.

(** The two waveforms of [normal_mode], at one time. *)
Definition sine (t : R) : R := sin (t * 2 * PI).
Definition triangle (t : R) : R :=
  (2 * Rabs (2 * (t - NpOps.floor (t + 0.5))) - 1)%R.

(** Lines 193-246.  The result has shape (frames, n, 3): one list of
    per-atom displacement vectors per frame. *)
Definition normal_mode (depth : nat) (index : Z) (amplitude : R) (frames : Z)
    (movement : string) : M (list (list (list R))) :=
  r <- eigen depth ;;
  let eigenvectors := snd r in
  row <- lift (NpOps.getitem eigenvectors index) ;;
  mode <- lift (NpOps.reshape_rows3 row) ;;
  let mode_vectors := rows mode in
  m <- lift (NpOps.max (vector_lengths mode_vectors)) ;;
  let scale := (amplitude / m)%R in
  let mode_vectors := map (map (fun x => (x * scale)%R)) mode_vectors in
  time <- lift (NpOps.linspace01 frames) ;;
  normed_disp <-
    (if String.eqb movement "sine" then ret (map sine time)
     else if String.eqb movement "triangle" then ret (map triangle time)
     else raise ValueError) ;;
  ret (map (fun d => map (map (fun x => (d * x)%R)) mode_vectors) normed_disp).

(** The largest per-atom displacement magnitude over all frames of a
    trajectory (magnitudes are not negative, so the maximum starts at 0). *)
Definition max_displacement (disp : list (list (list R))) : R :=
  fold_right Rmax 0%R (concat (map vector_lengths disp)).

(** Lines 249-296. *)
Definition linear_response (depth : nat) (force : ndarray) : M ndarray :=
  self <- get ;;
  force <-
    (if ndim force =? 2 then
       n <- lift (len (_coord self)) ;;
       if negb (shape_eqb (shape force) [n; 3]) then raise ValueError
       else ret (flatten force)
     else if ndim force =? 1 then
       n <- lift (len (_coord self)) ;;
       if negb (nth 0 (shape force) 0 =? n * 3) then raise ValueError
       else ret force
     else raise ValueError) ;;
  c <- getattr depth covariance ;;
  d <- lift match c with
            | Some c' => np_dot c' force
            | None => Raise TypeError
            end ;;
  self <- get ;;
  n <- lift (len (_coord self)) ;;
  lift (reshape d [n; 3]).

(** Lines 298-315. *)
Definition mean_square_fluctuation (depth : nat) : M ndarray :=
  c <- getattr depth covariance ;;
  diag <- lift match c with
               | Some c' => NpOps.diagonal c'
               | None => Raise AttributeError
               end ;;
  self <- get ;;
  n <- lift (len (_coord self)) ;;
  reshape_diag <- lift (NpOps.reshape_rows diag n) ;;
  let msqf := NpOps.sum_axis1 reshape_diag in
  ret msqf.

(** Lines 317-330.  The result has the shape of the eigenvalue array; it
    is given by its elements, of which those of negative eigenvalues are
    NaN ([None]). *)
Definition frequencies (depth : nat) : M (list (option R)) :=
  r <- eigen depth ;;
  let eigenval := fst r in
  let freq :=
    map (fun x => option_map (fun y => (1 / (2 * PI) * y)%R) (NpOps.sqrt x))
        (data eigenval) in
  ret freq.

(** Lines 333-348. *)
Definition bfactor (depth : nat) : M ndarray :=
  msqf <- mean_square_fluctuation depth ;;
  let b_factors :=
    mk_ndarray (shape msqf) (map (fun x => (8 * PI ^ 2 / 3 * x)%R) (data msqf)) in
  ret b_factors.

(** One use of a model by its client: an attribute is read or assigned,
    or a method is called. *)
Inductive operation : Type :=
| Read (name : attr)
| Assign (name : attr) (value : ndarray)
| Call_eigen
| Call_normal_mode (index : Z) (amplitude : R) (frames : Z) (movement : string)
| Call_linear_response (force : ndarray)
| Call_mean_square_fluctuation
| Call_frequencies
| Call_bfactor.

(** The model after one operation; an exception leaves the model as the
    operation had it when it was raised. *)
Definition perform (depth : nat) (o : operation) (s : ANM) : ANM :=
  match o with
  | Read name => snd (getattr depth name s)
  | Assign name value => snd (setattr name value s)
  | Call_eigen => snd (eigen depth s)
  | Call_normal_mode index amplitude frames movement =>
      snd (normal_mode depth index amplitude frames movement s)
  | Call_linear_response force => snd (linear_response depth force s)
  | Call_mean_square_fluctuation => snd (mean_square_fluctuation depth s)
  | Call_frequencies => snd (frequencies depth s)
  | Call_bfactor => snd (bfactor depth s)
  end.

End WithExternals.

(** [s'] is [s] with, at most, more of the matrices [mass_weights],
    [hessian] and [covariance] cached: the inputs and the mass-weighted
    caches are the same, and what was cached in [s] is cached in [s']. *)
Definition cache_extension (s s' : ANM) : Prop :=
  _coord s' = _coord s /\ _atoms s' = _atoms s /\ _ff s' = _ff s /\
  _use_cell_list s' = _use_cell_list s /\
  _hessian_mw s' = _hessian_mw s /\ _covariance_mw s' = _covariance_mw s /\
  (forall v, _mass_weights s = Some v -> _mass_weights s' = Some v) /\
  (forall v, _hessian s = Some v -> _hessian s' = Some v) /\
  (forall v, _covariance s = Some v -> _covariance s' = Some v).

(** A method body that only extends the caches. *)
Definition extends_caches {A : Type} (c : M A) : Prop :=
  forall s, cache_extension s (snd (c s)).

End anm.

Import anm.

(** ** Concrete inputs *)

Module Examples.

Definition matvec (a : list (list R)) (v : list R) : list R :=
  map (fun row => sum_R (map (fun p => (fst p * snd p)%R) (combine row v))) a.

(** A library instance for the examples.  The linear algebra is tabulated
    for the matrices the examples use: the pseudo-inverse of the zero
    matrix (and of the identity) is the matrix itself, and the zero matrix
    has the eigenvalues 0 with the unit vectors as eigenvectors.  The cell
    list is the pairwise distance test it accelerates. *)
Definition lib : Externals := {|
  empty_truth_raises := false;
  CellList_adjacency := fun xyz c =>
    Return (fun i j => Rle_bool (sum_sq (vsub (nth i xyz []) (nth j xyz []))) (c ^ 2));
  np_linalg_pinv := fun a =>
    match a with
    | Some m => Return m
    | None => Raise TypeError
    end;
  np_linalg_eigh := fun a =>
    let n := nth 0 (shape a) 0 in
    Return (mk_ndarray [n] (repeat 0%R n),
            mk_ndarray [n; n]
              (concat (tabulate n (fun i => tabulate n (fun j =>
                 if i =? j then 1%R else 0%R)))));
  np_matmul := fun _ _ => Raise ValueError;
  np_dot := fun a v =>
    if (ndim a =? 2) && (ndim v =? 1) && (nth 1 (shape a) 0 =? nth 0 (shape v) 0)
    then Return (mk_ndarray [nth 0 (shape a) 0] (matvec (rows a) (data v)))
    else Raise ValueError;
  struc_info_mass := fun name =>
    if String.eqb name "ALA" then Return 89.094%R else Raise KeyError
|}.

(** A force field with cutoff 1.5 and the uniform force constant 1. *)
Definition ff_uniform : ForceField :=
  mk_ForceField None (Some 1.5%R) (fun _ _ _ => 1%R).

(** The same force law without a cutoff. *)
Definition ff_dense : ForceField :=
  mk_ForceField None None (fun _ _ _ => 1%R).

(** A force field built for five atoms. *)
Definition ff_five_atoms : ForceField :=
  mk_ForceField (Some 5) None (fun _ _ _ => 1%R).

(** Two atoms at distance 1. *)
Definition coord2 : ndarray := mk_ndarray [2; 3] [0; 0; 0; 1; 0; 0]%R.

(** Three atoms on a line, at distances 1 and 2. *)
Definition coord3 : ndarray := mk_ndarray [3; 3] [0; 0; 0; 1; 0; 0; 2; 0; 0]%R.

(** One atom at the origin, and the model built on it. *)
Definition coord1 : ndarray := mk_ndarray [1; 3] [0; 0; 0]%R.

Definition model1 : ANM := __init__ (CoordArray coord1) ff_uniform false.

(** One alanine at the origin. *)
Definition model_ala : ANM :=
  __init__ (AtomArray [mk_Atom "ALA" (0, 0, 0)%R]) ff_uniform false.

Definition zeros33 : ndarray := mk_ndarray [3; 3] (repeat 0%R 9).

Definition eye33 : ndarray := mk_ndarray [3; 3] [1; 0; 0; 0; 1; 0; 0; 0; 1]%R.

(** [model1] after [model1.hessian = zeros33]. *)
Definition model1_hessian_set : ANM := snd (setattr (ext := lib) hessian zeros33 model1).

(** [model1] after [model1.mass_weights = zeros33]. *)
Definition model1_weights_set : ANM :=
  snd (setattr (ext := lib) mass_weights zeros33 model1).

End Examples.

(** * Properties *)

(** ** Lists, matrices and index arrays *)

Lemma length_set_nth {A : Type} (i : nat) (x : A) (l : list A) :
  length (set_nth i x l) = length l.
Proof.
  revert i. induction l as [| h t IH]; intros [| i]; simpl; auto.
Qed.

Lemma nth_set_nth_eq {A : Type} (i : nat) (x d : A) (l : list A) :
  i < length l -> nth i (set_nth i x l) d = x.
Proof.
  revert i. induction l as [| h t IH]; intros [| i]; simpl; intros Hi; try lia; auto.
  apply IH. lia.
Qed.

Lemma nth_set_nth_neq {A : Type} (i j : nat) (x d : A) (l : list A) :
  i <> j -> nth j (set_nth i x l) d = nth j l d.
Proof.
  revert i j. induction l as [| h t IH]; intros [| i] [| j]; simpl; intros Hij;
    try reflexivity; try lia.
  apply IH. lia.
Qed.

Lemma length_tabulate {A : Type} (n : nat) (f : nat -> A) : length (tabulate n f) = n.
Proof. unfold tabulate. now rewrite length_map, length_seq. Qed.

Lemma nth_tabulate {A : Type} (n i : nat) (f : nat -> A) (d : A) :
  i < n -> nth i (tabulate n f) d = f i.
Proof.
  intros Hi. unfold tabulate.
  rewrite (nth_indep _ d (f 0)) by now rewrite length_map, length_seq.
  rewrite map_nth, seq_nth by assumption. reflexivity.
Qed.

Lemma In_enumerate {A : Type} (l : list A) (s i : nat) (x d : A) :
  In (i, x) (combine (seq s (length l)) l) <->
  s <= i < s + length l /\ nth (i - s) l d = x.
Proof.
  revert s. induction l as [| h t IH]; intros s; simpl.
  - split; [tauto | lia].
  - rewrite IH. split.
    + intros [Heq | [Hr Hn]].
      * inversion Heq; subst. rewrite Nat.sub_diag. split; [lia | reflexivity].
      * split; [lia |]. replace (i - s) with (S (i - S s)) by lia. exact Hn.
    + intros [Hr Hn]. destruct (Nat.eq_dec i s) as [-> | Hne].
      * left. rewrite Nat.sub_diag in Hn. now subst.
      * right. split; [lia |]. replace (i - s) with (S (i - S s)) in Hn by lia. exact Hn.
Qed.

Lemma rect_nth {A : Type} (n k i : nat) (m : list (list A)) :
  rect n k m -> i < n -> length (nth i m []) = k.
Proof.
  intros [Hn Hk] Hi. rewrite Forall_forall in Hk. apply Hk, nth_In. lia.
Qed.

Lemma rect_ncols {A : Type} (n : nat) (m : list (list A)) : rect n n m -> ncols m = n.
Proof.
  intros [Hn Hk]. unfold ncols. destruct m as [| r t]; simpl in *; [easy |].
  now inversion Hk.
Qed.

Lemma rect_set2 {A : Type} (n k i j : nat) (x : A) (m : list (list A)) :
  rect n k m -> rect n k (set2 m i j x).
Proof.
  intros Hr. pose proof Hr as [Hn Hk]. unfold set2. split.
  - now rewrite length_set_nth.
  - rewrite Forall_forall in *. intros r Hin.
    destruct (In_nth _ _ [] Hin) as (q & Hq & Hr').
    rewrite length_set_nth in Hq.
    destruct (Nat.eq_dec i q) as [-> | Hne].
    + rewrite nth_set_nth_eq in Hr' by assumption. subst r.
      rewrite length_set_nth. apply Hk, nth_In. assumption.
    + rewrite nth_set_nth_neq in Hr' by assumption. subst r.
      apply Hk, nth_In. assumption.
Qed.

Lemma get2_set2_eq {A : Type} (n k i j : nat) (x d : A) (m : list (list A)) :
  rect n k m -> i < n -> j < k -> get2 d (set2 m i j x) i j = x.
Proof.
  intros Hr Hi Hj. unfold get2, set2.
  rewrite nth_set_nth_eq by (destruct Hr; lia).
  apply nth_set_nth_eq. now rewrite (rect_nth Hr Hi).
Qed.

Lemma get2_set2_neq {A : Type} (i j i' j' : nat) (x d : A) (m : list (list A)) :
  (i, j) <> (i', j') -> get2 d (set2 m i j x) i' j' = get2 d m i' j'.
Proof.
  intros Hne. unfold get2, set2.
  destruct (Nat.eq_dec i i') as [-> | Hi].
  - destruct (Nat.lt_ge_cases i' (length m)) as [Hlt | Hge].
    + rewrite nth_set_nth_eq by assumption.
      apply nth_set_nth_neq. congruence.
    + rewrite !(nth_overflow _ []); rewrite ?length_set_nth; auto.
  - now rewrite nth_set_nth_neq.
Qed.

(** Writing one value at a list of in-bounds positions. *)
Lemma fold_set2_spec {A : Type} (n k : nat) (x d : A) (ps : list (nat * nat)) (m : list (list A)) :
  rect n k m ->
  (forall p, In p ps -> fst p < n /\ snd p < k) ->
  let m' := fold_left (fun acc p => set2 acc (fst p) (snd p) x) ps m in
  rect n k m' /\
  forall i j, (In (i, j) ps -> get2 d m' i j = x) /\
              (~ In (i, j) ps -> get2 d m' i j = get2 d m i j).
Proof.
  revert m. induction ps as [| [a b] ps IH]; intros m Hr Hb; simpl.
  - split; [assumption |]. intros i j. split; [tauto | reflexivity].
  - assert (Hr' : rect n k (set2 m a b x)) by now apply rect_set2.
    destruct (IH (set2 m a b x) Hr') as [Hr'' Hget].
    { intros p Hp. apply Hb. now right. }
    split; [assumption |]. intros i j. destruct (Hget i j) as [Hin Hout]. split.
    + intros [Heq | Hp]; [| now apply Hin].
      inversion Heq; subst.
      destruct (in_dec (fun p q : nat * nat =>
                  ltac:(decide equality; apply Nat.eq_dec) : {p = q} + {p <> q})
                  (i, j) ps) as [Hp | Hp]; [now apply Hin |].
      rewrite Hout by assumption.
      destruct (Hb (i, j) (or_introl eq_refl)) as [Hi Hj].
      now apply (get2_set2_eq x d Hr).
    + intros Hnin. rewrite Hout by tauto.
      apply get2_set2_neq. intros Heq. apply Hnin. left. exact Heq.
Qed.


Lemma wrap_lt (n : nat) (i : Z) : 0 < n -> wrap n i < n.
Proof.
  intros Hn. unfold wrap.
  pose proof (Z.mod_pos_bound i (Z.of_nat n) ltac:(lia)). lia.
Qed.

Lemma norm_index_spec (n k : nat) (i : Z) :
  norm_index n i = Return k -> k = wrap n i /\ k < n.
Proof.
  unfold norm_index.
  destruct ((- Z.of_nat n <=? i) && (i <? Z.of_nat n))%Z eqn:E; [| discriminate].
  intros Hk. inversion Hk. split; [reflexivity |].
  apply wrap_lt. apply andb_prop in E. lia.
Qed.

Lemma norm_pairs_spec (nr nc : nat) (idx : list (Z * Z)) (ps : list (nat * nat)) :
  norm_pairs nr nc idx = Return ps ->
  ps = map (fun p => (wrap nr (fst p), wrap nc (snd p))) idx /\
  forall p, In p ps -> fst p < nr /\ snd p < nc.
Proof.
  revert ps. induction idx as [| [i j] rest IH]; simpl; intros ps Hn.
  - inversion Hn. split; [reflexivity | intros p []].
  - destruct (norm_index nr i) as [i' |] eqn:Ei; simpl in Hn; [| discriminate].
    destruct (norm_index nc j) as [j' |] eqn:Ej; simpl in Hn; [| discriminate].
    destruct (norm_pairs nr nc rest) as [rest' |]; simpl in Hn; [| discriminate].
    inversion Hn. destruct (IH rest' eq_refl) as [Hmap Hb].
    destruct (norm_index_spec _ _ Ei) as [-> Hi].
    destruct (norm_index_spec _ _ Ej) as [-> Hj].
    split; [now rewrite Hmap |].
    intros p [<- | Hp]; [simpl; lia | now apply Hb].
Qed.

(** [m[tuple(idx.T)] = x] on an (n,n) matrix: when it succeeds, exactly
    the entries the index pairs denote hold [x]. *)
Lemma assign_pairs_spec {A : Type} (n : nat) (x d : A) (idx : list (Z * Z))
    (m m' : list (list A)) :
  rect n n m ->
  assign_pairs m idx x = Return m' ->
  rect n n m' /\
  (forall p, In p idx -> fst (denotes n p) < n /\ snd (denotes n p) < n) /\
  forall i j, (In (i, j) (map (denotes n) idx) -> get2 d m' i j = x) /\
              (~ In (i, j) (map (denotes n) idx) -> get2 d m' i j = get2 d m i j).
Proof.
  intros Hr Ha. unfold assign_pairs in Ha.
  rewrite (rect_ncols Hr) in Ha. destruct Hr as [Hn Hk]. rewrite Hn in Ha.
  destruct (norm_pairs n n idx) as [ps |] eqn:E; simpl in Ha; [| discriminate].
  inversion Ha as [Hm']. destruct (norm_pairs_spec _ _ _ E) as [Hmap Hb].
  destruct (fold_set2_spec x d ps (conj Hn Hk) Hb) as [Hr' Hget].
  split; [assumption |]. split.
  - intros p Hp. apply Hb. rewrite Hmap. apply (in_map (denotes n)) in Hp. exact Hp.
  - intros i j. fold (denotes n) in Hmap. change (fun p : Z * Z => (wrap n (fst p), wrap n (snd p)))
      with (denotes n) in Hmap. rewrite <- Hmap. apply Hget.
Qed.

Lemma true_columns_spec (row : list bool) (j : nat) :
  In j (true_columns row) <-> j < length row /\ nth j row false = true.
Proof.
  unfold true_columns. rewrite in_map_iff. split.
  - intros ([j' b] & Hj & Hin). simpl in Hj. subst j'.
    apply filter_In in Hin. destruct Hin as [Hin Hb]. simpl in Hb. subst b.
    apply (In_enumerate row 0 j true false) in Hin.
    rewrite Nat.sub_0_r in Hin. split; [lia | tauto].
  - intros [Hj Hn]. exists (j, true). split; [reflexivity |].
    apply filter_In. split; [| reflexivity].
    apply (In_enumerate row 0 j true false). rewrite Nat.sub_0_r. split; [lia | assumption].
Qed.

(** [np.where] lists exactly the positions of the true entries. *)
Lemma where_spec (m : list (list bool)) (i j : nat) :
  In (i, j) (where_ m) <->
  i < length m /\ j < length (nth i m []) /\ get2 false m i j = true.
Proof.
  unfold where_, get2. rewrite in_flat_map. split.
  - intros ([i' row] & Hin & Hj). simpl in Hj.
    apply in_map_iff in Hj. destruct Hj as (j' & Heq & Hj'). inversion Heq; subst.
    apply (In_enumerate m 0 i row []) in Hin. rewrite Nat.sub_0_r in Hin.
    destruct Hin as [Hi Hrow]. subst row. apply true_columns_spec in Hj'.
    split; [lia | exact Hj'].
  - intros (Hi & Hj & Hn). exists (i, nth i m []). split.
    + apply (In_enumerate m 0 i (nth i m []) []). rewrite Nat.sub_0_r. split; [lia | reflexivity].
    + simpl. apply in_map. apply true_columns_spec. tauto.
Qed.

Lemma rect_fill_diagonal {A : Type} (n k : nat) (x : A) (m : list (list A)) :
  rect n k m -> rect n k (fill_diagonal m x).
Proof.
  intros [Hn Hk]. unfold fill_diagonal. split.
  - rewrite length_map, length_combine, length_seq. lia.
  - rewrite Forall_forall in *. intros r Hin.
    apply in_map_iff in Hin. destruct Hin as ([i row] & Heq & Hin). simpl in Heq. subst r.
    rewrite length_set_nth. apply Hk. eapply in_combine_r. exact Hin.
Qed.

Lemma rect_full {A : Type} (n k : nat) (x : A) : rect n k (full n k x).
Proof.
  unfold full. split; [apply repeat_length |].
  rewrite Forall_forall. intros r Hr. apply repeat_spec in Hr. subst r. apply repeat_length.
Qed.

Lemma rect_tabulate {A : Type} (n k : nat) (f : nat -> nat -> A) :
  rect n k (tabulate n (fun i => tabulate k (f i))).
Proof.
  split; [apply length_tabulate |].
  rewrite Forall_forall. intros r Hr. unfold tabulate at 1 in Hr.
  apply in_map_iff in Hr. destruct Hr as (i & <- & _). apply length_tabulate.
Qed.

Lemma length_chunks {A : Type} (n k : nat) (l : list A) : length (chunks n k l) = n.
Proof.
  revert l. induction n as [| n IH]; intros l; simpl; [reflexivity | now rewrite IH].
Qed.

Lemma Rle_bool_true (x y : R) : (x <= y)%R -> Rle_bool x y = true.
Proof.
  intros H. unfold Rle_bool. destruct (Rle_dec x y); [reflexivity | contradiction].
Qed.

(** ** Adjacency: overrides *)

Section Adjacency.
Context {ext : Externals}.

(** What [_patch_adjacency_matrix] leaves in an (n,n) matrix when both
    override lists are given and it raises nothing: the force-on pairs are
    true, the force-off pairs that are no force-on pairs are false, and all
    other entries are unchanged. *)
Lemma patch_adjacency_matrix_spec (n : nat) (matrix matrix' : list (list bool))
    (off on : list (Z * Z)) :
  rect n n matrix ->
  _patch_adjacency_matrix matrix (Some off) (Some on) = Return matrix' ->
  rect n n matrix' /\
  (forall p, In p on -> fst (denotes n p) < n /\ snd (denotes n p) < n) /\
  (forall p, In p off -> fst (denotes n p) < n /\ snd (denotes n p) < n) /\
  forall i j,
    (In (i, j) (map (denotes n) on) -> get2 false matrix' i j = true) /\
    (In (i, j) (map (denotes n) off) -> ~ In (i, j) (map (denotes n) on) ->
     get2 false matrix' i j = false) /\
    (~ In (i, j) (map (denotes n) off) -> ~ In (i, j) (map (denotes n) on) ->
     get2 false matrix' i j = get2 false matrix i j).
Proof.
  intros Hr Hp. unfold _patch_adjacency_matrix in Hp.
  destruct (assign_pairs matrix off false) as [m1 |] eqn:E1; simpl in Hp; [| discriminate].
  destruct (truth_value _) as [[|] |]; simpl in Hp; try discriminate.
  destruct (assign_pairs_spec false false off Hr E1) as (Hr1 & Hb1 & Hg1).
  destruct (assign_pairs_spec true false on Hr1 Hp) as (Hr2 & Hb2 & Hg2).
  split; [assumption |]. split; [assumption |]. split; [assumption |].
  intros i j. destruct (Hg2 i j) as [Hon2 Hout2]. destruct (Hg1 i j) as [Hon1 Hout1].
  split; [assumption |]. split.
  - intros Hoff Hon. rewrite Hout2 by assumption. now apply Hon1.
  - intros Hoff Hon. rewrite Hout2 by assumption. now apply Hout1.
Qed.

(** The resolver, when it returns: the pairs are the true entries of the
    patched (n,n) adjacency matrix, whose diagonal was cleared before the
    overrides were applied. *)
Lemma prepare_values_pairs (coord : ndarray) (ff : ForceField) (use_cell_list : bool)
    (off on : option (list (Z * Z))) (pairs : list (nat * nat))
    (disp : list (list R)) (sq_dist : list R) :
  _prepare_values_for_interaction_matrix coord ff use_cell_list off on
    = Return (pairs, disp, sq_dist) ->
  let n := nth 0 (shape coord) 0 in
  exists adj adj' : list (list bool),
    rect n n adj /\
    _patch_adjacency_matrix (fill_diagonal adj false) off on = Return adj' /\
    pairs = where_ adj'.
Proof.
  intros Hp n. unfold _prepare_values_for_interaction_matrix in Hp.
  destruct (negb (ndim coord =? 2) || negb (nth 1 (shape coord) 0 =? 3)); [discriminate |].
  destruct (match natoms ff with Some k => negb (nth 0 (shape coord) 0 =? k) | None => false end);
    [discriminate |].
  fold n in Hp.
  match type of Hp with
  | bind ?c _ = _ => destruct c as [adj |] eqn:Eadj; simpl in Hp; [| discriminate]
  end.
  assert (Hr : rect n n adj).
  { destruct (cutoff_distance ff) as [c |].
    - destruct use_cell_list.
      + destruct (CellList_adjacency (rows coord) c); simpl in Eadj; [| discriminate].
        inversion Eadj. apply rect_tabulate.
      + injection Eadj as <-. unfold rows. fold n. split.
        * rewrite !length_map. apply length_chunks.
        * rewrite Forall_forall. intros r Hin.
          apply in_map_iff in Hin. destruct Hin as (r' & <- & Hin).
          apply in_map_iff in Hin. destruct Hin as (r'' & <- & Hin).
          apply in_map_iff in Hin. destruct Hin as (ci & <- & Hin).
          rewrite !length_map. apply length_chunks.
    - inversion Eadj. apply rect_full. }
  destruct (_patch_adjacency_matrix (fill_diagonal adj false) off on) as [adj' |] eqn:Ep;
    simpl in Hp; [| discriminate].
  exists adj, adj'. split; [assumption |]. split; [exact Ep |].
  destruct (cutoff_distance ff); [destruct use_cell_list |]; now injection Hp as <- _ _.
Qed.

(** C1 (as amended). When both override lists are given and the resolver
    returns, a force-on pair is in the pair set even when it is also a
    force-off pair, and a force-off pair that is no force-on pair is absent
    from the pair set even when it lies within the cutoff: "off" wins over
    the cutoff, and "on", which is applied last, wins over "off". *)
Theorem on_overrides_win_over_off_overrides (coord : ndarray) (ff : ForceField)
    (use_cell_list : bool) (off on : list (Z * Z)) (pairs : list (nat * nat))
    (disp : list (list R)) (sq_dist : list R) :
  _prepare_values_for_interaction_matrix coord ff use_cell_list (Some off) (Some on)
    = Return (pairs, disp, sq_dist) ->
  let n := nth 0 (shape coord) 0 in
  forall p,
    (In p on -> In (denotes n p) pairs) /\
    (In p off -> (forall q, In q on -> denotes n q <> denotes n p) ->
     ~ In (denotes n p) pairs).
Proof.
  intros Hp n p.
  destruct (prepare_values_pairs _ _ _ _ _ Hp) as (adj & adj' & Hr & Hpatch & ->).
  fold n in Hr.
  destruct (patch_adjacency_matrix_spec off on (rect_fill_diagonal false Hr) Hpatch)
    as (Hr' & Hbon & Hboff & Hget).
  destruct (denotes n p) as [i j] eqn:Ed.
  destruct (Hget i j) as (Hon & Hoff & _). split.
  - intros Hin. apply where_spec.
    pose proof (Hbon p Hin) as [Hi Hj]. rewrite Ed in Hi, Hj. simpl in Hi, Hj.
    destruct Hr' as [Hn' Hk']. split; [lia |]. split.
    + rewrite (rect_nth (conj Hn' Hk')) by assumption. assumption.
    + apply Hon. rewrite <- Ed. now apply in_map.
  - intros Hin Hnot Hw. apply where_spec in Hw. destruct Hw as (_ & _ & Hw).
    rewrite Hoff in Hw; [discriminate | |].
    + rewrite <- Ed. now apply in_map.
    + intros Hq. apply in_map_iff in Hq. destruct Hq as (q & Hq & Hqin).
      apply (Hnot q Hqin). congruence.
Qed.

(** C3, evaluated on the code.  The test before the force-on assignment
    reads the force-off list: a force-on self-pair passes it (first
    equation: the pair (1,1) is switched on), a force-off list without any
    self-pair fails it (second equation), and without a force-off list the
    test itself fails on [None] (third equation). *)
Theorem self_pair_check_reads_the_off_list :
  pairs_of (_prepare_values_for_interaction_matrix Examples.coord2 Examples.ff_dense true
              (Some [(0, 1)%Z]) (Some [(1, 1)%Z]))
    = Return [(1, 0); (1, 1)] /\
  pairs_of (_prepare_values_for_interaction_matrix Examples.coord3 Examples.ff_dense true
              (Some [(1, 2)%Z]) (Some [(0, 1)%Z]))
    = Raise ValueError /\
  pairs_of (_prepare_values_for_interaction_matrix Examples.coord2 Examples.ff_dense true
              None (Some [(0, 1)%Z]))
    = Raise TypeError.
Proof.
  repeat split.
Qed.

End Adjacency.

(** ** Hessian: symmetry and translational invariance *)

Lemma nth_concat_uniform {A : Type} (k i c : nat) (d : A) (ls : list (list A)) :
  Forall (fun r => length r = k) ls ->
  i < length ls -> c < k ->
  nth (i * k + c) (concat ls) d = nth c (nth i ls []) d.
Proof.
  revert i. induction ls as [| r rest IH]; intros i Hk Hi Hc; simpl in *; [lia |].
  inversion Hk as [| ? ? Hr Hrest]; subst.
  destruct i as [| i]; simpl.
  - apply app_nth1. lia.
  - rewrite app_nth2 by lia.
    replace (length r + i * length r + c - length r) with (i * length r + c) by lia.
    apply IH; [assumption | lia | assumption].
Qed.

Lemma length_concat_uniform {A : Type} (k : nat) (ls : list (list A)) :
  Forall (fun r => length r = k) ls -> length (concat ls) = length ls * k.
Proof.
  induction 1 as [| r rest Hr _ IH]; simpl; [reflexivity |].
  rewrite length_app, IH, Hr. reflexivity.
Qed.

Lemma map_seq_nth {A B : Type} (f : A -> B) (d : A) (l : list A) :
  map f l = map (fun i => f (nth i l d)) (seq 0 (length l)).
Proof.
  apply (nth_ext _ _ (f d) (f d)).
  - now rewrite !length_map, length_seq.
  - intros i Hi. rewrite length_map in Hi.
    rewrite map_nth.
    rewrite (nth_indep _ (f d) ((fun i => f (nth i l d)) 0))
      by now rewrite length_map, length_seq.
    rewrite (map_nth (fun i => f (nth i l d))), seq_nth by assumption. reflexivity.
Qed.

Lemma sum_R_app (l1 l2 : list R) : sum_R (l1 ++ l2) = (sum_R l1 + sum_R l2)%R.
Proof.
  induction l1 as [| x l1 IH]; simpl; [lra | rewrite IH; lra].
Qed.

Lemma sum_R_map_ext {A : Type} (f g : A -> R) (l : list A) :
  (forall x, In x l -> f x = g x) -> sum_R (map f l) = sum_R (map g l).
Proof.
  intros H. f_equal. now apply map_ext_in.
Qed.

(** A sum over [0, n) in which the term at [i] is replaced by [x]. *)
Lemma sum_R_replace (f : nat -> R) (x : R) (i n : nat) :
  i < n ->
  sum_R (map (fun j => if j =? i then x else f j) (seq 0 n))
  = (x + sum_R (map f (seq 0 n)) - f i)%R.
Proof.
  induction n as [| n IH]; intros Hi; [lia |].
  rewrite seq_S, !map_app, !sum_R_app. simpl.
  destruct (Nat.eq_dec i n) as [-> | Hne].
  - rewrite Nat.eqb_refl.
    rewrite (sum_R_map_ext (fun j => if j =? n then x else f j) f).
    + lra.
    + intros j Hj. apply in_seq in Hj.
      destruct (j =? n) eqn:E; [apply Nat.eqb_eq in E; lia | reflexivity].
  - rewrite IH by lia.
    destruct (n =? i) eqn:E; [apply Nat.eqb_eq in E; lia | lra].
Qed.

(** Writing values that depend on the position only. *)
Lemma fold_set2_fun {A B : Type} (n k : nat) (d : A) (key : B -> nat * nat)
    (val : nat * nat -> A) (l : list B) (m : list (list A)) :
  rect n k m ->
  (forall b, In b l -> fst (key b) < n /\ snd (key b) < k) ->
  let m' := fold_left (fun acc b => set2 acc (fst (key b)) (snd (key b)) (val (key b))) l m in
  rect n k m' /\
  forall i j, (In (i, j) (map key l) -> get2 d m' i j = val (i, j)) /\
              (~ In (i, j) (map key l) -> get2 d m' i j = get2 d m i j).
Proof.
  revert m. induction l as [| b l IH]; intros m Hr Hb; simpl.
  - split; [assumption |]. intros i j. split; [tauto | reflexivity].
  - assert (Hr' : rect n k (set2 m (fst (key b)) (snd (key b)) (val (key b))))
      by now apply rect_set2.
    destruct (IH _ Hr') as [Hr'' Hget].
    { intros b' Hb'. apply Hb. now right. }
    split; [assumption |]. intros i j. destruct (Hget i j) as [Hin Hout]. split.
    + intros [Heq | Hp]; [| now apply Hin].
      destruct (in_dec (fun p q : nat * nat =>
                  ltac:(decide equality; apply Nat.eq_dec) : {p = q} + {p <> q})
                  (i, j) (map key l)) as [Hp | Hp]; [now apply Hin |].
      rewrite Hout by assumption.
      destruct (Hb b (or_introl eq_refl)) as [Hi Hj].
      rewrite Heq in *. simpl in *.
      now apply (get2_set2_eq (val (i, j)) d Hr).
    + intros Hnin. rewrite Hout by tauto.
      apply get2_set2_neq. intros Heq. apply Hnin. left.
      rewrite <- Heq. now destruct (key b).
Qed.

Lemma force_constant_v_map (ff : ForceField) (S : nat * nat -> R) (ps : list (nat * nat)) :
  force_constant_v ff (map fst ps) (map snd ps) (map S ps)
  = map (fun p => force_constant ff (fst p) (snd p) (S p)) ps.
Proof.
  induction ps as [| p ps IH]; simpl; [reflexivity | now rewrite IH].
Qed.

Lemma superelements_map (K S : nat * nat -> R) (D : nat * nat -> list R)
    (ps : list (nat * nat)) :
  superelements (map K ps) (map S ps) (map D ps)
  = map (fun p => superelement (K p) (S p) (D p)) ps.
Proof.
  induction ps as [| p ps IH]; simpl; [reflexivity | now rewrite IH].
Qed.

Lemma assign_blocks_fold (B : nat * nat -> list (list R)) (ps : list (nat * nat))
    (h : list (list (list (list R)))) :
  assign_blocks h ps (map B ps)
  = fold_left (fun acc p => set2 acc (fst p) (snd p) (B p)) ps h.
Proof.
  revert h. induction ps as [| p ps IH]; intros h; simpl; [reflexivity | apply IH].
Qed.

Lemma bget_superelement (k s : R) (d : list R) (a b : nat) :
  a < 3 -> b < 3 ->
  bget (superelement k s d) a b = (- k / s * nth a d 0 * nth b d 0)%R.
Proof.
  intros Ha Hb. unfold bget, get2, superelement.
  rewrite (nth_tabulate _ [] Ha). now rewrite (nth_tabulate _ 0%R Hb).
Qed.

Lemma bget_zero_block (a b : nat) : bget zero_block a b = 0%R.
Proof.
  unfold bget, get2, zero_block.
  destruct a as [| [| [| a]]]; simpl; try (destruct a; simpl);
    destruct b as [| [| [| b]]]; simpl; try reflexivity; destruct b; reflexivity.
Qed.

Lemma bget_neg_block (blk : list (list R)) (a b : nat) :
  bget (neg_block blk) a b = (- bget blk a b)%R.
Proof.
  unfold bget, get2, neg_block.
  change (@nil R) with (map Ropp []) at 1. rewrite map_nth.
  destruct (Nat.lt_ge_cases b (length (nth a blk []))) as [Hlt | Hge].
  - rewrite (nth_indep _ 0%R (- 0)%R) by now rewrite length_map.
    now rewrite map_nth.
  - rewrite !nth_overflow; rewrite ?length_map; [lra | assumption | assumption].
Qed.

Lemma get2_full {A : Type} (n k i j : nat) (d : A) : get2 d (full n k d) i j = d.
Proof.
  unfold get2, full.
  destruct (Nat.lt_ge_cases i n) as [Hlt | Hge].
  - rewrite (nth_indep _ [] (repeat d k)) by now rewrite repeat_length.
    now rewrite !nth_repeat.
  - rewrite (nth_overflow (repeat _ n)) by now rewrite repeat_length.
    now destruct j.
Qed.

Lemma bget_sum_axis0 (n j a b : nat) (h : list (list (list (list R)))) :
  length h = n -> j < n -> a < 3 -> b < 3 ->
  bget (nth j (sum_axis0 n h) zero_block) a b
  = sum_R (map (fun i => bget (get2 zero_block h i j) a b) (seq 0 n)).
Proof.
  intros Hn Hj Ha Hb. unfold sum_axis0.
  rewrite (nth_tabulate _ zero_block Hj). unfold bget at 1, get2 at 1.
  rewrite (nth_tabulate _ [] Ha), (nth_tabulate _ 0%R Hb).
  rewrite (map_seq_nth _ [] h), Hn. reflexivity.
Qed.

Lemma get2_assign_diagonal (n i j : nat) (h : list (list (list (list R))))
    (values : list (list (list R))) :
  rect n n h ->
  rect n n (assign_diagonal n h values) /\
  get2 zero_block (assign_diagonal n h values) i j
  = if (i =? j) && (i <? n) then nth i values zero_block else get2 zero_block h i j.
Proof.
  intros Hr. unfold assign_diagonal.
  destruct (fold_set2_fun zero_block (fun i : nat => (i, i))
              (fun p => nth (fst p) values zero_block) (seq 0 n) Hr) as [Hr' Hget].
  { intros b Hb. apply in_seq in Hb. simpl. lia. }
  split; [exact Hr' |].
  destruct (Hget i j) as [Hin Hout].
  destruct ((i =? j) && (i <? n)) eqn:E.
  - apply andb_prop in E. destruct E as [E1 E2].
    apply Nat.eqb_eq in E1. apply Nat.ltb_lt in E2. subst j.
    apply Hin. apply in_map_iff. exists i. split; [reflexivity | apply in_seq; lia].
  - apply Hout. intros Hc. apply in_map_iff in Hc. destruct Hc as (q & Hq & Hqin).
    inversion Hq; subst. apply in_seq in Hqin.
    rewrite Nat.eqb_refl in E. simpl in E. apply Nat.ltb_ge in E. lia.
Qed.

(** The entries of the flat matrix are those of the superelements:
    [H[3i+a][3j+b] = h[i][j][a][b]]. *)
Lemma entry_flatten_superelements (n i j a b : nat) (h : list (list (list (list R)))) :
  rect n n h -> i < n -> j < n -> a < 3 -> b < 3 ->
  entry (flatten_superelements n h) (i * 3 + a) (j * 3 + b)
  = bget (get2 zero_block h i j) a b.
Proof.
  intros Hr Hi Hj Ha Hb. pose proof Hr as [Hn Hk]. rewrite Forall_forall in Hk.
  unfold entry, flatten_superelements. simpl shape. simpl data. simpl (nth 1 _ 0).
  set (hrow := fun (a : nat) (row : list (list (list R))) =>
                 concat (map (fun blk => tabulate 3 (fun b => bget blk a b)) row)).
  set (g := fun row : list (list (list R)) => tabulate 3 (fun a => hrow a row)).
  assert (Hlen_hrow : forall a' row, In row h -> length (hrow a' row) = n * 3).
  { intros a' row Hin. unfold hrow.
    rewrite (length_concat_uniform (k := 3)).
    - rewrite length_map. now rewrite (Hk row Hin).
    - rewrite Forall_forall. intros r Hr0. apply in_map_iff in Hr0.
      destruct Hr0 as (blk & <- & _). apply length_tabulate. }
  assert (Hg3 : Forall (fun r => length r = 3) (map g h)).
  { rewrite Forall_forall. intros r Hr0. apply in_map_iff in Hr0.
    destruct Hr0 as (row & <- & _). apply length_tabulate. }
  assert (Hrows : Forall (fun r => length r = n * 3) (concat (map g h))).
  { rewrite Forall_forall. intros r Hr0. apply in_concat in Hr0.
    destruct Hr0 as (rs & Hrs & Hin). apply in_map_iff in Hrs.
    destruct Hrs as (row & <- & Hrow). unfold g, tabulate in Hin.
    apply in_map_iff in Hin. destruct Hin as (a' & <- & _). now apply Hlen_hrow. }
  rewrite (nth_concat_uniform 0%R Hrows).
  - rewrite (nth_concat_uniform [] Hg3) by (rewrite ?length_map; lia).
    rewrite (nth_indep _ [] (g [])) by (rewrite length_map; lia).
    rewrite map_nth. unfold g at 1. rewrite (nth_tabulate _ [] Ha). unfold hrow.
    rewrite (nth_concat_uniform (k := 3) 0%R).
    + set (t := fun blk : list (list R) => tabulate 3 (fun b0 => bget blk a b0)).
      rewrite (nth_indep _ [] (t zero_block))
        by (rewrite length_map, (Hk (nth i h [])); [lia | apply nth_In; lia]).
      rewrite map_nth. unfold t. now rewrite (nth_tabulate _ 0%R Hb).
    + rewrite Forall_forall. intros r Hr0. apply in_map_iff in Hr0.
      destruct Hr0 as (blk & <- & _). apply length_tabulate.
    + rewrite length_map, (Hk (nth i h [])); [lia | apply nth_In; lia].
    + assumption.
  - rewrite (length_concat_uniform Hg3), length_map. lia.
  - lia.
Qed.

Lemma pair_eq_dec (p q : nat * nat) : {p = q} + {p <> q}.
Proof. decide equality; apply Nat.eq_dec. Qed.

Section HessianAssembly.

Variable n : nat.
Variable ff : ForceField.
Variable pairs : list (nat * nat).
(** The displacement attached to each pair. *)
Variable D : nat * nat -> list R.

Hypothesis pairs_bounded : forall p, In p pairs -> fst p < n /\ snd p < n.
Hypothesis pairs_symmetric : forall i j, In (i, j) pairs -> In (j, i) pairs.
Hypothesis pairs_irreflexive : forall i, ~ In (i, i) pairs.
Hypothesis force_constant_symmetric :
  forall i j d, force_constant ff i j d = force_constant ff j i d.
Hypothesis D_antisymmetric :
  forall i j a, In (i, j) pairs -> nth a (D (j, i)) 0%R = (- nth a (D (i, j)) 0)%R.
Hypothesis sq_dist_symmetric :
  forall i j, In (i, j) pairs -> sum_sq (D (j, i)) = sum_sq (D (i, j)).

(** The superelement written for one pair. *)
Let B (p : nat * nat) : list (list R) :=
  superelement (force_constant ff (fst p) (snd p) (sum_sq (D p))) (sum_sq (D p)) (D p).

(** The tensor after the off-diagonal assignment, and after the diagonal
    assignment. *)
Let h1 : list (list (list (list R))) :=
  assign_blocks (full n n zero_block) pairs
    (superelements
       (force_constant_v ff (map fst pairs) (map snd pairs)
          (map (fun p => sum_sq (D p)) pairs))
       (map (fun p => sum_sq (D p)) pairs) (map D pairs)).

Let h2 : list (list (list (list R))) :=
  assign_diagonal n h1 (map neg_block (sum_axis0 n h1)).

Let W (i j a b : nat) : R := bget (get2 zero_block h1 i j) a b.

Lemma h1_spec :
  rect n n h1 /\
  forall i j, (In (i, j) pairs -> get2 zero_block h1 i j = B (i, j)) /\
              (~ In (i, j) pairs -> get2 zero_block h1 i j = zero_block).
Proof.
  unfold h1. rewrite force_constant_v_map.
  rewrite (superelements_map
             (fun p => force_constant ff (fst p) (snd p) (sum_sq (D p)))
             (fun p => sum_sq (D p)) D).
  fold B. rewrite (assign_blocks_fold B).
  destruct (fold_set2_fun zero_block (fun p : nat * nat => p) B pairs
              (rect_full n n zero_block) pairs_bounded) as [Hr Hget].
  rewrite map_id in Hget.
  split; [exact Hr |]. intros i j. destruct (Hget i j) as [Hin Hout].
  split; [exact Hin |]. intros Hn. rewrite (Hout Hn). apply get2_full.
Qed.

Lemma W_in (i j a b : nat) :
  In (i, j) pairs -> a < 3 -> b < 3 ->
  W i j a b = (- force_constant ff i j (sum_sq (D (i, j))) / sum_sq (D (i, j))
               * nth a (D (i, j)) 0 * nth b (D (i, j)) 0)%R.
Proof.
  intros Hin Ha Hb. unfold W. destruct h1_spec as [_ Hget].
  rewrite (proj1 (Hget i j) Hin). unfold B. now rewrite bget_superelement.
Qed.

Lemma W_out (i j a b : nat) : ~ In (i, j) pairs -> W i j a b = 0%R.
Proof.
  intros Hn. unfold W. destruct h1_spec as [_ Hget].
  rewrite (proj2 (Hget i j) Hn). apply bget_zero_block.
Qed.

Lemma W_transpose (i j a b : nat) : a < 3 -> b < 3 -> W i j a b = W i j b a.
Proof.
  intros Ha Hb. destruct (in_dec pair_eq_dec (i, j) pairs) as [Hin | Hn].
  - rewrite !W_in by assumption. ring.
  - now rewrite !W_out.
Qed.

Lemma W_swap (i j a b : nat) : a < 3 -> b < 3 -> W i j a b = W j i a b.
Proof.
  intros Ha Hb. destruct (in_dec pair_eq_dec (i, j) pairs) as [Hin | Hn].
  - rewrite (@W_in i j a b Hin Ha Hb), (@W_in j i a b (pairs_symmetric i j Hin) Ha Hb).
    rewrite (sq_dist_symmetric i j Hin), !(D_antisymmetric i j _ Hin).
    rewrite (force_constant_symmetric j i). ring.
  - rewrite (@W_out i j a b Hn). symmetry. apply W_out.
    intros Hc. apply Hn. now apply pairs_symmetric.
Qed.

Lemma h2_spec (i j a b : nat) :
  i < n -> j < n -> a < 3 -> b < 3 ->
  rect n n h2 /\
  bget (get2 zero_block h2 i j) a b
  = if i =? j then (- sum_R (map (fun k => W k i a b) (seq 0 n)))%R else W i j a b.
Proof.
  intros Hi Hj Ha Hb. destruct h1_spec as [Hr _].
  destruct (get2_assign_diagonal i j (map neg_block (sum_axis0 n h1)) Hr) as [Hr2 Hget].
  split; [exact Hr2 |]. fold h2 in Hget. rewrite Hget.
  destruct (i =? j) eqn:E; simpl.
  - apply Nat.ltb_lt in Hi. rewrite Hi. apply Nat.ltb_lt in Hi.
    rewrite (nth_indep _ zero_block (neg_block zero_block))
      by (unfold sum_axis0; now rewrite length_map, length_tabulate).
    rewrite map_nth, bget_neg_block.
    rewrite (bget_sum_axis0 h1 (proj1 Hr) Hi Ha Hb). reflexivity.
  - reflexivity.
Qed.

(** The assembled matrix, as [compute_hessian] returns it for these
    pairs. *)
Let H : ndarray :=
  assemble_hessian n ff pairs (map D pairs) (map (fun p => sum_sq (D p)) pairs).

Lemma assembled_entry (i j a b : nat) :
  i < n -> j < n -> a < 3 -> b < 3 ->
  entry H (i * 3 + a) (j * 3 + b)
  = if i =? j then (- sum_R (map (fun k => W k i a b) (seq 0 n)))%R else W i j a b.
Proof.
  intros Hi Hj Ha Hb. destruct (h2_spec Hi Hj Ha Hb) as [Hr Hget].
  change H with (flatten_superelements n h2).
  now rewrite (entry_flatten_superelements Hr Hi Hj Ha Hb).
Qed.

Lemma assembled_symmetric (r c : nat) :
  r < n * 3 -> c < n * 3 -> entry H r c = entry H c r.
Proof.
  intros Hr Hc.
  rewrite (Nat.div_mod_eq r 3), (Nat.div_mod_eq c 3).
  rewrite !(Nat.mul_comm 3).
  assert (Hi : r / 3 < n) by (apply Nat.Div0.div_lt_upper_bound; lia).
  assert (Hj : c / 3 < n) by (apply Nat.Div0.div_lt_upper_bound; lia).
  assert (Ha : r mod 3 < 3) by (apply Nat.mod_upper_bound; lia).
  assert (Hb : c mod 3 < 3) by (apply Nat.mod_upper_bound; lia).
  rewrite !assembled_entry by assumption.
  rewrite (Nat.eqb_sym (c / 3)).
  destruct (r / 3 =? c / 3) eqn:E.
  - apply Nat.eqb_eq in E. rewrite E. f_equal.
    apply sum_R_map_ext. intros k _. now apply W_transpose.
  - rewrite (W_swap (r / 3) (c / 3)) by assumption. now apply W_transpose.
Qed.

Lemma assembled_row_block_sum (i a b : nat) :
  i < n -> a < 3 -> b < 3 ->
  sum_R (map (fun j => entry H (i * 3 + a) (j * 3 + b)) (seq 0 n)) = 0%R.
Proof.
  intros Hi Ha Hb.
  rewrite (sum_R_map_ext _
             (fun j => if j =? i
                       then (- sum_R (map (fun k => W k i a b) (seq 0 n)))%R
                       else W i j a b)).
  - rewrite sum_R_replace by assumption.
    rewrite (@W_out i i a b (pairs_irreflexive i)).
    rewrite (sum_R_map_ext (fun k => W k i a b) (fun k => W i k a b)).
    + lra.
    + intros k _. now apply W_swap.
  - intros j Hj. apply in_seq in Hj. rewrite assembled_entry by (assumption || lia).
    now rewrite (Nat.eqb_sym i j).
Qed.

End HessianAssembly.

Lemma nth_vsub_antisym (u v : list R) (a : nat) :
  nth a (vsub u v) 0%R = (- nth a (vsub v u) 0)%R.
Proof.
  revert v a. induction u as [| x u IH]; intros [| y v] [| a]; simpl; try lra.
  apply IH.
Qed.

Lemma sum_sq_vsub_sym (u v : list R) : sum_sq (vsub u v) = sum_sq (vsub v u).
Proof.
  unfold sum_sq. revert v. induction u as [| x u IH]; intros [| y v]; simpl; try reflexivity.
  rewrite IH. ring.
Qed.

Lemma nth_enumerate_map {A B : Type} (f : nat * A -> B) (d : A) (db : B) (i : nat)
    (m : list A) :
  i < length m ->
  nth i (map f (combine (seq 0 (length m)) m)) db = f (i, nth i m d).
Proof.
  intros Hi.
  rewrite (nth_indep _ db (f (0, d)))
    by (rewrite length_map, length_combine, length_seq; lia).
  rewrite map_nth, combine_nth by now rewrite length_seq.
  now rewrite seq_nth.
Qed.

Lemma get2_fill_diagonal {A : Type} (n i j : nat) (x d : A) (m : list (list A)) :
  rect n n m -> i < n -> j < n ->
  get2 d (fill_diagonal m x) i j = if i =? j then x else get2 d m i j.
Proof.
  intros Hr Hi Hj. pose proof Hr as [Hn Hk]. unfold get2, fill_diagonal.
  rewrite (nth_enumerate_map _ [] []) by lia. simpl.
  destruct (i =? j) eqn:E.
  - apply Nat.eqb_eq in E. subst j. apply nth_set_nth_eq. now rewrite (rect_nth Hr Hi).
  - apply Nat.eqb_neq in E. now apply nth_set_nth_neq.
Qed.

(** Without overrides the pairs are the off-diagonal true entries of the
    adjacency matrix. *)
Lemma where_fill_diagonal (n i j : nat) (adj : list (list bool)) :
  rect n n adj ->
  In (i, j) (where_ (fill_diagonal adj false)) <->
  i < n /\ j < n /\ i <> j /\ get2 false adj i j = true.
Proof.
  intros Hr. pose proof (rect_fill_diagonal false Hr) as Hr'.
  rewrite where_spec. destruct Hr' as [Hn' Hk']. rewrite Hn'. split.
  - intros (Hi & Hj & Hg). rewrite (rect_nth (conj Hn' Hk') Hi) in Hj.
    rewrite (get2_fill_diagonal false false Hr Hi Hj) in Hg.
    destruct (i =? j) eqn:E; [discriminate |]. apply Nat.eqb_neq in E. tauto.
  - intros (Hi & Hj & Hne & Hg). rewrite (rect_nth (conj Hn' Hk') Hi).
    rewrite (get2_fill_diagonal false false Hr Hi Hj).
    apply Nat.eqb_neq in Hne. rewrite Hne. tauto.
Qed.

Lemma get2_map_map {A B : Type} (f : A -> B) (d : A) (m : list (list A)) (i j : nat) :
  get2 (f d) (map (map f) m) i j = f (get2 d m i j).
Proof.
  unfold get2. change (@nil B) with (map f []). now rewrite !map_nth.
Qed.

Lemma get2_disp_matrix (xyz : list (list R)) (i j : nat) :
  i < length xyz -> j < length xyz ->
  get2 [] (map (fun ci => map (fun cj => displacement cj ci) xyz) xyz) i j
  = vsub (nth i xyz []) (nth j xyz []).
Proof.
  intros Hi Hj. unfold get2.
  set (f := fun ci : list R => map (fun cj => displacement cj ci) xyz).
  rewrite (nth_indep _ [] (f [])) by now rewrite length_map.
  rewrite map_nth. unfold f.
  set (g := fun cj : list R => displacement cj (nth i xyz [])).
  rewrite (nth_indep _ [] (g [])) by now rewrite length_map.
  now rewrite map_nth.
Qed.

Lemma get2_tabulate {A : Type} (n k i j : nat) (d : A) (f : nat -> nat -> A) :
  i < n -> j < k -> get2 d (tabulate n (fun i => tabulate k (f i))) i j = f i j.
Proof.
  intros Hi Hj. unfold get2. rewrite (nth_tabulate _ [] Hi). now apply nth_tabulate.
Qed.

Lemma get2_full_inside {A : Type} (n k i j : nat) (x d : A) :
  i < n -> j < k -> get2 d (full n k x) i j = x.
Proof.
  intros Hi Hj. unfold get2, full.
  rewrite (nth_indep _ [] (repeat x k)) by now rewrite repeat_length.
  rewrite nth_repeat.
  rewrite (nth_indep _ d x) by now rewrite repeat_length.
  apply nth_repeat.
Qed.

Lemma default_pairs_properties (n : nat) (adj : list (list bool)) :
  rect n n adj ->
  (forall i j, i < n -> j < n -> get2 false adj i j = get2 false adj j i) ->
  let pairs := where_ (fill_diagonal adj false) in
  (forall p, In p pairs -> fst p < n /\ snd p < n) /\
  (forall i j, In (i, j) pairs -> In (j, i) pairs) /\
  (forall i, ~ In (i, i) pairs).
Proof.
  intros Hr Hsym pairs. unfold pairs. split; [| split].
  - intros [i j] Hin. apply (where_fill_diagonal i j Hr) in Hin. simpl. tauto.
  - intros i j Hin. apply (where_fill_diagonal i j Hr) in Hin.
    apply (where_fill_diagonal j i Hr). destruct Hin as (Hi & Hj & Hne & Hg).
    rewrite <- (Hsym i j Hi Hj). auto.
  - intros i Hin. apply (where_fill_diagonal i i Hr) in Hin. tauto.
Qed.

(** The matrix assembled from a symmetric pair set without self-pairs,
    with the pair displacements of either resolver path. *)
Lemma assembled_from_pairs (n : nat) (ff : ForceField) (xyz : list (list R))
    (pairs : list (nat * nat)) (brute : bool) :
  length xyz = n ->
  (forall p, In p pairs -> fst p < n /\ snd p < n) ->
  (forall i j, In (i, j) pairs -> In (j, i) pairs) ->
  (forall i, ~ In (i, i) pairs) ->
  (forall i j d, force_constant ff i j d = force_constant ff j i d) ->
  let disp_matrix := map (fun ci => map (fun cj => displacement cj ci) xyz) xyz in
  let disp :=
    if brute then map (fun p => get2 [] disp_matrix (fst p) (snd p)) pairs
    else index_displacement xyz pairs in
  let sq_dist :=
    if brute
    then map (fun p => get2 0%R (map (map sum_sq) disp_matrix) (fst p) (snd p)) pairs
    else map sum_sq (index_displacement xyz pairs) in
  hessian_invariants n (assemble_hessian n ff pairs disp sq_dist).
Proof.
  intros Hlen Hb Hs Hirr Hfc disp_matrix disp sq_dist.
  set (D := fun p : nat * nat =>
              if brute then get2 [] disp_matrix (fst p) (snd p)
              else displacement (nth (fst p) xyz []) (nth (snd p) xyz [])).
  assert (Hdisp : disp = map D pairs).
  { unfold disp, D, index_displacement. now destruct brute. }
  assert (Hsq : sq_dist = map (fun p => sum_sq (D p)) pairs).
  { unfold sq_dist, D, index_displacement. destruct brute.
    - apply map_ext. intros p. change 0%R with (sum_sq []). apply get2_map_map.
    - now rewrite map_map. }
  assert (HD : forall i j a, In (i, j) pairs ->
                 nth a (D (j, i)) 0%R = (- nth a (D (i, j)) 0)%R).
  { intros i j a Hin. destruct (Hb _ Hin) as [Hi Hj]. simpl in Hi, Hj.
    unfold D. simpl. destruct brute.
    - unfold disp_matrix. rewrite !get2_disp_matrix by lia. apply nth_vsub_antisym.
    - unfold displacement. apply nth_vsub_antisym. }
  assert (HS : forall i j, In (i, j) pairs -> sum_sq (D (j, i)) = sum_sq (D (i, j))).
  { intros i j Hin. destruct (Hb _ Hin) as [Hi Hj]. simpl in Hi, Hj.
    unfold D. simpl. destruct brute.
    - unfold disp_matrix. rewrite !get2_disp_matrix by lia. apply sum_sq_vsub_sym.
    - unfold displacement. apply sum_sq_vsub_sym. }
  rewrite Hdisp, Hsq. split; [reflexivity |]. split.
  - intros r c Hrn Hcn. now apply assembled_symmetric.
  - intros i a b Hi Ha Hb'. now apply assembled_row_block_sum.
Qed.

(** The same from a symmetric adjacency matrix, cleared on its diagonal:
    the pair set of a call without overrides. *)
Lemma assembled_from_adjacency (n : nat) (ff : ForceField) (xyz : list (list R))
    (adj : list (list bool)) (brute : bool) :
  length xyz = n ->
  rect n n adj ->
  (forall i j, i < n -> j < n -> get2 false adj i j = get2 false adj j i) ->
  (forall i j d, force_constant ff i j d = force_constant ff j i d) ->
  let pairs := where_ (fill_diagonal adj false) in
  let disp_matrix := map (fun ci => map (fun cj => displacement cj ci) xyz) xyz in
  let disp :=
    if brute then map (fun p => get2 [] disp_matrix (fst p) (snd p)) pairs
    else index_displacement xyz pairs in
  let sq_dist :=
    if brute
    then map (fun p => get2 0%R (map (map sum_sq) disp_matrix) (fst p) (snd p)) pairs
    else map sum_sq (index_displacement xyz pairs) in
  hessian_invariants n (assemble_hessian n ff pairs disp sq_dist).
Proof.
  intros Hlen Hr Hsym Hfc pairs.
  destruct (default_pairs_properties Hr Hsym) as (Hb & Hs & Hirr).
  now apply assembled_from_pairs.
Qed.

Lemma get2_threshold (xyz : list (list R)) (c : R) (i j : nat) :
  i < length xyz -> j < length xyz ->
  get2 false
    (map (map (fun d => Rle_bool d (c ^ 2)))
       (map (map sum_sq)
          (map (fun ci => map (fun cj => displacement cj ci) xyz) xyz))) i j
  = Rle_bool (sum_sq (vsub (nth i xyz []) (nth j xyz []))) (c ^ 2).
Proof.
  intros Hi Hj. rewrite <- (get2_disp_matrix xyz Hi Hj).
  set (dm := map (fun ci => map (fun cj => displacement cj ci) xyz) xyz).
  set (t := fun d => Rle_bool d (c ^ 2)).
  assert (Hrow : length (nth i dm []) = length xyz).
  { unfold dm. set (f := fun ci : list R => map (fun cj => displacement cj ci) xyz).
    rewrite (nth_indep _ [] (f [])) by now rewrite length_map.
    rewrite map_nth. unfold f. now rewrite length_map. }
  unfold get2. change (@nil bool) with (map t []). rewrite map_nth.
  change (@nil R) with (map sum_sq []) at 1. rewrite map_nth.
  rewrite (nth_indep _ false (t (sum_sq []))) by (rewrite !length_map; lia).
  now rewrite !map_nth.
Qed.

Section Hessian.
Context {ext : Externals}.

Lemma patch_adjacency_matrix_rect (n : nat) (matrix matrix' : list (list bool))
    (off on : option (list (Z * Z))) :
  rect n n matrix ->
  _patch_adjacency_matrix matrix off on = Return matrix' ->
  rect n n matrix'.
Proof.
  intros Hr Hp. destruct off as [off |]; destruct on as [on |].
  - now destruct (patch_adjacency_matrix_spec off on Hr Hp).
  - unfold _patch_adjacency_matrix in Hp.
    destruct (assign_pairs matrix off false) as [m1 |] eqn:E; simpl in Hp; [| discriminate].
    injection Hp as <-. now destruct (assign_pairs_spec false false off Hr E).
  - discriminate Hp.
  - injection Hp as <-. exact Hr.
Qed.

(** The displacements and squared distances the resolver returns with its
    pairs: read from the distance matrix on the brute-force path, computed
    for the pairs otherwise. *)
Lemma prepare_values_displacements (coord : ndarray) (ff : ForceField)
    (use_cell_list : bool) (off on : option (list (Z * Z))) (pairs : list (nat * nat))
    (disp : list (list R)) (sq_dist : list R) :
  _prepare_values_for_interaction_matrix coord ff use_cell_list off on
    = Return (pairs, disp, sq_dist) ->
  let xyz := rows coord in
  let brute := match cutoff_distance ff with
               | Some _ => negb use_cell_list
               | None => false
               end in
  let disp_matrix := map (fun ci => map (fun cj => displacement cj ci) xyz) xyz in
  disp = (if brute then map (fun p => get2 [] disp_matrix (fst p) (snd p)) pairs
          else index_displacement xyz pairs) /\
  sq_dist = (if brute
             then map (fun p => get2 0%R (map (map sum_sq) disp_matrix) (fst p) (snd p))
                      pairs
             else map sum_sq (index_displacement xyz pairs)).
Proof.
  intros Hp xyz brute disp_matrix.
  unfold _prepare_values_for_interaction_matrix in Hp.
  destruct (negb (ndim coord =? 2) || negb (nth 1 (shape coord) 0 =? 3)); [discriminate |].
  destruct (match natoms ff with Some k => negb (nth 0 (shape coord) 0 =? k) | None => false end);
    [discriminate |].
  match type of Hp with
  | bind ?c _ = _ => destruct c as [adj |]; simpl in Hp; [| discriminate]
  end.
  destruct (_patch_adjacency_matrix (fill_diagonal adj false) off on) as [adj' |];
    simpl in Hp; [| discriminate].
  unfold brute. destruct (cutoff_distance ff); [destruct use_cell_list |];
    injection Hp as <- <- <-; split; reflexivity.
Qed.

(** C4 (as amended). For coordinates of shape (n,3) whose atoms are
    pairwise distinct and a force field with a symmetric force constant,
    the matrix [compute_hessian] returns is symmetric and its 3x3 blocks
    sum to the zero block along every block row
    - when it is called without overrides, as the model calls it (first
      part), and
    - with overrides, whenever the resolver's pair set holds (j,i) with
      every (i,j) and holds no self-pair (second part).
    Numbers are exact reals here; atoms are distinct because the
    superelement of a pair divides by its squared distance; the cell list,
    when it is used, is taken to return a symmetric matrix. *)
Theorem hessian_symmetric_and_translation_invariant
    (coord : ndarray) (ff : ForceField) (use_cell_list : bool) (n : nat) :
  shape coord = [n; 3] ->
  length (data coord) = n * 3 ->
  (forall i j d, force_constant ff i j d = force_constant ff j i d) ->
  (forall i j, i < n -> j < n -> i <> j ->
     nth i (rows coord) [] <> nth j (rows coord) []) ->
  ((forall k, natoms ff = Some k -> k = n) ->
   (forall c, cutoff_distance ff = Some c -> use_cell_list = true ->
      exists adj, CellList_adjacency (rows coord) c = Return adj /\
                  forall i j, i < n -> j < n -> adj i j = adj j i) ->
   exists H pairs,
     compute_hessian coord ff use_cell_list None None = Return (H, pairs) /\
     hessian_invariants n H) /\
  (forall off on pairs disp sq_dist,
     _prepare_values_for_interaction_matrix coord ff use_cell_list off on
       = Return (pairs, disp, sq_dist) ->
     (forall i j, In (i, j) pairs -> In (j, i) pairs) ->
     (forall i, ~ In (i, i) pairs) ->
     exists H,
       compute_hessian coord ff use_cell_list off on = Return (H, pairs) /\
       hessian_invariants n H).
Proof.
  intros Hsh Hdata Hfc Hdistinct.
  assert (Hxyz : length (rows coord) = n).
  { unfold rows. rewrite Hsh. simpl. apply length_chunks. }
  split.
  - intros Hnat Hcell.
    unfold compute_hessian, _prepare_values_for_interaction_matrix, len, ndim.
    rewrite Hsh. cbn [length nth Nat.eqb negb orb].
    assert (Hn : match natoms ff with Some k => negb (n =? k) | None => false end = false).
    { destruct (natoms ff) as [k |] eqn:E; [| reflexivity].
      rewrite (Hnat k eq_refl), Nat.eqb_refl. reflexivity. }
    rewrite Hn.
    destruct (cutoff_distance ff) as [c |] eqn:Ec; [destruct use_cell_list eqn:Eu |].
    + destruct (Hcell c eq_refl eq_refl) as (adj & Hadj & Hsym). rewrite Hadj.
      cbn [bind _patch_adjacency_matrix].
      eexists. eexists. split; [reflexivity |].
      apply (assembled_from_adjacency ff (rows coord) false Hxyz (rect_tabulate n n adj));
        [| exact Hfc].
      intros i j Hi Hj. rewrite !get2_tabulate by assumption. now apply Hsym.
    + cbn [bind _patch_adjacency_matrix].
      eexists. eexists. split; [reflexivity |].
      apply (assembled_from_adjacency ff (rows coord) true Hxyz); [| | exact Hfc].
      * split.
        -- rewrite !length_map. exact Hxyz.
        -- rewrite Forall_forall. intros r Hin.
           apply in_map_iff in Hin. destruct Hin as (r' & <- & Hin).
           apply in_map_iff in Hin. destruct Hin as (r'' & <- & Hin).
           apply in_map_iff in Hin. destruct Hin as (ci & <- & Hin).
           rewrite !length_map. exact Hxyz.
      * intros i j Hi Hj. rewrite !get2_threshold by lia.
        f_equal. apply sum_sq_vsub_sym.
    + cbn [bind _patch_adjacency_matrix].
      eexists. eexists. split; [reflexivity |].
      apply (assembled_from_adjacency ff (rows coord) false Hxyz (rect_full n n true));
        [| exact Hfc].
      intros i j Hi Hj. now rewrite !get2_full_inside.
  - intros off on pairs disp sq_dist Hp Hs Hirr.
    destruct (prepare_values_pairs _ _ _ _ _ Hp) as (adj & adj' & Hr & Hpatch & Hpairs).
    rewrite Hsh in Hr. simpl in Hr.
    pose proof (patch_adjacency_matrix_rect _ _ (rect_fill_diagonal false Hr) Hpatch) as Hr'.
    assert (Hb : forall p, In p pairs -> fst p < n /\ snd p < n).
    { intros [i j] Hin. rewrite Hpairs in Hin. apply where_spec in Hin.
      destruct Hin as (Hi & Hj & _). pose proof Hr' as [Hn' Hk'].
      rewrite Hn' in Hi. rewrite (rect_nth Hr' Hi) in Hj. simpl. lia. }
    destruct (prepare_values_displacements _ _ _ _ _ Hp) as [Hdisp Hsq].
    unfold compute_hessian, len. rewrite Hp, Hsh. cbn [bind].
    eexists. split; [reflexivity |].
    rewrite Hdisp, Hsq. now apply assembled_from_pairs.
Qed.

End Hessian.

(** ** Normal modes: the sampled amplitude *)

Lemma Rmax_list_nonneg (l : list R) : (0 <= fold_right Rmax 0 l)%R.
Proof.
  induction l as [| x l IH]; simpl; [lra |].
  eapply Rle_trans; [exact IH | apply Rmax_r].
Qed.

Lemma Rmax_list_app (l1 l2 : list R) :
  fold_right Rmax 0%R (l1 ++ l2)
  = Rmax (fold_right Rmax 0%R l1) (fold_right Rmax 0%R l2).
Proof.
  induction l1 as [| x l1 IH]; simpl.
  - symmetry. apply Rmax_right. apply Rmax_list_nonneg.
  - rewrite IH. now rewrite Rmax_assoc.
Qed.

Lemma Rmax_list_scale (c : R) (l : list R) :
  (0 <= c)%R ->
  fold_right Rmax 0%R (map (fun x => (c * x)%R) l) = (c * fold_right Rmax 0 l)%R.
Proof.
  intros Hc. induction l as [| x l IH]; simpl; [lra |].
  rewrite IH. now apply RmaxRmult.
Qed.

Lemma fold_left_Rmax (l : list R) (a : R) :
  (0 <= a)%R -> fold_left Rmax l a = Rmax a (fold_right Rmax 0%R l).
Proof.
  revert a. induction l as [| x l IH]; intros a Ha; simpl.
  - symmetry. now apply Rmax_left.
  - rewrite IH.
    + now rewrite Rmax_assoc.
    + eapply Rle_trans; [exact Ha | apply Rmax_l].
Qed.

(** [np.max] of a non-empty array of magnitudes is their maximum. *)
Lemma np_max_lengths (vs : list (list R)) (m : R) :
  NpOps.max (vector_lengths vs) = Return m ->
  m = fold_right Rmax 0%R (vector_lengths vs).
Proof.
  unfold NpOps.max. destruct (vector_lengths vs) as [| x rest] eqn:E; [discriminate |].
  intros Hm. injection Hm as <-. simpl. apply fold_left_Rmax.
  destruct vs as [| v vs']; [discriminate |]. simpl in E. injection E as <- _.
  apply sqrt_pos.
Qed.

Lemma sum_squares_scale (c : R) (v : list R) :
  sum_R (map (fun x => (x ^ 2)%R) (map (fun x => (c * x)%R) v))
  = (c² * sum_R (map (fun x => (x ^ 2)%R) v))%R.
Proof.
  unfold sum_R. induction v as [| x v IH]; cbn [map fold_right]; [unfold Rsqr; lra |].
  rewrite IH. unfold Rsqr. ring.
Qed.

Lemma vector_lengths_scale (c : R) (vs : list (list R)) :
  vector_lengths (map (map (fun x => (c * x)%R)) vs)
  = map (fun l => (Rabs c * l)%R) (vector_lengths vs).
Proof.
  unfold vector_lengths. rewrite !map_map. apply map_ext. intros v. cbv beta.
  rewrite sum_squares_scale.
  rewrite sqrt_mult_alt by apply Rle_0_sqr.
  now rewrite sqrt_Rsqr_abs.
Qed.

(** The largest magnitude over the frames [d * mode_vectors]. *)
Lemma max_displacement_frames (ds : list R) (mode_vectors : list (list R)) :
  max_displacement (map (fun d => map (map (fun x => (d * x)%R)) mode_vectors) ds)
  = (fold_right Rmax 0 (vector_lengths mode_vectors)
     * fold_right Rmax 0 (map Rabs ds))%R.
Proof.
  unfold max_displacement. induction ds as [| d ds IH]; simpl; [lra |].
  rewrite Rmax_list_app, IH, vector_lengths_scale.
  rewrite Rmax_list_scale by apply Rabs_pos.
  rewrite (Rmult_comm (Rabs d)).
  apply RmaxRmult. apply Rmax_list_nonneg.
Qed.

Lemma sin_fifths_ordered : (0 < sin (PI / 5) <= sin (2 * PI / 5))%R.
Proof.
  pose proof PI_RGT_0 as Hpi. split.
  - apply sin_gt_0; lra.
  - apply sin_incr_1; lra.
Qed.

(** The ten samples of [sine] at [k / 10]: their magnitudes are 0,
    [sin (PI/5)] and [sin (2 PI/5)]. *)
Lemma sine_samples :
  map Rabs (map sine (tabulate 10 (fun k => (INR k * (1 / IZR 10) + 0)%R)))
  = [0; sin (PI / 5); sin (2 * PI / 5); sin (2 * PI / 5); sin (PI / 5);
     0; sin (PI / 5); sin (2 * PI / 5); sin (2 * PI / 5); sin (PI / 5)]%R.
Proof.
  destruct sin_fifths_ordered as [H1 H2].
  assert (H2' : (0 < sin (2 * PI / 5))%R) by lra.
  unfold tabulate, sine. cbn [seq map INR].
  repeat match goal with
         | |- _ :: _ = _ :: _ => apply (f_equal2 cons)
         end; try reflexivity.
  - replace ((0 * (1 / 10) + 0) * 2 * PI)%R with 0%R by field.
    rewrite sin_0. apply Rabs_R0.
  - replace ((1 * (1 / 10) + 0) * 2 * PI)%R with (PI / 5)%R by field.
    apply Rabs_pos_eq. lra.
  - replace (((1 + 1) * (1 / 10) + 0) * 2 * PI)%R with (2 * PI / 5)%R by field.
    apply Rabs_pos_eq. lra.
  - replace (((1 + 1 + 1) * (1 / 10) + 0) * 2 * PI)%R with (PI - 2 * PI / 5)%R by field.
    rewrite sin_PI_x. apply Rabs_pos_eq. lra.
  - replace (((1 + 1 + 1 + 1) * (1 / 10) + 0) * 2 * PI)%R with (PI - PI / 5)%R by field.
    rewrite sin_PI_x. apply Rabs_pos_eq. lra.
  - replace (((1 + 1 + 1 + 1 + 1) * (1 / 10) + 0) * 2 * PI)%R with PI by field.
    rewrite sin_PI. apply Rabs_R0.
  - replace (((1 + 1 + 1 + 1 + 1 + 1) * (1 / 10) + 0) * 2 * PI)%R
      with (PI / 5 + PI)%R by field.
    rewrite neg_sin, Rabs_Ropp. apply Rabs_pos_eq. lra.
  - replace (((1 + 1 + 1 + 1 + 1 + 1 + 1) * (1 / 10) + 0) * 2 * PI)%R
      with (2 * PI / 5 + PI)%R by field.
    rewrite neg_sin, Rabs_Ropp. apply Rabs_pos_eq. lra.
  - replace (((1 + 1 + 1 + 1 + 1 + 1 + 1 + 1) * (1 / 10) + 0) * 2 * PI)%R
      with (PI - 2 * PI / 5 + PI)%R by field.
    rewrite neg_sin, sin_PI_x, Rabs_Ropp. apply Rabs_pos_eq. lra.
  - replace (((1 + 1 + 1 + 1 + 1 + 1 + 1 + 1 + 1) * (1 / 10) + 0) * 2 * PI)%R
      with (PI - PI / 5 + PI)%R by field.
    rewrite neg_sin, sin_PI_x, Rabs_Ropp. apply Rabs_pos_eq. lra.
Qed.

Lemma Rmax_list_le (l : list R) (M : R) :
  (0 <= M)%R -> (forall x, In x l -> (x <= M)%R) -> (fold_right Rmax 0 l <= M)%R.
Proof.
  intros HM. induction l as [| x l IH]; simpl; intros Hall; [exact HM |].
  apply Rmax_lub; [apply Hall; now left | apply IH; intros y Hy; apply Hall; now right].
Qed.

Lemma Rmax_list_ge (l : list R) (x : R) :
  In x l -> (x <= fold_right Rmax 0 l)%R.
Proof.
  induction l as [| y l IH]; simpl; intros Hin; [contradiction |].
  destruct Hin as [-> | Hin]; [apply Rmax_l |].
  eapply Rle_trans; [apply IH, Hin | apply Rmax_r].
Qed.

Lemma sine_samples_max :
  fold_right Rmax 0%R
    (map Rabs (map sine (tabulate 10 (fun k => (INR k * (1 / IZR 10) + 0)%R))))
  = sin (2 * PI / 5).
Proof.
  rewrite sine_samples. destruct sin_fifths_ordered as [H1 H2].
  apply Rle_antisym.
  - apply Rmax_list_le; [lra |].
    intros x Hx. simpl in Hx. repeat destruct Hx as [<- | Hx]; try lra.
  - apply Rmax_list_ge. simpl. tauto.
Qed.

(** [s = sin (2 PI/5)] is a root of [16 s^4 - 20 s^2 + 5], since
    [sin (5 x) = 0] at [x = 2 PI/5]. *)
Lemma sin_two_fifths_root :
  let s := sin (2 * PI / 5) in
  (16 * (s * s) * (s * s) - 20 * (s * s) + 5 = 0)%R.
Proof.
  set (x := (2 * PI / 5)%R). set (s := sin x). set (c := cos x). cbv zeta.
  assert (Hcc : (c * c = 1 - s * s)%R).
  { pose proof (sin2_cos2 x) as H. unfold Rsqr in H. fold s c in H. lra. }
  assert (H5 : sin (2 * (2 * x) + x) = 0%R).
  { replace (2 * (2 * x) + x)%R with (2 * PI)%R by (unfold x; field). apply sin_2PI. }
  rewrite sin_plus, (sin_2a (2 * x)), (cos_2a (2 * x)), (sin_2a x), (cos_2a x) in H5.
  fold s c in H5.
  assert (H5' : (4 * s * (c * c) * (c * c - s * s)
                 + ((c * c - s * s) * (c * c - s * s) - 4 * (s * s) * (c * c)) * s = 0)%R)
    by (rewrite <- H5; ring).
  rewrite Hcc in H5'.
  assert (Hfact : (s * (16 * (s * s) * (s * s) - 20 * (s * s) + 5) = 0)%R)
    by (rewrite <- H5'; ring).
  assert (Hs : (0 < s)%R).
  { pose proof PI_RGT_0. apply sin_gt_0; unfold x; lra. }
  apply Rmult_integral in Hfact. destruct Hfact; lra.
Qed.

Lemma sin_two_fifths_bounds : (0.95 < sin (2 * PI / 5) < 0.96)%R.
Proof.
  pose proof sin_two_fifths_root as Hroot. cbv zeta in Hroot.
  set (s := sin (2 * PI / 5)) in *.
  pose proof PI_RGT_0 as Hpi.
  assert (Hs : (0 < s)%R) by (apply sin_gt_0; lra).
  assert (Hhalf : (1 / 2 < s * s)%R).
  { assert (Hq : (sin (PI / 4) < s)%R) by (apply sin_increasing_1; lra).
    rewrite sin_PI4 in Hq.
    assert (Hsq : (0 < sqrt 2)%R) by (apply sqrt_lt_R0; lra).
    assert (H2 : (sqrt 2 * sqrt 2 = 2)%R) by (apply sqrt_sqrt; lra).
    assert (Hinv : (1 / sqrt 2 * (1 / sqrt 2) = 1 / 2)%R) by (field_simplify_eq; lra).
    assert (Hpos : (0 < 1 / sqrt 2)%R) by (apply Rdiv_lt_0_compat; lra).
    nra. }
  set (u := (s * s)%R) in *.
  split.
  - destruct (Rlt_le_dec 0.95 s) as [H | H]; [exact H | exfalso].
    assert (Hu : (u <= 0.9025)%R) by (unfold u; nra).
    assert (Hp : (0 <= (u - 1 / 2) * (0.9025 - u))%R) by (apply Rmult_le_pos; lra).
    nra.
  - destruct (Rlt_le_dec s 0.96) as [H | H]; [exact H | exfalso].
    assert (Hu : (0.9216 <= u)%R) by (unfold u; nra).
    assert (Hp : (0 <= (u - 0.9216) * (u - 0.35))%R) by (apply Rmult_le_pos; lra).
    nra.
Qed.

Section NormalMode.
Context {ext : Externals}.

(** What [normal_mode] returns with ten frames of the sine waveform, once
    the eigenvector has been selected and reshaped and its largest row
    length [m] is not zero: the frames are the rescaled mode vectors times
    the samples of the sine, and their largest magnitude is the amplitude
    times the largest sample. *)
Lemma normal_mode_sine_ten_frames (s s' : ANM) (d : nat) (index : Z) (amplitude m : R)
    (eig_values eigenvectors row mode : ndarray) :
  eigen d s = (Return (eig_values, eigenvectors), s') ->
  NpOps.getitem eigenvectors index = Return row ->
  NpOps.reshape_rows3 row = Return mode ->
  NpOps.max (vector_lengths (rows mode)) = Return m ->
  (0 < m)%R ->
  (0 <= amplitude)%R ->
  exists disp,
    normal_mode d index amplitude 10 "sine" s = (Return disp, s') /\
    max_displacement disp = (amplitude * sin (2 * PI / 5))%R.
Proof.
  intros Heig Hrow Hmode Hmax Hm Ha.
  eexists. split.
  - unfold normal_mode, mbind, lift, ret. rewrite Heig. cbn [snd].
    rewrite Hrow, Hmode, Hmax. cbn [NpOps.linspace01 Z.ltb Z.compare String.eqb].
    reflexivity.
  - rewrite max_displacement_frames.
    change (Z.to_nat 10) with 10. rewrite sine_samples_max.
    replace (map (map (fun x => (x * (amplitude / m))%R)) (rows mode))
      with (map (map (fun x => (amplitude / m * x)%R)) (rows mode)).
    + rewrite vector_lengths_scale, Rmax_list_scale by apply Rabs_pos.
      rewrite <- (np_max_lengths _ Hmax).
      rewrite Rabs_pos_eq by (apply Rmult_le_pos; [lra | left; now apply Rinv_0_lt_compat]).
      field. lra.
    + apply map_ext. intros v. apply map_ext. intros x. ring.
Qed.

(** C6 (as amended). With ten frames of the sine waveform and a selected
    eigenvector that is not zero, the largest per-atom displacement
    magnitude over the frames of [normal_mode] is the amplitude times
    [sin (2 PI/5)], between 0.95 and 0.96 of the amplitude: the frames
    sample the oscillation at multiples of a tenth of the period, none of
    which is a quarter period. *)
Theorem normal_mode_sampled_maximum (s s' : ANM) (d : nat) (index : Z) (m : R)
    (eig_values eigenvectors row mode : ndarray) :
  eigen d s = (Return (eig_values, eigenvectors), s') ->
  NpOps.getitem eigenvectors index = Return row ->
  NpOps.reshape_rows3 row = Return mode ->
  NpOps.max (vector_lengths (rows mode)) = Return m ->
  (0 < m)%R ->
  exists disp,
    normal_mode d index 1 10 "sine" s = (Return disp, s') /\
    max_displacement disp = sin (2 * PI / 5) /\
    (0.95 < max_displacement disp < 0.96)%R.
Proof.
  intros Heig Hrow Hmode Hmax Hm.
  destruct (@normal_mode_sine_ten_frames s s' d index 1 m eig_values eigenvectors row mode
              Heig Hrow Hmode Hmax Hm Rle_0_1) as (disp & Hrun & Hval).
  exists disp. rewrite Rmult_1_l in Hval. rewrite Hval.
  split; [exact Hrun |]. split; [reflexivity | exact sin_two_fifths_bounds].
Qed.

End NormalMode.

(** ** Model state: setters *)

Section ModelState.
Context {ext : Externals}.

Lemma check_shape_ok (value : ndarray) (s : ANM) (n : nat) :
  len (_coord s) = Return n ->
  shape value = [n * 3; n * 3] ->
  check_shape value s = (Return tt, s).
Proof.
  intros Hlen Hsh. unfold check_shape, mbind, get, lift, expected_shape.
  rewrite Hlen. simpl. unfold shape_eqb.
  destruct (list_eq_dec Nat.eq_dec (shape value) [n * 3; n * 3]); [reflexivity | contradiction].
Qed.

Lemma check_shape_mismatch (value : ndarray) (s : ANM) (n : nat) :
  len (_coord s) = Return n ->
  shape value <> [n * 3; n * 3] ->
  check_shape value s = (Raise IndexError, s).
Proof.
  intros Hlen Hsh. unfold check_shape, mbind, get, lift, expected_shape.
  rewrite Hlen. simpl. unfold shape_eqb.
  destruct (list_eq_dec Nat.eq_dec (shape value) [n * 3; n * 3]); [contradiction | reflexivity].
Qed.

(** What the class finally binds to each name: [hessian_mw] carries the
    getter of [covariance_mw] and the setter of lines 163-174;
    [covariance_mw] has no setter. *)
Lemma class_ANM_bindings :
  lookup class_ANM mass_weights = Some (mk_property (Some mass_weights_fget) (Some mass_weights_fset)) /\
  lookup class_ANM hessian = Some (mk_property (Some hessian_fget) (Some hessian_fset)) /\
  lookup class_ANM hessian_mw = Some (mk_property (Some covariance_mw_fget) (Some covariance_mw_fset)) /\
  lookup class_ANM covariance = Some (mk_property (Some covariance_fget) (Some covariance_fset)) /\
  lookup class_ANM covariance_mw = Some (mk_property (Some covariance_mw_fget) None).
Proof. repeat split. Qed.

Lemma setattr_unfold (name : attr) (value : ndarray) :
  setattr name value =
  match name with
  | mass_weights => mass_weights_fset value
  | hessian => hessian_fset value
  | hessian_mw => covariance_mw_fset value
  | covariance => covariance_fset value
  | covariance_mw => raise AttributeError
  end.
Proof. destruct name; reflexivity. Qed.

Lemma getattr_unfold (d : nat) (name : attr) :
  getattr (S d) name =
  match name with
  | mass_weights => mass_weights_fget (getattr d)
  | hessian => hessian_fget (getattr d)
  | hessian_mw => covariance_mw_fget (getattr d)
  | covariance => covariance_fget (getattr d)
  | covariance_mw => covariance_mw_fget (getattr d)
  end.
Proof. destruct name; reflexivity. Qed.

Lemma mass_weights_setter_rejects (value : ndarray) (s : ANM) (n : nat) :
  len (_coord s) = Return n ->
  shape value <> [n * 3; n * 3] ->
  setattr mass_weights value s = (Raise IndexError, s).
Proof.
  intros Hlen Hsh. rewrite setattr_unfold.
  unfold mass_weights_fset, mbind.
  now rewrite (check_shape_mismatch value s Hlen Hsh).
Qed.

(** C10. Every assignment to a property of the model is atomic on failure:
    when the assigned value's shape is not the required (3n,3n), the
    assignment raises and every field of the model is as it was before.
    ([mass_weights], [hessian], [covariance] and [hessian_mw] raise the
    shape-mismatch [IndexError] of their setter; [covariance_mw] has no
    setter and refuses every assignment.)  The same holds of each of the
    five setter bodies of the class, also the one of lines 123-134 that no
    name reaches. *)
Theorem setter_atomic_on_shape_mismatch (name : attr) (value : ndarray) (s : ANM) (n : nat) :
  len (_coord s) = Return n ->
  shape value <> [n * 3; n * 3] ->
  setattr name value s =
    (Raise (match name with covariance_mw => AttributeError | _ => IndexError end), s) /\
  forall f : setter,
    In f [mass_weights_fset; hessian_fset; hessian_mw_fset; covariance_fset;
          covariance_mw_fset] ->
    f value s = (Raise IndexError, s).
Proof.
  intros Hlen Hsh. split.
  - rewrite setattr_unfold.
    destruct name;
      unfold mass_weights_fset, hessian_fset, covariance_mw_fset, covariance_fset, raise, mbind;
      try rewrite (check_shape_mismatch value s Hlen Hsh); reflexivity.
  - intros f Hf. simpl in Hf.
    repeat destruct Hf as [<- | Hf]; try contradiction;
      unfold mass_weights_fset, hessian_fset, hessian_mw_fset, covariance_fset,
        covariance_mw_fset, mbind;
      now rewrite (check_shape_mismatch value s Hlen Hsh).
Qed.

Lemma setter_ok_unfold (value : ndarray) (s : ANM) (n : nat) :
  len (_coord s) = Return n ->
  shape value = [n * 3; n * 3] ->
  setattr hessian value s = (Return tt, set_covariance None (set_hessian (Some value) s)) /\
  setattr covariance value s = (Return tt, set_hessian None (set_covariance (Some value) s)) /\
  setattr mass_weights value s =
    (Return tt, set_covariance_mw None (set_hessian_mw None (set_mass_weights (Some value) s))) /\
  setattr hessian_mw value s =
    (Return tt, set_hessian_mw None (set_mass_weights None (set_covariance_mw (Some value) s))).
Proof.
  intros Hlen Hsh. rewrite !setattr_unfold.
  unfold mass_weights_fset, hessian_fset, covariance_mw_fset, covariance_fset, mbind.
  rewrite (check_shape_ok value s Hlen Hsh). repeat split.
Qed.

(** C2 (as amended). The two setters are symmetric: assigning a (3n,3n)
    value to [covariance] stores it and clears the cached Hessian, and
    assigning a (3n,3n) value to [hessian] stores it and clears the cached
    covariance. *)
Theorem covariance_and_hessian_setters_invalidate_each_other
    (value : ndarray) (s : ANM) (n : nat) :
  len (_coord s) = Return n ->
  shape value = [n * 3; n * 3] ->
  (let s' := snd (setattr covariance value s) in
   fst (setattr covariance value s) = Return tt /\
   _covariance s' = Some value /\ _hessian s' = None) /\
  (let s' := snd (setattr hessian value s) in
   fst (setattr hessian value s) = Return tt /\
   _hessian s' = Some value /\ _covariance s' = None).
Proof.
  intros Hlen Hsh.
  destruct (setter_ok_unfold value s Hlen Hsh) as (Hh & Hc & _).
  rewrite Hh, Hc. simpl. repeat split.
Qed.

Lemma hessian_read_cached (d : nat) (s : ANM) (h : ndarray) :
  _hessian s = Some h ->
  getattr (S d) hessian s = (Return (Some h), s).
Proof.
  intros Hh. rewrite getattr_unfold.
  unfold hessian_fget, mbind, get, ret. rewrite Hh. simpl. now rewrite Hh.
Qed.

(** C5. After [model.hessian = H] with a (3n,3n) matrix [H], reading
    [model.hessian] returns [H] and leaves the model as it is, and reading
    [model.covariance] then returns the pseudo-inverse of [H], whatever
    covariance was cached before the assignment (the read fails only if
    the pseudo-inverse itself does). *)
Theorem hessian_roundtrip_then_covariance (H : ndarray) (s : ANM) (n d : nat) :
  len (_coord s) = Return n ->
  shape H = [n * 3; n * 3] ->
  let s1 := set_covariance None (set_hessian (Some H) s) in
  setattr hessian H s = (Return tt, s1) /\
  getattr (S d) hessian s1 = (Return (Some H), s1) /\
  getattr (S (S d)) covariance s1 =
    match np_linalg_pinv (Some H) with
    | Return c => (Return (Some c), set_covariance (Some c) s1)
    | Raise e => (Raise e, s1)
    end.
Proof.
  intros Hlen Hsh s1.
  destruct (setter_ok_unfold H s Hlen Hsh) as (Hh & _).
  split; [exact Hh |].
  assert (Hread : forall k, getattr (S k) hessian s1 = (Return (Some H), s1))
    by (intros k; apply hessian_read_cached; reflexivity).
  split; [apply Hread |].
  rewrite getattr_unfold. unfold covariance_fget, mbind, get, lift, modify, ret.
  cbv beta. simpl (_covariance s1). cbv iota beta. rewrite Hread.
  destruct (np_linalg_pinv (Some H)); reflexivity.
Qed.

(** C8, evaluated on the code.  The setter of lines 163-174 is decorated
    [@covariance_mw.setter] but defined under the name [hessian_mw], unlike
    every other setter of the class, so both mass-weighted names run the
    getter of [covariance_mw].  A read of either returns [None] only when a
    mass-weighted covariance is cached; whenever none is cached, as on
    every newly constructed model, the getter reads [hessian_mw], that is
    itself, and the read raises [RecursionError] for every recursion limit
    instead of returning [None].  Neither read yields a matrix or changes
    the model. *)
Theorem mass_weighted_reads_never_return_a_matrix (depth : nat) (s : ANM) :
  let result :=
    match depth, _covariance_mw s with
    | S _, Some _ => Return None
    | _, _ => Raise RecursionError
    end in
  getattr depth hessian_mw s = (result, s) /\
  getattr depth covariance_mw s = (result, s).
Proof.
  induction depth as [| d IH]; simpl.
  - split; reflexivity.
  - unfold covariance_mw_fget, mbind, get, ret, lift, modify.
    destruct (_covariance_mw s) eqn:E.
    + split; reflexivity.
    + destruct IH as [IH _]. rewrite IH.
      destruct d; split; reflexivity.
Qed.

Lemma residue_masses_length (l : list Atom) (masses : list R) :
  residue_masses l = Return masses -> length masses = length l * 3.
Proof.
  revert masses. induction l as [| a l IH]; simpl; intros masses Hm.
  - now inversion Hm.
  - destruct (struc_info_mass (res_name a)); simpl in Hm; [| discriminate].
    destruct (residue_masses l) as [ms |]; simpl in Hm; [| discriminate].
    inversion Hm. simpl. now rewrite (IH ms eq_refl).
Qed.

Lemma masses_match_coordinates (atoms : atoms_t) (masses : list R) :
  masses_of atoms = Return masses ->
  exists n, len (struc_coord atoms) = Return n /\ length masses = n * 3.
Proof.
  destruct atoms as [l | a]; simpl; intros Hm.
  - exists (length l). split; [reflexivity | now apply residue_masses_length].
  - unfold len. destruct (shape a) as [| [| k] rest]; try discriminate.
    exists 0. split; [reflexivity | now inversion Hm].
Qed.

(** C9 (as amended). The round trip fails when the getter computes the
    weights: with nothing cached it returns a one-dimensional array of
    length 3n (each residue mass three times), and assigning that array
    back raises the shape-mismatch error and changes nothing.  Once a
    (3n,3n) value has been assigned, the getter returns that value and
    assigning it back succeeds. *)
Theorem mass_weights_roundtrip (s : ANM) (d n : nat) (masses : list R) (v : ndarray) :
  _mass_weights s = None ->
  _coord s = struc_coord (_atoms s) ->
  masses_of (_atoms s) = Return masses ->
  len (_coord s) = Return n ->
  shape v = [n * 3; n * 3] ->
  let w := mk_ndarray [length masses] masses in
  let s1 := set_mass_weights (Some w) s in
  let s2 := set_covariance_mw None (set_hessian_mw None (set_mass_weights (Some v) s1)) in
  (getattr (S d) mass_weights s = (Return (Some w), s1) /\
   length masses = n * 3 /\
   setattr mass_weights w s1 = (Raise IndexError, s1)) /\
  (setattr mass_weights v s1 = (Return tt, s2) /\
   getattr (S d) mass_weights s2 = (Return (Some v), s2) /\
   setattr mass_weights v s2 = (Return tt, s2)).
Proof.
  intros Hnone Hcoord Hmasses Hlen Hsh w s1 s2.
  assert (Hlen1 : len (_coord s1) = Return n) by exact Hlen.
  assert (Hlen2 : len (_coord s2) = Return n) by exact Hlen.
  split; [split; [| split] | split; [| split]].
  - rewrite getattr_unfold.
    unfold mass_weights_fget, mbind, get, lift, modify, ret.
    rewrite Hnone, Hmasses. reflexivity.
  - destruct (masses_match_coordinates _ Hmasses) as (n' & Hn' & Hl).
    rewrite <- Hcoord, Hlen in Hn'. now inversion Hn'.
  - apply (mass_weights_setter_rejects w s1 Hlen1). discriminate.
  - now destruct (setter_ok_unfold v s1 Hlen1 Hsh) as (_ & _ & Hm & _).
  - rewrite getattr_unfold.
    unfold mass_weights_fget, mbind, get, lift, modify, ret. reflexivity.
  - destruct (setter_ok_unfold v s2 Hlen2 Hsh) as (_ & _ & Hm & _).
    rewrite Hm. reflexivity.
Qed.

Lemma shape_eqb_true (s1 s2 : list nat) : s1 = s2 -> shape_eqb s1 s2 = true.
Proof.
  intros ->. unfold shape_eqb. destruct (list_eq_dec Nat.eq_dec s2 s2); congruence.
Qed.

Lemma shape_eqb_false (s1 s2 : list nat) : s1 <> s2 -> shape_eqb s1 s2 = false.
Proof.
  intros Hne. unfold shape_eqb. destruct (list_eq_dec Nat.eq_dec s1 s2); congruence.
Qed.

(** C7. A force of shape (n,3) and its flattened (3n,) form give the same
    outcome of [linear_response] (the same displacement, the same cached
    state), and a force of any other shape or dimensionality is rejected
    with [ValueError] before the model is touched. *)
Theorem linear_response_accepts_both_layouts (s : ANM) (d n : nat) (force : ndarray) :
  len (_coord s) = Return n ->
  (shape force = [n; 3] ->
   linear_response d force s = linear_response d (flatten force) s) /\
  (ndim force = 2 -> shape force <> [n; 3] ->
   linear_response d force s = (Raise ValueError, s)) /\
  (ndim force = 1 -> shape force <> [n * 3] ->
   linear_response d force s = (Raise ValueError, s)) /\
  (ndim force <> 1 -> ndim force <> 2 ->
   linear_response d force s = (Raise ValueError, s)).
Proof.
  intros Hlen. unfold linear_response, mbind, get, lift, raise, ret, ndim.
  rewrite Hlen. repeat split.
  - intros Hsh. unfold flatten. rewrite Hsh. simpl.
    rewrite shape_eqb_true by reflexivity. rewrite Nat.eqb_refl. reflexivity.
  - intros Hnd Hsh. rewrite Hnd. simpl.
    rewrite shape_eqb_false by assumption. reflexivity.
  - intros Hnd Hsh. rewrite Hnd. simpl.
    destruct (shape force) as [| k [| k' rest]] eqn:E; try discriminate.
    simpl. destruct (k =? n * 3) eqn:Ek; [| reflexivity].
    apply Nat.eqb_eq in Ek. congruence.
  - intros H1 H2.
    destruct (length (shape force)) as [| [| [| k]]]; try congruence; reflexivity.
Qed.

End ModelState.

(** * Further properties of the code *)

(** ** Index pairs in row-major order *)

Lemma StronglySorted_app {A : Type} (R : A -> A -> Prop) (l1 l2 : list A) :
  StronglySorted R l1 -> StronglySorted R l2 ->
  (forall x y, In x l1 -> In y l2 -> R x y) ->
  StronglySorted R (l1 ++ l2).
Proof.
  intros H1 H2 H12. induction H1 as [| a l1 Hs IH Ha]; simpl; [exact H2 |].
  constructor.
  - apply IH. intros x y Hx Hy. apply H12; [now right | exact Hy].
  - apply Forall_app. split; [exact Ha |].
    rewrite Forall_forall. intros y Hy. apply H12; [now left | exact Hy].
Qed.

Lemma StronglySorted_NoDup {A : Type} (R : A -> A -> Prop) (l : list A) :
  (forall x, ~ R x x) -> StronglySorted R l -> NoDup l.
Proof.
  intros Hirr Hs. induction Hs as [| a l Hs IH Ha]; constructor; [| exact IH].
  intros Hin. rewrite Forall_forall in Ha. exact (Hirr a (Ha a Hin)).
Qed.

Lemma true_columns_from_sorted (row : list bool) (s : nat) :
  let js := map fst (filter snd (combine (seq s (length row)) row)) in
  StronglySorted lt js /\ forall j, In j js -> s <= j.
Proof.
  revert s. induction row as [| b row IH]; intros s; simpl.
  - split; [constructor | intros j []].
  - destruct (IH (S s)) as [Hs Hge]. destruct b; simpl.
    + split.
      * constructor; [exact Hs |]. rewrite Forall_forall. intros j Hj.
        specialize (Hge j Hj). lia.
      * intros j [<- | Hj]; [lia | specialize (Hge j Hj); lia].
    + split; [exact Hs |]. intros j Hj. specialize (Hge j Hj). lia.
Qed.

Lemma where_from_sorted (m : list (list bool)) (s : nat) :
  let ps := flat_map (fun ir => map (fun j => (fst ir, j)) (true_columns (snd ir)))
                     (combine (seq s (length m)) m) in
  StronglySorted pair_lt ps /\ forall p, In p ps -> s <= fst p.
Proof.
  revert s. induction m as [| row m IH]; intros s; simpl.
  - split; [constructor | intros p []].
  - destruct (IH (S s)) as [Hs Hge]. split.
    + apply StronglySorted_app; [| exact Hs |].
      * destruct (true_columns_from_sorted row 0) as [Hc _].
        fold (true_columns row) in Hc. clear -Hc.
        induction Hc as [| j js Hjs IHjs Hj]; simpl; constructor; [exact IHjs |].
        rewrite Forall_forall in *. intros p Hp. apply in_map_iff in Hp.
        destruct Hp as (j' & <- & Hj'). right. simpl. split; [reflexivity | now apply Hj].
      * intros x y Hx Hy. apply in_map_iff in Hx. destruct Hx as (j & <- & _).
        left. simpl. specialize (Hge y Hy). lia.
    + intros p Hp. apply in_app_or in Hp. destruct Hp as [Hp | Hp].
      * apply in_map_iff in Hp. destruct Hp as (j & <- & _). simpl. lia.
      * specialize (Hge p Hp). lia.
Qed.

(** [np.where] lists the positions in strictly increasing row-major order. *)
Lemma where_sorted (m : list (list bool)) : StronglySorted pair_lt (where_ m).
Proof. exact (proj1 (where_from_sorted m 0)). Qed.

(** ** Kirchhoff matrix *)

Lemma rect_ext {A : Type} (n k : nat) (d : A) (m1 m2 : list (list A)) :
  rect n k m1 -> rect n k m2 ->
  (forall i j, i < n -> j < k -> get2 d m1 i j = get2 d m2 i j) ->
  m1 = m2.
Proof.
  intros [Hn1 Hk1] [Hn2 Hk2] Hget. rewrite Forall_forall in Hk1, Hk2.
  apply (nth_ext _ _ [] []); [congruence |].
  intros i Hi. rewrite Hn1 in Hi.
  assert (H1 : length (nth i m1 []) = k) by (apply Hk1, nth_In; lia).
  assert (H2 : length (nth i m2 []) = k) by (apply Hk2, nth_In; lia).
  apply (nth_ext _ _ d d); [congruence |].
  intros j Hj. rewrite H1 in Hj. now apply Hget.
Qed.

Lemma assign_entries_fold (V : nat * nat -> R) (ps : list (nat * nat)) (m : list (list R)) :
  assign_entries m ps (map V ps)
  = fold_left (fun acc p => set2 acc (fst p) (snd p) (V p)) ps m.
Proof.
  revert m. induction ps as [| p ps IH]; intros m; simpl; [reflexivity | apply IH].
Qed.

Lemma get2_fill_diagonal_values (n i j : nat) (m : list (list R)) (values : list R) :
  rect n n m -> i < n -> j < n ->
  rect n n (fill_diagonal_values m values) /\
  get2 0%R (fill_diagonal_values m values) i j
  = if i =? j then nth i values 0%R else get2 0%R m i j.
Proof.
  intros Hr Hi Hj. pose proof Hr as [Hn Hk]. split.
  - unfold fill_diagonal_values. split.
    + rewrite length_map, length_combine, length_seq. lia.
    + rewrite Forall_forall in *. intros r Hin.
      apply in_map_iff in Hin. destruct Hin as ([i' row] & Heq & Hin). simpl in Heq. subst r.
      rewrite length_set_nth. apply Hk. eapply in_combine_r. exact Hin.
  - unfold get2, fill_diagonal_values.
    rewrite (nth_enumerate_map _ [] []) by lia. simpl.
    destruct (i =? j) eqn:E.
    + apply Nat.eqb_eq in E. subst j. apply nth_set_nth_eq. now rewrite (rect_nth Hr Hi).
    + apply Nat.eqb_neq in E. now apply nth_set_nth_neq.
Qed.

Lemma nth_column_sums (n j : nat) (m : list (list R)) :
  length m = n -> j < n ->
  nth j (column_sums n m) 0%R = sum_R (map (fun i => get2 0%R m i j) (seq 0 n)).
Proof.
  intros Hn Hj. unfold column_sums. rewrite (nth_tabulate _ 0%R Hj).
  rewrite (map_seq_nth _ [] m), Hn. reflexivity.
Qed.

Lemma nth_map_Ropp (l : list R) (i : nat) : nth i (map Ropp l) 0%R = (- nth i l 0)%R.
Proof.
  revert i. induction l as [| x l IH]; intros [| i]; simpl; try lra. apply IH.
Qed.

Section KirchhoffAssembly.

Variable n : nat.
Variable ff : ForceField.
Variable pairs : list (nat * nat).
(** The squared distance attached to each pair. *)
Variable S : nat * nat -> R.

Hypothesis pairs_bounded : forall p, In p pairs -> fst p < n /\ snd p < n.

(** The force constant of a position, when it is a pair. *)
Let F (i j : nat) : R :=
  if in_dec pair_eq_dec (i, j) pairs then force_constant ff i j (S (i, j)) else 0%R.

Let K : ndarray := assemble_kirchhoff n ff pairs (map S pairs).

Lemma kirchhoff_k1_spec :
  let k1 := assign_entries (full n n 0%R) pairs
              (map Ropp (force_constant_v ff (map fst pairs) (map snd pairs) (map S pairs))) in
  rect n n k1 /\ forall i j, get2 0%R k1 i j = (- F i j)%R.
Proof.
  intros k1. unfold k1. rewrite force_constant_v_map, map_map.
  rewrite (assign_entries_fold (fun p => (- force_constant ff (fst p) (snd p) (S p))%R)).
  destruct (fold_set2_fun 0%R (fun p : nat * nat => p)
              (fun p => (- force_constant ff (fst p) (snd p) (S p))%R) pairs
              (rect_full n n 0%R) pairs_bounded) as [Hr Hget].
  rewrite map_id in Hget. split; [exact Hr |].
  intros i j. destruct (Hget i j) as [Hin Hout]. unfold F.
  destruct (in_dec pair_eq_dec (i, j) pairs) as [H | H].
  - now rewrite (Hin H).
  - rewrite (Hout H), get2_full. lra.
Qed.

(** The entries of the assembled matrix: minus the force constant at the
    pairs off the diagonal, and on the diagonal the sum of the force
    constants of the pairs of that column. *)
Lemma kirchhoff_entry (i j : nat) :
  i < n -> j < n ->
  entry K i j
  = if i =? j then sum_R (map (fun k => F k i) (seq 0 n)) else (- F i j)%R.
Proof.
  intros Hi Hj. destruct kirchhoff_k1_spec as [Hr Hget].
  unfold K, assemble_kirchhoff.
  set (k1 := assign_entries _ _ _) in *.
  destruct (get2_fill_diagonal_values (map Ropp (column_sums n k1)) Hr Hi Hj) as [Hr2 Hg2].
  unfold entry. cbn [shape data nth].
  rewrite (nth_concat_uniform 0%R (proj2 Hr2)) by (rewrite ?(proj1 Hr2); lia).
  fold (get2 0%R (fill_diagonal_values k1 (map Ropp (column_sums n k1))) i j).
  rewrite Hg2. destruct (i =? j); [| apply Hget].
  rewrite nth_map_Ropp, (nth_column_sums k1 (proj1 Hr) Hi).
  assert (Hopp : forall l : list nat,
            (- sum_R (map (fun k => get2 0%R k1 k i) l))%R = sum_R (map (fun k => F k i) l)).
  { induction l as [| k l IH]; simpl; [lra |]. rewrite <- IH, Hget. lra. }
  apply Hopp.
Qed.

Lemma kirchhoff_data_length : length (data K) = n * n.
Proof.
  destruct kirchhoff_k1_spec as [Hr _].
  unfold K, assemble_kirchhoff. set (k1 := assign_entries _ _ _) in *.
  cbn [data].
  assert (Hr2 : rect n n (fill_diagonal_values k1 (map Ropp (column_sums n k1)))).
  { destruct Hr as [Hn Hk]. unfold fill_diagonal_values. split.
    - rewrite length_map, length_combine, length_seq. lia.
    - rewrite Forall_forall in *. intros r Hin.
      apply in_map_iff in Hin. destruct Hin as ([i' row] & Heq & Hin). simpl in Heq. subst r.
      rewrite length_set_nth. apply Hk. eapply in_combine_r. exact Hin. }
  rewrite (length_concat_uniform (proj2 Hr2)). now rewrite (proj1 Hr2).
Qed.

(** Every column sums to the force constant of its self-pair, that is to
    zero when the column's atom is not paired with itself. *)
Lemma kirchhoff_column_sum (j : nat) :
  j < n ->
  sum_R (map (fun i => entry K i j) (seq 0 n)) = F j j.
Proof.
  intros Hj.
  rewrite (sum_R_map_ext _
             (fun i => if i =? j then sum_R (map (fun k => F k j) (seq 0 n))
                       else (fun i => - F i j)%R i)).
  - rewrite sum_R_replace by assumption.
    assert (Hopp : forall l : list nat,
              sum_R (map (fun i => (- F i j)%R) l) = (- sum_R (map (fun k => F k j) l))%R).
    { induction l as [| k l IH]; simpl; [lra |]. rewrite IH. lra. }
    rewrite Hopp. lra.
  - intros i Hi. apply in_seq in Hi. rewrite kirchhoff_entry by lia.
    destruct (i =? j) eqn:E; [| reflexivity].
    apply Nat.eqb_eq in E. now subst i.
Qed.

End KirchhoffAssembly.

(** ** The resolver's results *)

Lemma Rle_bool_iff (x y : R) : Rle_bool x y = true <-> (x <= y)%R.
Proof.
  unfold Rle_bool. destruct (Rle_dec x y); split; intros H; congruence || assumption.
Qed.

Lemma length_rows (coord : ndarray) (n k : nat) :
  shape coord = [n; k] -> length (rows coord) = n.
Proof. intros Hsh. unfold rows. rewrite Hsh. apply length_chunks. Qed.

Section Resolver.
Context {ext : Externals}.

Lemma prepare_values_shape (coord : ndarray) (ff : ForceField) (use_cell_list : bool)
    (off on : option (list (Z * Z))) (r : list (nat * nat) * list (list R) * list R) :
  _prepare_values_for_interaction_matrix coord ff use_cell_list off on = Return r ->
  exists n, shape coord = [n; 3] /\ forall k, natoms ff = Some k -> k = n.
Proof.
  unfold _prepare_values_for_interaction_matrix, ndim. intros Hp.
  destruct (shape coord) as [| n [| k [| k' rest]]] eqn:Hsh; try discriminate Hp.
  simpl in Hp. destruct (k =? 3) eqn:Ek; [| discriminate Hp].
  apply Nat.eqb_eq in Ek. subst k. simpl in Hp.
  exists n. split; [reflexivity |]. intros k Hk. rewrite Hk in Hp.
  destruct (n =? k) eqn:E; [| discriminate Hp]. apply Nat.eqb_eq in E. congruence.
Qed.

Lemma prepare_values_spec (coord : ndarray) (ff : ForceField) (use_cell_list : bool)
    (off on : option (list (Z * Z))) (pairs : list (nat * nat))
    (disp : list (list R)) (sq_dist : list R) :
  _prepare_values_for_interaction_matrix coord ff use_cell_list off on
    = Return (pairs, disp, sq_dist) ->
  let brute := match cutoff_distance ff with
               | Some _ => negb use_cell_list
               | None => false
               end in
  let D := resolver_displacement (rows coord) brute in
  exists n,
    shape coord = [n; 3] /\
    (forall k, natoms ff = Some k -> k = n) /\
    (forall p, In p pairs -> fst p < n /\ snd p < n) /\
    disp = map D pairs /\
    sq_dist = map (fun p => sum_sq (D p)) pairs.
Proof.
  intros Hp brute D.
  destruct (prepare_values_shape _ _ _ _ _ Hp) as (n & Hsh & Hnat).
  exists n. split; [exact Hsh |]. split; [exact Hnat |].
  destruct (prepare_values_pairs _ _ _ _ _ Hp) as (adj & adj' & Hr & Hpatch & Hpairs).
  rewrite Hsh in Hr. simpl in Hr.
  pose proof (patch_adjacency_matrix_rect _ _ (rect_fill_diagonal false Hr) Hpatch) as Hr'.
  assert (Hb : forall p, In p pairs -> fst p < n /\ snd p < n).
  { intros [i j] Hin. rewrite Hpairs in Hin. apply where_spec in Hin.
    destruct Hin as (Hi & Hj & _). pose proof Hr' as [Hn' Hk'].
    rewrite Hn' in Hi. rewrite (rect_nth Hr' Hi) in Hj. simpl. lia. }
  split; [exact Hb |].
  pose proof (length_rows coord Hsh) as Hxyz.
  destruct (prepare_values_displacements _ _ _ _ _ Hp) as [Hdisp Hsq].
  fold brute in Hdisp, Hsq.
  assert (HD : forall p, In p pairs ->
            get2 [] (map (fun ci => map (fun cj => displacement cj ci) (rows coord))
                       (rows coord)) (fst p) (snd p)
            = vsub (nth (fst p) (rows coord) []) (nth (snd p) (rows coord) [])).
  { intros p Hin. destruct (Hb p Hin). apply get2_disp_matrix; lia. }
  unfold D, resolver_displacement. destruct brute.
  - split.
    + rewrite Hdisp. now apply map_ext_in.
    + rewrite Hsq. apply map_ext_in. intros p Hin.
      change 0%R with (sum_sq []). rewrite get2_map_map. now rewrite HD.
  - split.
    + rewrite Hdisp. reflexivity.
    + rewrite Hsq. unfold index_displacement. now rewrite map_map.
Qed.

(** X1. Whenever the resolver returns, the coordinates have shape (n,3),
    every pair indexes two of the n atoms, the pairs are listed in strictly
    increasing row-major order (so no pair occurs twice), and there is one
    displacement and one squared distance per pair.  This holds with and
    without overrides. *)
Theorem resolver_pairs_are_sorted_and_aligned (coord : ndarray) (ff : ForceField)
    (use_cell_list : bool) (off on : option (list (Z * Z))) (pairs : list (nat * nat))
    (disp : list (list R)) (sq_dist : list R) :
  _prepare_values_for_interaction_matrix coord ff use_cell_list off on
    = Return (pairs, disp, sq_dist) ->
  exists n,
    shape coord = [n; 3] /\
    (forall p, In p pairs -> fst p < n /\ snd p < n) /\
    StronglySorted pair_lt pairs /\
    NoDup pairs /\
    length disp = length pairs /\
    length sq_dist = length pairs.
Proof.
  intros Hp.
  destruct (prepare_values_spec _ _ _ _ _ Hp) as (n & Hsh & _ & Hb & Hdisp & Hsq).
  destruct (prepare_values_pairs _ _ _ _ _ Hp) as (adj & adj' & _ & _ & Hpairs).
  assert (Hs : StronglySorted pair_lt pairs) by (rewrite Hpairs; apply where_sorted).
  exists n. repeat split; try assumption; try (now apply Hb).
  - apply (StronglySorted_NoDup (R := pair_lt)); [| exact Hs].
    intros x [H | [_ H]]; lia.
  - rewrite Hdisp. apply length_map.
  - rewrite Hsq. apply length_map.
Qed.

(** A call without overrides that does not use the cell list: the pairs
    are the off-diagonal true entries of the cutoff test (of the all-true
    matrix, without a cutoff). *)
Lemma prepare_values_without_overrides (coord : ndarray) (ff : ForceField)
    (use_cell_list : bool) (n : nat) :
  shape coord = [n; 3] ->
  (forall k, natoms ff = Some k -> k = n) ->
  (cutoff_distance ff <> None -> use_cell_list = false) ->
  exists adj disp sq_dist,
    rect n n adj /\
    (forall i j, i < n -> j < n ->
       get2 false adj i j
       = match cutoff_distance ff with
         | Some c =>
             Rle_bool (sum_sq (vsub (nth i (rows coord) []) (nth j (rows coord) []))) (c ^ 2)
         | None => true
         end) /\
    _prepare_values_for_interaction_matrix coord ff use_cell_list None None
      = Return (where_ (fill_diagonal adj false), disp, sq_dist).
Proof.
  intros Hsh Hnat Hbrute. pose proof (length_rows coord Hsh) as Hxyz.
  unfold _prepare_values_for_interaction_matrix, ndim.
  rewrite Hsh. cbn [length nth Nat.eqb negb orb].
  assert (Hn : match natoms ff with Some k => negb (n =? k) | None => false end = false).
  { destruct (natoms ff) as [k |] eqn:E; [| reflexivity].
    rewrite (Hnat k eq_refl), Nat.eqb_refl. reflexivity. }
  rewrite Hn.
  destruct (cutoff_distance ff) as [c |] eqn:Ec.
  - rewrite Hbrute by discriminate. cbn [bind _patch_adjacency_matrix].
    eexists. eexists. eexists. split; [| split; [| reflexivity]].
    + split.
      * rewrite !length_map. exact Hxyz.
      * rewrite Forall_forall. intros r Hin.
        apply in_map_iff in Hin. destruct Hin as (r' & <- & Hin).
        apply in_map_iff in Hin. destruct Hin as (r'' & <- & Hin).
        apply in_map_iff in Hin. destruct Hin as (ci & <- & Hin).
        rewrite !length_map. exact Hxyz.
    + intros i j Hi Hj. apply get2_threshold; lia.
  - cbn [bind _patch_adjacency_matrix].
    exists (full n n true). eexists. eexists.
    split; [apply rect_full |]. split; [| reflexivity].
    intros i j Hi Hj. now apply get2_full_inside.
Qed.

(** X2. For coordinates of shape (n,3) that match the [natoms] of the
    force field, without overrides and without the cell list the resolver
    returns, and its pairs are exactly the ordered pairs (i,j) of two
    different atoms whose squared distance is at most the square of the
    cutoff (the cutoff is inclusive); without a cutoff they are all ordered
    pairs of two different atoms. *)
Theorem default_pairs_are_the_contacts_within_cutoff (coord : ndarray) (ff : ForceField)
    (use_cell_list : bool) (n : nat) :
  shape coord = [n; 3] ->
  (forall k, natoms ff = Some k -> k = n) ->
  (cutoff_distance ff <> None -> use_cell_list = false) ->
  exists pairs disp sq_dist,
    _prepare_values_for_interaction_matrix coord ff use_cell_list None None
      = Return (pairs, disp, sq_dist) /\
    forall i j,
      In (i, j) pairs <->
      i < n /\ j < n /\ i <> j /\
      match cutoff_distance ff with
      | Some c =>
          (sum_sq (vsub (nth i (rows coord) []) (nth j (rows coord) [])) <= c ^ 2)%R
      | None => True
      end.
Proof.
  intros Hsh Hnat Hbrute.
  destruct (prepare_values_without_overrides coord ff Hsh Hnat Hbrute)
    as (adj & disp & sq_dist & Hr & Hadj & Hp).
  exists (where_ (fill_diagonal adj false)), disp, sq_dist. split; [exact Hp |].
  intros i j. rewrite (where_fill_diagonal i j Hr). split.
  - intros (Hi & Hj & Hne & Hg). rewrite (Hadj i j Hi Hj) in Hg.
    repeat split; try assumption.
    destruct (cutoff_distance ff); [now apply Rle_bool_iff | exact I].
  - intros (Hi & Hj & Hne & Hg). rewrite (Hadj i j Hi Hj).
    repeat split; try assumption.
    destruct (cutoff_distance ff); [now apply Rle_bool_iff | reflexivity].
Qed.

End Resolver.

Section MatrixInputs.
Context {ext : Externals}.

(** X3. Coordinates that are not of shape (n,3), and coordinates whose
    number of atoms is not the [natoms] of the force field, make both
    [compute_hessian] and [compute_kirchhoff] raise [ValueError], whatever
    the other arguments are: the overrides are not looked at before. *)
Theorem invalid_coordinates_are_rejected (coord : ndarray) (ff : ForceField)
    (use_cell_list : bool) (off on : option (list (Z * Z))) :
  (forall n, shape coord <> [n; 3]) \/
  (exists k, natoms ff = Some k /\ nth 0 (shape coord) 0 <> k) ->
  compute_hessian coord ff use_cell_list off on = Raise ValueError /\
  compute_kirchhoff coord ff use_cell_list off on = Raise ValueError.
Proof.
  intros H.
  assert (Hp : _prepare_values_for_interaction_matrix coord ff use_cell_list off on
               = Raise ValueError).
  { unfold _prepare_values_for_interaction_matrix, ndim.
    destruct (negb (length (shape coord) =? 2) || negb (nth 1 (shape coord) 0 =? 3)) eqn:E;
      [reflexivity |].
    destruct H as [H | (k & Hk & Hne)].
    - exfalso. apply orb_false_elim in E. destruct E as [E1 E2].
      apply negb_false_iff, Nat.eqb_eq in E1. apply negb_false_iff, Nat.eqb_eq in E2.
      destruct (shape coord) as [| n [| m [| m' rest]]]; try discriminate E1.
      simpl in E2. subst m. now apply (H n).
    - rewrite Hk. apply Nat.eqb_neq in Hne. now rewrite Hne. }
  unfold compute_hessian, compute_kirchhoff. now rewrite Hp.
Qed.

(** What [compute_kirchhoff] returns, by its entries. *)
Lemma compute_kirchhoff_entries (coord : ndarray) (ff : ForceField) (use_cell_list : bool)
    (off on : option (list (Z * Z))) (K : ndarray) (pairs : list (nat * nat)) :
  compute_kirchhoff coord ff use_cell_list off on = Return (K, pairs) ->
  let sq_dist i j := sum_sq (vsub (nth i (rows coord) []) (nth j (rows coord) [])) in
  let k i j :=
    if in_dec pair_eq_dec (i, j) pairs then force_constant ff i j (sq_dist i j) else 0%R in
  exists n,
    shape coord = [n; 3] /\
    (forall p, In p pairs -> fst p < n /\ snd p < n) /\
    (exists disp sq_dist,
       _prepare_values_for_interaction_matrix coord ff use_cell_list off on
       = Return (pairs, disp, sq_dist)) /\
    shape K = [n; n] /\
    length (data K) = n * n /\
    (forall i j, i < n -> j < n -> i <> j -> entry K i j = (- k i j)%R) /\
    (forall j, j < n -> entry K j j = sum_R (map (fun i => k i j) (seq 0 n))) /\
    (forall j, j < n -> sum_R (map (fun i => entry K i j) (seq 0 n)) = k j j).
Proof.
  intros Hk sq_dist k. unfold compute_kirchhoff in Hk.
  destruct (_prepare_values_for_interaction_matrix coord ff use_cell_list off on)
    as [[[pairs' disp] sq] |] eqn:Hp; [| discriminate Hk].
  destruct (prepare_values_spec _ _ _ _ _ Hp) as (n & Hsh & _ & Hb & _ & Hsq).
  unfold len in Hk. rewrite Hsh in Hk. cbn [bind] in Hk.
  injection Hk as <- <-. exists n.
  set (D := resolver_displacement (rows coord) _) in Hsq.
  assert (HS : forall i j, sum_sq (D (i, j)) = sq_dist i j).
  { intros i j. unfold D, resolver_displacement, sq_dist.
    destruct (match cutoff_distance ff with Some _ => negb use_cell_list | None => false end);
      [reflexivity | apply sum_sq_vsub_sym]. }
  assert (Hk' : forall i j,
            (if in_dec pair_eq_dec (i, j) pairs'
             then force_constant ff i j (sum_sq (D (i, j))) else 0%R) = k i j).
  { intros i j. unfold k. now rewrite HS. }
  rewrite Hsq.
  split; [exact Hsh |]. split; [exact Hb |].
  split; [eexists; eexists; reflexivity |]. split; [reflexivity |].
  split; [now apply (@kirchhoff_data_length n ff pairs' (fun p => sum_sq (D p))) |].
  split; [| split].
  - intros i j Hi Hj Hne.
    rewrite (@kirchhoff_entry n ff pairs' (fun p => sum_sq (D p)) Hb i j Hi Hj).
    apply Nat.eqb_neq in Hne. rewrite Hne. now rewrite Hk'.
  - intros j Hj.
    rewrite (@kirchhoff_entry n ff pairs' (fun p => sum_sq (D p)) Hb j j Hj Hj), Nat.eqb_refl.
    apply sum_R_map_ext. intros i _. apply Hk'.
  - intros j Hj.
    rewrite (@kirchhoff_column_sum n ff pairs' (fun p => sum_sq (D p)) Hb j Hj). apply Hk'.
Qed.

End MatrixInputs.

Lemma length_flatten_superelements (n : nat) (h : list (list (list (list R)))) :
  rect n n h -> length (data (flatten_superelements n h)) = n * 3 * (n * 3).
Proof.
  intros [Hn Hk]. rewrite Forall_forall in Hk. unfold flatten_superelements. cbn [data].
  rewrite (length_concat_uniform (k := n * 3)).
  - rewrite (length_concat_uniform (k := 3)).
    + now rewrite length_map, Hn.
    + rewrite Forall_forall. intros r Hr. apply in_map_iff in Hr.
      destruct Hr as (row & <- & _). apply length_tabulate.
  - rewrite Forall_forall. intros r Hr. apply in_concat in Hr.
    destruct Hr as (rs & Hrs & Hin). apply in_map_iff in Hrs.
    destruct Hrs as (row & <- & Hrow). unfold tabulate in Hin.
    apply in_map_iff in Hin. destruct Hin as (a & <- & _).
    rewrite (length_concat_uniform (k := 3)).
    + now rewrite length_map, (Hk row Hrow).
    + rewrite Forall_forall. intros r Hr. apply in_map_iff in Hr.
      destruct Hr as (blk & <- & _). apply length_tabulate.
Qed.

Lemma length_vsub_le (u v : list R) : length (vsub u v) <= length u.
Proof.
  revert v. induction u as [| x u IH]; intros [| y v]; simpl; try lia.
  specialize (IH v). lia.
Qed.

Lemma length_chunk_le {A : Type} (n k i : nat) (l : list A) :
  length (nth i (chunks n k l) []) <= k.
Proof.
  revert i l. induction n as [| n IH]; intros i l; simpl.
  - destruct i; simpl; lia.
  - destruct i as [| i]; [| apply IH].
    rewrite length_firstn. lia.
Qed.

Lemma sum_sq_three (d : list R) :
  length d <= 3 ->
  sum_sq d = (nth 0 d 0 * nth 0 d 0 + nth 1 d 0 * nth 1 d 0 + nth 2 d 0 * nth 2 d 0)%R.
Proof.
  unfold sum_sq, sum_R.
  destruct d as [| x [| y [| z [| w d]]]]; simpl; intros H; try lra; lia.
Qed.

(** Minus the sum over a list of three terms each is the sum of what the
    three terms add up to. *)
Lemma sum_R_three_columns (f0 f1 f2 g : nat -> R) (l : list nat) :
  (forall i, In i l -> (f0 i + f1 i + f2 i)%R = (- g i)%R) ->
  (- sum_R (map f0 l) + (- sum_R (map f1 l) + (- sum_R (map f2 l) + 0)))%R
  = sum_R (map g l).
Proof.
  induction l as [| i l IH]; intros H; simpl; [lra |].
  rewrite <- IH by (intros k Hk; apply H; now right).
  pose proof (H i (or_introl eq_refl)). lra.
Qed.

Section HessianEntries.
Context {ext : Externals}.

(** What [compute_hessian] returns, by its entries. *)
Lemma compute_hessian_entries (coord : ndarray) (ff : ForceField) (use_cell_list : bool)
    (off on : option (list (Z * Z))) (H : ndarray) (pairs : list (nat * nat)) :
  compute_hessian coord ff use_cell_list off on = Return (H, pairs) ->
  let d i j := vsub (nth j (rows coord) []) (nth i (rows coord) []) in
  let w i j a b :=
    if in_dec pair_eq_dec (i, j) pairs
    then (- force_constant ff i j (sum_sq (d i j)) / sum_sq (d i j)
          * nth a (d i j) 0 * nth b (d i j) 0)%R
    else 0%R in
  exists n,
    shape coord = [n; 3] /\
    (forall p, In p pairs -> fst p < n /\ snd p < n) /\
    (exists disp sq_dist,
       _prepare_values_for_interaction_matrix coord ff use_cell_list off on
       = Return (pairs, disp, sq_dist)) /\
    shape H = [n * 3; n * 3] /\
    length (data H) = n * 3 * (n * 3) /\
    forall i j a b, i < n -> j < n -> a < 3 -> b < 3 ->
      entry H (i * 3 + a) (j * 3 + b)
      = if i =? j then (- sum_R (map (fun k => w k j a b) (seq 0 n)))%R else w i j a b.
Proof.
  intros Hh d w. unfold compute_hessian in Hh.
  destruct (_prepare_values_for_interaction_matrix coord ff use_cell_list off on)
    as [[[pairs' disp] sq] |] eqn:Hp; [| discriminate Hh].
  destruct (prepare_values_spec _ _ _ _ _ Hp) as (n & Hsh & _ & Hb & Hdisp & Hsq).
  unfold len in Hh. rewrite Hsh in Hh. cbn [bind] in Hh.
  injection Hh as <- <-. exists n.
  set (D := resolver_displacement (rows coord) _) in Hdisp, Hsq.
  split; [exact Hsh |]. split; [exact Hb |].
  split; [eexists; eexists; reflexivity |]. split; [reflexivity |].
  rewrite Hdisp, Hsq. split.
  - unfold assemble_hessian. apply length_flatten_superelements.
    destruct (@get2_assign_diagonal n 0 0
                (assign_blocks (full n n zero_block) pairs'
                   (superelements
                      (force_constant_v ff (map fst pairs') (map snd pairs')
                         (map (fun p => sum_sq (D p)) pairs'))
                      (map (fun p => sum_sq (D p)) pairs') (map D pairs')))
                (map neg_block (sum_axis0 n
                   (assign_blocks (full n n zero_block) pairs'
                      (superelements
                         (force_constant_v ff (map fst pairs') (map snd pairs')
                            (map (fun p => sum_sq (D p)) pairs'))
                         (map (fun p => sum_sq (D p)) pairs') (map D pairs')))))
                (proj1 (@h1_spec n ff pairs' D Hb))) as [Hr _].
    exact Hr.
  - assert (HW : forall i j a b, a < 3 -> b < 3 ->
              bget (get2 zero_block
                      (assign_blocks (full n n zero_block) pairs'
                         (superelements
                            (force_constant_v ff (map fst pairs') (map snd pairs')
                               (map (fun p => sum_sq (D p)) pairs'))
                            (map (fun p => sum_sq (D p)) pairs') (map D pairs')))
                      i j) a b = w i j a b).
    { intros i j a b Ha Hb'. unfold w.
      destruct (in_dec pair_eq_dec (i, j) pairs') as [Hin | Hn].
      - rewrite (@W_in n ff pairs' D Hb i j a b Hin Ha Hb').
        unfold D, resolver_displacement, d. cbn [fst snd].
        destruct (match cutoff_distance ff with Some _ => negb use_cell_list | None => false end).
        + rewrite (sum_sq_vsub_sym (nth i (rows coord) []) (nth j (rows coord) [])).
          rewrite (nth_vsub_antisym (nth i (rows coord) []) (nth j (rows coord) []) a).
          rewrite (nth_vsub_antisym (nth i (rows coord) []) (nth j (rows coord) []) b).
          ring.
        + reflexivity.
      - apply (@W_out n ff pairs' D Hb i j a b Hn). }
    intros i j a b Hi Hj Ha Hb'.
    rewrite (@assembled_entry n ff pairs' D Hb i j a b Hi Hj Ha Hb').
    destruct (i =? j) eqn:E.
    + apply Nat.eqb_eq in E. subst j. f_equal.
      apply sum_R_map_ext. intros k _. now apply HW.
    + now apply HW.
Qed.

End HessianEntries.

Lemma superelement_opposite (k s : R) (d d' : list R) :
  (forall a, nth a d' 0%R = (- nth a d 0)%R) ->
  superelement k s d' = superelement k s d.
Proof.
  intros H. unfold superelement, tabulate.
  apply map_ext. intros a. apply map_ext. intros b. rewrite !H. ring.
Qed.

Section CellList.
Context {ext : Externals}.

(** X4. When the cell list reports, for every two different atoms,
    whether their squared distance is at most the square of the cutoff,
    [use_cell_list] changes no result: [compute_hessian] and
    [compute_kirchhoff] return the same matrix and the same pairs (or raise
    the same exception) with it and without it, for all overrides.  (The
    two paths attach opposite displacement vectors to a pair; the matrices
    use them only in products of two components.) *)
Theorem cell_list_is_only_an_optimisation (coord : ndarray) (ff : ForceField)
    (off on : option (list (Z * Z))) (n : nat) (c : R) (adj : nat -> nat -> bool) :
  shape coord = [n; 3] ->
  cutoff_distance ff = Some c ->
  CellList_adjacency (rows coord) c = Return adj ->
  (forall i j, i < n -> j < n -> i <> j ->
     adj i j
     = Rle_bool (sum_sq (vsub (nth i (rows coord) []) (nth j (rows coord) []))) (c ^ 2)) ->
  compute_hessian coord ff true off on = compute_hessian coord ff false off on /\
  compute_kirchhoff coord ff true off on = compute_kirchhoff coord ff false off on.
Proof.
  intros Hsh Hc Hcell Hadj. pose proof (length_rows coord Hsh) as Hxyz.
  set (xyz := rows coord) in *.
  set (dm := map (fun ci => map (fun cj => displacement cj ci) xyz) xyz).
  set (thr := map (map (fun d => Rle_bool d (c ^ 2))) (map (map sum_sq) dm)).
  assert (Hr_thr : rect n n thr).
  { split.
    - unfold thr, dm. rewrite !length_map. exact Hxyz.
    - rewrite Forall_forall. intros r Hin. unfold thr, dm in Hin.
      apply in_map_iff in Hin. destruct Hin as (r' & <- & Hin).
      apply in_map_iff in Hin. destruct Hin as (r'' & <- & Hin).
      apply in_map_iff in Hin. destruct Hin as (ci & <- & Hin).
      rewrite !length_map. exact Hxyz. }
  assert (Heq : fill_diagonal (tabulate n (fun i => tabulate n (adj i))) false
                = fill_diagonal thr false).
  { apply (@rect_ext bool n n false).
    - apply rect_fill_diagonal, rect_tabulate.
    - now apply rect_fill_diagonal.
    - intros i j Hi Hj.
      rewrite (get2_fill_diagonal false false (rect_tabulate n n adj) Hi Hj).
      rewrite (get2_fill_diagonal false false Hr_thr Hi Hj).
      destruct (i =? j) eqn:E; [reflexivity |]. apply Nat.eqb_neq in E.
      rewrite get2_tabulate by assumption.
      unfold thr, dm. rewrite get2_threshold by (fold xyz; lia).
      now apply Hadj. }
  assert (Hcases :
    match _prepare_values_for_interaction_matrix coord ff true off on,
          _prepare_values_for_interaction_matrix coord ff false off on with
    | Return (p1, d1, s1), Return (p2, d2, s2) =>
        p1 = p2 /\ s1 = s2 /\
        superelements (force_constant_v ff (map fst p1) (map snd p1) s1) s1 d1
        = superelements (force_constant_v ff (map fst p2) (map snd p2) s2) s2 d2
    | Raise e1, Raise e2 => e1 = e2
    | _, _ => False
    end).
  { unfold _prepare_values_for_interaction_matrix.
    destruct (negb (ndim coord =? 2) || negb (nth 1 (shape coord) 0 =? 3)); [reflexivity |].
    destruct (match natoms ff with
              | Some k => negb (nth 0 (shape coord) 0 =? k)
              | None => false
              end); [reflexivity |].
    rewrite Hc. fold xyz. rewrite Hcell. rewrite Hsh. cbn [nth bind].
    fold dm. fold thr. rewrite Heq.
    assert (Hrd : rect n n (fill_diagonal thr false)) by now apply rect_fill_diagonal.
    destruct (_patch_adjacency_matrix (fill_diagonal thr false) off on) as [adj' |] eqn:Ep;
      cbn [bind]; [| reflexivity].
    pose proof (patch_adjacency_matrix_rect _ _ Hrd Ep) as Hr'.
    assert (Hb : forall p, In p (where_ adj') -> fst p < n /\ snd p < n).
    { intros [i j] Hin. apply where_spec in Hin.
      destruct Hin as (Hi & Hj & _). pose proof Hr' as [Hn' Hk'].
      rewrite Hn' in Hi. rewrite (rect_nth Hr' Hi) in Hj. simpl. lia. }
    split; [reflexivity |].
    assert (Hs : map sum_sq (index_displacement xyz (where_ adj'))
                 = map (fun p => get2 0%R (map (map sum_sq) dm) (fst p) (snd p))
                       (where_ adj')).
    { unfold index_displacement. rewrite map_map. apply map_ext_in. intros p Hin.
      destruct (Hb p Hin). change 0%R with (sum_sq []). rewrite get2_map_map.
      unfold dm. rewrite get2_disp_matrix by lia. unfold displacement.
      apply sum_sq_vsub_sym. }
    split; [exact Hs |]. rewrite Hs.
    set (S := fun p : nat * nat => get2 0%R (map (map sum_sq) dm) (fst p) (snd p)).
    rewrite force_constant_v_map.
    unfold index_displacement.
    rewrite !(superelements_map (fun p => force_constant ff (fst p) (snd p) (S p)) S).
    apply map_ext_in. intros p Hin. destruct (Hb p Hin).
    apply superelement_opposite. intros a.
    unfold dm. rewrite get2_disp_matrix by lia. unfold displacement.
    apply nth_vsub_antisym. }
  unfold compute_hessian, compute_kirchhoff.
  destruct (_prepare_values_for_interaction_matrix coord ff true off on)
    as [[[p1 d1] s1] |];
    destruct (_prepare_values_for_interaction_matrix coord ff false off on)
    as [[[p2 d2] s2] |]; try contradiction.
  - destruct Hcases as (-> & -> & Hsup). cbn [bind].
    destruct (len coord); cbn [bind]; [| split; reflexivity].
    unfold assemble_hessian. rewrite Hsup. split; reflexivity.
  - subst. split; reflexivity.
Qed.

End CellList.

Section MatrixEntries.
Context {ext : Externals}.

(** X5. The matrix [compute_kirchhoff] returns for n atoms has shape
    (n,n) and n*n elements.  Off the diagonal, entry (i,j) is minus the
    force constant of the pair (i,j) at its squared distance when (i,j) is
    one of the returned pairs, and 0 otherwise; the diagonal entry (j,j) is
    the sum of the force constants of the pairs (i,j) of column j. *)
Theorem kirchhoff_entries (coord : ndarray) (ff : ForceField) (use_cell_list : bool)
    (off on : option (list (Z * Z))) (K : ndarray) (pairs : list (nat * nat)) :
  compute_kirchhoff coord ff use_cell_list off on = Return (K, pairs) ->
  let sq_dist i j := sum_sq (vsub (nth i (rows coord) []) (nth j (rows coord) [])) in
  let k i j :=
    if in_dec pair_eq_dec (i, j) pairs then force_constant ff i j (sq_dist i j) else 0%R in
  exists n,
    shape coord = [n; 3] /\
    shape K = [n; n] /\
    length (data K) = n * n /\
    (forall i j, i < n -> j < n -> i <> j -> entry K i j = (- k i j)%R) /\
    (forall j, j < n -> entry K j j = sum_R (map (fun i => k i j) (seq 0 n))).
Proof.
  intros Hk sq_dist k.
  destruct (compute_kirchhoff_entries _ _ _ _ _ Hk)
    as (n & Hsh & _ & _ & HshK & Hlen & Hoff & Hdiag & _).
  exists n. repeat split; assumption.
Qed.

(** The matrix of a symmetric pair set without self-pairs. *)
Lemma kirchhoff_of_symmetric_pairs (coord : ndarray) (ff : ForceField)
    (use_cell_list : bool) (off on : option (list (Z * Z))) (K : ndarray)
    (pairs : list (nat * nat)) (n : nat) :
  compute_kirchhoff coord ff use_cell_list off on = Return (K, pairs) ->
  shape coord = [n; 3] ->
  (forall i j d, force_constant ff i j d = force_constant ff j i d) ->
  (forall i j, In (i, j) pairs -> In (j, i) pairs) ->
  (forall i, ~ In (i, i) pairs) ->
  (forall i j, i < n -> j < n -> entry K i j = entry K j i) /\
  (forall i, i < n -> sum_R (map (fun j => entry K i j) (seq 0 n)) = 0%R) /\
  (forall j, j < n -> sum_R (map (fun i => entry K i j) (seq 0 n)) = 0%R).
Proof.
  intros Hk Hsh Hfc Hsym Hirr.
  destruct (compute_kirchhoff_entries _ _ _ _ _ Hk)
    as (n' & Hsh' & _ & _ & _ & _ & Hoff & _ & Hcol).
  assert (n' = n) by congruence. subst n'.
  assert (Hcol0 : forall j, j < n -> sum_R (map (fun i => entry K i j) (seq 0 n)) = 0%R).
  { intros j Hj. rewrite (Hcol j Hj).
    destruct (in_dec pair_eq_dec (j, j) pairs) as [Hin | _]; [| reflexivity].
    now destruct (Hirr j). }
  assert (HsymK : forall i j, i < n -> j < n -> entry K i j = entry K j i).
  { intros i j Hi Hj. destruct (Nat.eq_dec i j) as [-> | Hne]; [reflexivity |].
    rewrite (Hoff i j Hi Hj Hne), (Hoff j i Hj Hi (not_eq_sym Hne)).
    rewrite (sum_sq_vsub_sym (nth j (rows coord) []) (nth i (rows coord) [])).
    destruct (in_dec pair_eq_dec (i, j) pairs) as [Hin | Hn];
      destruct (in_dec pair_eq_dec (j, i) pairs) as [Hin' | Hn'].
    - now rewrite Hfc.
    - destruct Hn'. now apply Hsym.
    - destruct Hn. now apply Hsym.
    - reflexivity. }
  split; [exact HsymK |]. split; [| exact Hcol0].
  intros i Hi. rewrite <- (Hcol0 i Hi). apply sum_R_map_ext.
  intros j Hj. apply in_seq in Hj. apply HsymK; lia.
Qed.

(** X6. For coordinates of shape (n,3) and a force field with a symmetric
    force constant, the Kirchhoff matrix is symmetric and each of its rows
    and columns sums to zero
    - when it is computed without overrides and without the cell list
      (first part; the call then returns, given that the coordinates match
      the [natoms] of the force field), and
    - with overrides or the cell list, whenever the returned pair set holds
      (j,i) with every (i,j) and holds no self-pair (second part).
    Unlike for the Hessian, the atoms need not be at different
    positions. *)
Theorem kirchhoff_symmetric_with_zero_sums (coord : ndarray) (ff : ForceField)
    (use_cell_list : bool) (n : nat) :
  shape coord = [n; 3] ->
  (forall i j d, force_constant ff i j d = force_constant ff j i d) ->
  let laplacian K :=
    (forall i j, i < n -> j < n -> entry K i j = entry K j i) /\
    (forall i, i < n -> sum_R (map (fun j => entry K i j) (seq 0 n)) = 0%R) /\
    (forall j, j < n -> sum_R (map (fun i => entry K i j) (seq 0 n)) = 0%R) in
  ((forall k, natoms ff = Some k -> k = n) ->
   (cutoff_distance ff <> None -> use_cell_list = false) ->
   exists K pairs,
     compute_kirchhoff coord ff use_cell_list None None = Return (K, pairs) /\
     laplacian K) /\
  (forall off on K pairs,
     compute_kirchhoff coord ff use_cell_list off on = Return (K, pairs) ->
     (forall i j, In (i, j) pairs -> In (j, i) pairs) ->
     (forall i, ~ In (i, i) pairs) ->
     laplacian K).
Proof.
  intros Hsh Hfc laplacian. split.
  - intros Hnat Hbrute.
    destruct (prepare_values_without_overrides coord ff Hsh Hnat Hbrute)
      as (adj & disp & sq_dist & Hr & Hadj & Hp).
    assert (Hsym : forall i j, i < n -> j < n -> get2 false adj i j = get2 false adj j i).
    { intros i j Hi Hj. rewrite (Hadj i j Hi Hj), (Hadj j i Hj Hi).
      destruct (cutoff_distance ff); [| reflexivity].
      f_equal. apply sum_sq_vsub_sym. }
    destruct (default_pairs_properties Hr Hsym) as (_ & Hs & Hirr).
    assert (Hk : compute_kirchhoff coord ff use_cell_list None None
                 = Return (assemble_kirchhoff n ff (where_ (fill_diagonal adj false)) sq_dist,
                           where_ (fill_diagonal adj false))).
    { unfold compute_kirchhoff, len. rewrite Hp, Hsh. reflexivity. }
    eexists. eexists. split; [exact Hk |].
    exact (@kirchhoff_of_symmetric_pairs _ _ _ _ _ _ _ _ Hk Hsh Hfc Hs Hirr).
  - intros off on K pairs Hk Hs Hirr.
    exact (@kirchhoff_of_symmetric_pairs _ _ _ _ _ _ _ _ Hk Hsh Hfc Hs Hirr).
Qed.

(** X7. The matrix [compute_hessian] returns for n atoms has shape
    (3n,3n) and 3n*3n elements.  For two different atoms, entry
    (3i+a, 3j+b) is [-k / d2 * v_a * v_b] with [v] the vector from atom i
    to atom j, [d2] its squared length and [k] the force constant of the
    pair, when (i,j) is one of the returned pairs, and 0 otherwise; the
    diagonal block of atom j is minus the sum of the blocks (i,j) over all
    i. *)
Theorem hessian_blocks (coord : ndarray) (ff : ForceField) (use_cell_list : bool)
    (off on : option (list (Z * Z))) (H : ndarray) (pairs : list (nat * nat)) :
  compute_hessian coord ff use_cell_list off on = Return (H, pairs) ->
  let d i j := vsub (nth j (rows coord) []) (nth i (rows coord) []) in
  let w i j a b :=
    if in_dec pair_eq_dec (i, j) pairs
    then (- force_constant ff i j (sum_sq (d i j)) / sum_sq (d i j)
          * nth a (d i j) 0 * nth b (d i j) 0)%R
    else 0%R in
  exists n,
    shape coord = [n; 3] /\
    shape H = [n * 3; n * 3] /\
    length (data H) = n * 3 * (n * 3) /\
    (forall i j a b, i < n -> j < n -> a < 3 -> b < 3 -> i <> j ->
       entry H (i * 3 + a) (j * 3 + b) = w i j a b) /\
    (forall j a b, j < n -> a < 3 -> b < 3 ->
       entry H (j * 3 + a) (j * 3 + b)
       = (- sum_R (map (fun i => w i j a b) (seq 0 n)))%R).
Proof.
  intros Hh d w.
  destruct (compute_hessian_entries _ _ _ _ _ Hh)
    as (n & Hsh & _ & _ & HshH & Hlen & Hent).
  exists n. split; [exact Hsh |]. split; [exact HshH |]. split; [exact Hlen |]. split.
  - intros i j a b Hi Hj Ha Hb Hne. rewrite (Hent i j a b Hi Hj Ha Hb).
    apply Nat.eqb_neq in Hne. now rewrite Hne.
  - intros j a b Hj Ha Hb. rewrite (Hent j j a b Hj Hj Ha Hb).
    now rewrite Nat.eqb_refl.
Qed.

(** X8. For the same arguments [compute_hessian] and
    [compute_kirchhoff] return the same pairs, and when the atoms of every
    pair are at a non-zero distance, the trace of the 3x3 block (i,j) of
    the Hessian is entry (i,j) of the Kirchhoff matrix. *)
Theorem hessian_block_traces_are_kirchhoff_entries (coord : ndarray) (ff : ForceField)
    (use_cell_list : bool) (off on : option (list (Z * Z))) (H K : ndarray)
    (pairs pairs' : list (nat * nat)) :
  compute_hessian coord ff use_cell_list off on = Return (H, pairs) ->
  compute_kirchhoff coord ff use_cell_list off on = Return (K, pairs') ->
  (forall i j, In (i, j) pairs ->
     sum_sq (vsub (nth i (rows coord) []) (nth j (rows coord) [])) <> 0%R) ->
  pairs' = pairs /\
  exists n,
    shape coord = [n; 3] /\
    forall i j, i < n -> j < n ->
      sum_R (map (fun a => entry H (i * 3 + a) (j * 3 + a)) (seq 0 3)) = entry K i j.
Proof.
  intros Hh Hk Hdist.
  destruct (compute_hessian_entries _ _ _ _ _ Hh)
    as (n & Hsh & Hb & (disp & sq & Hp) & _ & _ & Hent).
  destruct (compute_kirchhoff_entries _ _ _ _ _ Hk)
    as (n' & Hsh' & _ & (disp' & sq' & Hp') & _ & _ & Hoff & Hdiag & _).
  assert (n' = n) by congruence. subst n'.
  assert (Hpairs : pairs' = pairs) by congruence. subst pairs'.
  split; [reflexivity |]. exists n. split; [exact Hsh |].
  set (d := fun i j => vsub (nth j (rows coord) []) (nth i (rows coord) [])) in *.
  set (w := fun i j a b =>
              if in_dec pair_eq_dec (i, j) pairs
              then (- force_constant ff i j (sum_sq (d i j)) / sum_sq (d i j)
                    * nth a (d i j) 0 * nth b (d i j) 0)%R
              else 0%R) in *.
  set (k := fun i j =>
              if in_dec pair_eq_dec (i, j) pairs
              then force_constant ff i j
                     (sum_sq (vsub (nth i (rows coord) []) (nth j (rows coord) [])))
              else 0%R) in *.
  assert (Htr : forall i j,
            (w i j 0%nat 0%nat + w i j 1%nat 1%nat + w i j 2%nat 2%nat)%R = (- k i j)%R).
  { intros i j. unfold w, k.
    destruct (in_dec pair_eq_dec (i, j) pairs) as [Hin | _]; [| lra].
    pose proof (Hdist i j Hin) as Hne.
    rewrite (sum_sq_vsub_sym (nth i (rows coord) []) (nth j (rows coord) [])) in *.
    fold (d i j) in *.
    assert (Hlen : length (d i j) <= 3).
    { unfold d. eapply Nat.le_trans; [apply length_vsub_le |].
      unfold rows. rewrite Hsh. apply length_chunk_le. }
    pose proof (sum_sq_three (d i j) Hlen) as Hs3.
    set (s := sum_sq (d i j)) in *.
    set (f := force_constant ff i j s).
    transitivity (- f / s * (nth 0 (d i j) 0 * nth 0 (d i j) 0
                             + nth 1 (d i j) 0 * nth 1 (d i j) 0
                             + nth 2 (d i j) 0 * nth 2 (d i j) 0))%R; [unfold Rdiv; ring |].
    rewrite <- Hs3.
    field. exact Hne. }
  intros i j Hi Hj. cbn [seq map sum_R fold_right].
  rewrite !(Nat.add_0_r (i * 3)), !(Nat.add_0_r (j * 3)).
  pose proof (Hent i j 0 0 Hi Hj ltac:(lia) ltac:(lia)) as H0.
  pose proof (Hent i j 1 1 Hi Hj ltac:(lia) ltac:(lia)) as H1.
  pose proof (Hent i j 2 2 Hi Hj ltac:(lia) ltac:(lia)) as H2.
  rewrite !Nat.add_0_r in H0. rewrite H0, H1, H2.
  destruct (i =? j) eqn:E.
  - apply Nat.eqb_eq in E. subst j. rewrite (Hdiag i Hi).
    apply sum_R_three_columns. intros q _. apply Htr.
  - apply Nat.eqb_neq in E. rewrite (Hoff i j Hi Hj E).
    change ((w i j 0%nat 0%nat + (w i j 1%nat 1%nat + (w i j 2%nat 2%nat + 0)))%R
            = (- k i j)%R).
    pose proof (Htr i j). lra.
Qed.

End MatrixEntries.

(** ** Override indices *)

Lemma norm_index_valid (n : nat) (i : Z) :
  (- Z.of_nat n <= i < Z.of_nat n)%Z -> norm_index n i = Return (wrap n i).
Proof.
  intros H. unfold norm_index.
  replace ((- Z.of_nat n <=? i) && (i <? Z.of_nat n))%Z with true; [reflexivity |].
  symmetry. apply andb_true_intro. split; [apply Z.leb_le | apply Z.ltb_lt]; lia.
Qed.

Lemma norm_index_invalid (n : nat) (i : Z) :
  ~ (- Z.of_nat n <= i < Z.of_nat n)%Z -> norm_index n i = Raise IndexError.
Proof.
  intros H. unfold norm_index.
  destruct ((- Z.of_nat n <=? i) && (i <? Z.of_nat n))%Z eqn:E; [| reflexivity].
  apply andb_prop in E. destruct E as [E1 E2].
  apply Z.leb_le in E1. apply Z.ltb_lt in E2. lia.
Qed.

Lemma norm_pairs_outcome (n : nat) (idx : list (Z * Z)) :
  let valid (i : Z) := (- Z.of_nat n <= i < Z.of_nat n)%Z in
  ((forall p, In p idx -> valid (fst p) /\ valid (snd p)) ->
   exists ps, norm_pairs n n idx = Return ps) /\
  ((exists p, In p idx /\ ~ (valid (fst p) /\ valid (snd p))) ->
   norm_pairs n n idx = Raise IndexError).
Proof.
  intros valid. induction idx as [| [i j] rest [IHok IHbad]]; simpl.
  - split; [now eexists | intros (p & [] & _)].
  - split.
    + intros Hall. destruct (Hall (i, j) (or_introl eq_refl)) as [Hi Hj]. simpl in Hi, Hj.
      rewrite (norm_index_valid _ Hi), (norm_index_valid _ Hj). simpl.
      destruct IHok as [ps Hps]; [intros p Hp; apply Hall; now right |].
      rewrite Hps. simpl. now eexists.
    + intros (p & Hin & Hbad).
      destruct (Z_le_dec (- Z.of_nat n) i) as [Hi1 |];
        [destruct (Z_lt_dec i (Z.of_nat n)) as [Hi2 |] |];
        try (rewrite norm_index_invalid by lia; reflexivity).
      rewrite (norm_index_valid n (conj Hi1 Hi2)). simpl.
      destruct (Z_le_dec (- Z.of_nat n) j) as [Hj1 |];
        [destruct (Z_lt_dec j (Z.of_nat n)) as [Hj2 |] |];
        try (rewrite norm_index_invalid by lia; reflexivity).
      rewrite (norm_index_valid n (conj Hj1 Hj2)). simpl.
      destruct Hin as [<- | Hin].
      * exfalso. apply Hbad. simpl. unfold valid. lia.
      * rewrite IHbad by (exists p; tauto). reflexivity.
Qed.

Section OverrideIndices.
Context {ext : Externals}.

(** X9. The force-off list alone, applied to an (n,n) adjacency
    matrix: when every index lies in [-n, n) the call returns the matrix
    with the denoted entries cleared and all others unchanged (an empty list
    changes nothing); when some index lies outside, the call raises
    [IndexError]; and an index i below zero denotes position n + i. *)
Theorem off_override_indices (matrix : list (list bool)) (off : list (Z * Z)) (n : nat) :
  rect n n matrix ->
  let valid (i : Z) := (- Z.of_nat n <= i < Z.of_nat n)%Z in
  ((forall p, In p off -> valid (fst p) /\ valid (snd p)) ->
   exists matrix',
     _patch_adjacency_matrix matrix (Some off) None = Return matrix' /\
     rect n n matrix' /\
     forall i j,
       get2 false matrix' i j
       = if in_dec pair_eq_dec (i, j) (map (denotes n) off) then false
         else get2 false matrix i j) /\
  ((exists p, In p off /\ ~ (valid (fst p) /\ valid (snd p))) ->
   _patch_adjacency_matrix matrix (Some off) None = Raise IndexError) /\
  (forall i, valid i ->
     Z.of_nat (wrap n i) = if (i <? 0)%Z then (Z.of_nat n + i)%Z else i).
Proof.
  intros Hr valid.
  destruct (norm_pairs_outcome n off) as [Hok Hbad].
  assert (Hpatch : _patch_adjacency_matrix matrix (Some off) None
                   = assign_pairs matrix off false).
  { unfold _patch_adjacency_matrix. now destruct (assign_pairs matrix off false). }
  assert (Hassign : assign_pairs matrix off false
                    = bind (norm_pairs n n off)
                        (fun ps => Return (fold_left (fun acc p =>
                           set2 acc (fst p) (snd p) false) ps matrix))).
  { unfold assign_pairs. now rewrite (rect_ncols Hr), (proj1 Hr). }
  split; [| split].
  - intros Hall. destruct (Hok Hall) as [ps Hps].
    rewrite Hpatch. eexists. split.
    + rewrite Hassign, Hps. reflexivity.
    + assert (Ha : assign_pairs matrix off false
                   = Return (fold_left (fun acc p => set2 acc (fst p) (snd p) false) ps matrix))
        by (rewrite Hassign, Hps; reflexivity).
      destruct (assign_pairs_spec false false off Hr Ha) as (Hr' & _ & Hget).
      split; [exact Hr' |]. intros i j. destruct (Hget i j) as [Hin Hout].
      destruct (in_dec pair_eq_dec (i, j) (map (denotes n) off)); auto.
  - intros Hex. rewrite Hpatch, Hassign, (Hbad Hex). reflexivity.
  - intros i Hi. unfold wrap. unfold valid in Hi.
    assert (Hn : (0 < Z.of_nat n)%Z) by lia.
    rewrite Z2Nat.id by (apply Z.mod_pos_bound; exact Hn).
    destruct (i <? 0)%Z eqn:E.
    + apply Z.ltb_lt in E.
      rewrite <- (Z.mod_add i 1 (Z.of_nat n)) by lia.
      rewrite Z.mod_small; lia.
    + apply Z.ltb_ge in E. rewrite Z.mod_small; lia.
Qed.

End OverrideIndices.

(** ** Moving all atoms by one vector *)

Lemma vadd_nil_r (t : list R) : vadd t [] = [].
Proof. now destruct t. Qed.

Lemma length_vadd (t u : list R) :
  length u <= length t -> length (vadd t u) = length u.
Proof.
  revert u. induction t as [| x t IH]; intros [| y u] H; simpl in *; try lia.
  rewrite IH; lia.
Qed.

Lemma vsub_vadd (t u v : list R) :
  length u <= length t -> length v <= length t ->
  vsub (vadd t u) (vadd t v) = vsub u v.
Proof.
  revert u v. induction t as [| x t IH]; intros [| y u] [| z v] Hu Hv; simpl in *;
    try reflexivity; try lia.
  rewrite IH by lia. f_equal. ring.
Qed.

Lemma chunks_full_length {A : Type} (n k : nat) (l : list A) :
  n * k <= length l -> Forall (fun r => length r = k) (chunks n k l).
Proof.
  revert l. induction n as [| n IH]; intros l H; simpl; constructor.
  - rewrite length_firstn. lia.
  - apply IH. rewrite length_skipn. lia.
Qed.

Lemma chunks_concat {A : Type} (k : nat) (ls : list (list A)) :
  Forall (fun r => length r = k) ls -> chunks (length ls) k (concat ls) = ls.
Proof.
  induction 1 as [| r ls Hr _ IH]; simpl; [reflexivity |].
  assert (Hf : firstn k (r ++ concat ls) = r).
  { rewrite <- Hr, firstn_app, Nat.sub_diag, firstn_all. simpl. apply app_nil_r. }
  assert (Hs : skipn k (r ++ concat ls) = concat ls).
  { rewrite <- Hr, skipn_app, Nat.sub_diag, skipn_all. reflexivity. }
  now rewrite Hf, Hs, IH.
Qed.

Lemma rows_translate (t : list R) (coord : ndarray) (n : nat) :
  shape coord = [n; 3] -> length (data coord) = n * 3 -> length t = 3 ->
  rows (translate t coord) = map (vadd t) (rows coord) /\
  Forall (fun r => length r = 3) (rows coord).
Proof.
  intros Hsh Hdata Ht.
  assert (Hrows : Forall (fun r => length r = 3) (rows coord)).
  { unfold rows. rewrite Hsh. apply chunks_full_length. simpl. lia. }
  split; [| exact Hrows].
  unfold rows at 1, translate. cbn [shape data]. rewrite Hsh. cbn [nth].
  assert (Hlen : length (map (vadd t) (rows coord)) = n)
    by (rewrite length_map; apply (length_rows coord Hsh)).
  rewrite <- Hlen at 1. apply chunks_concat.
  rewrite Forall_forall in *. intros r Hr. apply in_map_iff in Hr.
  destruct Hr as (r' & <- & Hr'). rewrite length_vadd; rewrite (Hrows r' Hr'); lia.
Qed.

Section Translation.
Context {ext : Externals}.

(** X10. Moving all atoms of a well-formed (n,3) coordinate array
    by one vector changes neither the Hessian nor the Kirchhoff matrix nor
    the pairs, for all overrides, when the cell list is not used.  Numbers
    are exact reals here. *)
Theorem matrices_are_translation_invariant (coord : ndarray) (ff : ForceField)
    (use_cell_list : bool) (off on : option (list (Z * Z))) (t : list R) (n : nat) :
  shape coord = [n; 3] ->
  length (data coord) = n * 3 ->
  length t = 3 ->
  (cutoff_distance ff <> None -> use_cell_list = false) ->
  compute_hessian (translate t coord) ff use_cell_list off on
    = compute_hessian coord ff use_cell_list off on /\
  compute_kirchhoff (translate t coord) ff use_cell_list off on
    = compute_kirchhoff coord ff use_cell_list off on.
Proof.
  intros Hsh Hdata Ht Hbrute.
  destruct (rows_translate t coord Hsh Hdata Ht) as [Hrows Hlen3].
  rewrite Forall_forall in Hlen3.
  assert (Hshape : shape (translate t coord) = shape coord) by reflexivity.
  assert (Hle : forall i, length (nth i (rows coord) []) <= length t).
  { intros i. rewrite Ht. destruct (Nat.lt_ge_cases i (length (rows coord))) as [Hi | Hi].
    - rewrite (Hlen3 _ (nth_In _ _ Hi)). lia.
    - rewrite nth_overflow by assumption. simpl. lia. }
  assert (Hnth : forall i, nth i (map (vadd t) (rows coord)) [] = vadd t (nth i (rows coord) [])).
  { intros i. rewrite <- (vadd_nil_r t) at 1. apply map_nth. }
  assert (Hdm : map (fun ci => map (fun cj => displacement cj ci) (map (vadd t) (rows coord)))
                    (map (vadd t) (rows coord))
                = map (fun ci => map (fun cj => displacement cj ci) (rows coord)) (rows coord)).
  { rewrite map_map. apply map_ext_in. intros ci Hci. rewrite map_map.
    apply map_ext_in. intros cj Hcj. unfold displacement.
    apply vsub_vadd; [rewrite (Hlen3 ci Hci) | rewrite (Hlen3 cj Hcj)]; lia. }
  assert (Hidx : forall pairs,
            index_displacement (map (vadd t) (rows coord)) pairs
            = index_displacement (rows coord) pairs).
  { intros pairs. unfold index_displacement. apply map_ext. intros p.
    rewrite !Hnth. unfold displacement. apply vsub_vadd; apply Hle. }
  assert (Hp : _prepare_values_for_interaction_matrix (translate t coord) ff use_cell_list
                 off on
               = _prepare_values_for_interaction_matrix coord ff use_cell_list off on).
  { unfold _prepare_values_for_interaction_matrix, ndim.
    rewrite Hshape, Hrows, Hdm.
    destruct (cutoff_distance ff) as [c |] eqn:Ec.
    - rewrite Hbrute by discriminate. reflexivity.
    - cbn [bind].
      destruct (_patch_adjacency_matrix _ off on) as [adj' |]; cbn [bind]; [| reflexivity].
      now rewrite Hidx. }
  unfold compute_hessian, compute_kirchhoff, len. now rewrite Hp, Hshape.
Qed.

End Translation.

(** ** Model state: reads and caches *)

Lemma cache_extension_refl (s : ANM) : cache_extension s s.
Proof. unfold cache_extension. repeat split; auto. Qed.

Lemma cache_extension_trans (s1 s2 s3 : ANM) :
  cache_extension s1 s2 -> cache_extension s2 s3 -> cache_extension s1 s3.
Proof.
  unfold cache_extension.
  intros (A1 & A2 & A3 & A4 & A5 & A6 & A7 & A8 & A9)
         (B1 & B2 & B3 & B4 & B5 & B6 & B7 & B8 & B9).
  repeat split; try congruence; auto.
Qed.

Lemma extends_caches_mbind {A B : Type} (c : M A) (k : A -> M B) :
  extends_caches c -> (forall a, extends_caches (k a)) -> extends_caches (mbind c k).
Proof.
  intros Hc Hk s. unfold mbind. specialize (Hc s).
  destruct (c s) as [[a | e] s1]; simpl in *; [| exact Hc].
  eapply cache_extension_trans; [exact Hc | apply Hk].
Qed.

Lemma extends_caches_ret {A : Type} (a : A) : extends_caches (ret a).
Proof. intros s. apply cache_extension_refl. Qed.

Lemma extends_caches_raise {A : Type} (e : exn) : extends_caches (raise (A := A) e).
Proof. intros s. apply cache_extension_refl. Qed.

Lemma extends_caches_lift {A : Type} (c : outcome A) : extends_caches (lift c).
Proof. intros s. apply cache_extension_refl. Qed.

Lemma extends_caches_get : extends_caches get.
Proof. intros s. apply cache_extension_refl. Qed.

Ltac frame_step :=
  first
    [ apply extends_caches_ret
    | apply extends_caches_raise
    | apply extends_caches_lift
    | apply extends_caches_get
    | apply extends_caches_mbind; [| intros ? ] ].

Section Reads.
Context {ext : Externals}.

(** Both mass-weighted names run the getter of [covariance_mw]; it leaves
    the model as it is. *)
Lemma mass_weighted_read (depth : nat) (s : ANM) :
  let result :=
    match depth, _covariance_mw s with
    | S _, Some _ => Return None
    | _, _ => Raise RecursionError
    end in
  getattr depth hessian_mw s = (result, s) /\
  getattr depth covariance_mw s = (result, s).
Proof.
  induction depth as [| d IH]; simpl.
  - split; reflexivity.
  - unfold covariance_mw_fget, mbind, get, ret, lift, modify.
    destruct (_covariance_mw s) eqn:E.
    + split; reflexivity.
    + destruct IH as [IH _]. rewrite IH.
      destruct d; split; reflexivity.
Qed.

Lemma getattr_extends_caches (depth : nat) (name : attr) :
  extends_caches (getattr depth name).
Proof.
  intros s.
  assert (Hmw : forall d n', n' = hessian_mw \/ n' = covariance_mw ->
            cache_extension s (snd (getattr d n' s))).
  { intros d n' [-> | ->];
      [rewrite (proj1 (mass_weighted_read d s)) | rewrite (proj2 (mass_weighted_read d s))];
      apply cache_extension_refl. }
  assert (Hh : forall d, cache_extension s (snd (getattr d hessian s))).
  { intros [| d]; [apply cache_extension_refl |].
    rewrite getattr_unfold. unfold hessian_fget, mbind, get, lift, modify, ret.
    destruct (_hessian s) eqn:Eh; [apply cache_extension_refl |].
    destruct (_covariance s) as [c |] eqn:Ec.
    - destruct (np_linalg_pinv (Some c)); simpl; [| apply cache_extension_refl].
      unfold cache_extension. simpl. repeat split; auto; congruence.
    - destruct (compute_hessian _ _ _ None None); simpl; [| apply cache_extension_refl].
      unfold cache_extension. simpl. repeat split; auto; congruence. }
  destruct depth as [| d]; [apply cache_extension_refl |].
  destruct name.
  - rewrite getattr_unfold. unfold mass_weights_fget, mbind, get, lift, modify, ret.
    destruct (_mass_weights s) eqn:Em; [apply cache_extension_refl |].
    destruct (masses_of (_atoms s)); simpl; [| apply cache_extension_refl].
    unfold cache_extension. simpl. repeat split; auto; congruence.
  - apply Hh.
  - apply Hmw. now left.
  - rewrite getattr_unfold. unfold covariance_fget, mbind, get, lift, modify, ret.
    destruct (_covariance s) eqn:Ec; [apply cache_extension_refl |].
    pose proof (Hh d) as Hd.
    destruct (getattr d hessian s) as [[h | e] s1]; simpl in Hd; [| exact Hd].
    destruct (np_linalg_pinv h); simpl; [| exact Hd].
    destruct Hd as (A1 & A2 & A3 & A4 & A5 & A6 & A7 & A8 & A9).
    unfold cache_extension. simpl. repeat split; auto; congruence.
  - apply Hmw. now right.
Qed.

Lemma eigen_extends_caches (depth : nat) : extends_caches (eigen depth).
Proof.
  unfold eigen. repeat frame_step. apply getattr_extends_caches.
Qed.

Lemma normal_mode_extends_caches (depth : nat) (index : Z) (amplitude : R) (frames : Z)
    (movement : string) :
  extends_caches (normal_mode depth index amplitude frames movement).
Proof.
  unfold normal_mode.
  apply extends_caches_mbind; [apply eigen_extends_caches | intros r].
  repeat frame_step.
  destruct (String.eqb movement "sine"); [frame_step |].
  destruct (String.eqb movement "triangle"); frame_step.
Qed.

Lemma linear_response_extends_caches (depth : nat) (force : ndarray) :
  extends_caches (linear_response depth force).
Proof.
  unfold linear_response.
  apply extends_caches_mbind; [frame_step | intros self].
  apply extends_caches_mbind.
  - destruct (ndim force =? 2).
    + repeat frame_step. destruct (negb _); frame_step.
    + destruct (ndim force =? 1); [| frame_step].
      repeat frame_step. destruct (negb _); frame_step.
  - intros f. apply extends_caches_mbind; [apply getattr_extends_caches | intros c].
    repeat frame_step.
Qed.

Lemma mean_square_fluctuation_extends_caches (depth : nat) :
  extends_caches (mean_square_fluctuation depth).
Proof.
  unfold mean_square_fluctuation.
  apply extends_caches_mbind; [apply getattr_extends_caches | intros c].
  repeat frame_step.
Qed.

Lemma frequencies_extends_caches (depth : nat) : extends_caches (frequencies depth).
Proof.
  unfold frequencies.
  apply extends_caches_mbind; [apply eigen_extends_caches | intros r]. frame_step.
Qed.

Lemma bfactor_extends_caches (depth : nat) : extends_caches (bfactor depth).
Proof.
  unfold bfactor.
  apply extends_caches_mbind; [apply mean_square_fluctuation_extends_caches | intros r].
  frame_step.
Qed.

(** X11. Reading an attribute and calling a method only extends
    the caches of a model, whether the read or call returns or raises: the
    coordinates, atoms, force field and cell-list flag are unchanged, the
    two mass-weighted caches are unchanged, and a matrix that was cached as
    [mass_weights], [hessian] or [covariance] is still cached. *)
Theorem reads_and_methods_only_extend_caches (depth : nat) (s : ANM) :
  (forall name, cache_extension s (snd (getattr depth name s))) /\
  cache_extension s (snd (eigen depth s)) /\
  (forall index amplitude frames movement,
     cache_extension s (snd (normal_mode depth index amplitude frames movement s))) /\
  (forall force, cache_extension s (snd (linear_response depth force s))) /\
  cache_extension s (snd (mean_square_fluctuation depth s)) /\
  cache_extension s (snd (frequencies depth s)) /\
  cache_extension s (snd (bfactor depth s)).
Proof.
  split; [intros name; apply getattr_extends_caches |].
  split; [apply eigen_extends_caches |].
  split; [intros; apply normal_mode_extends_caches |].
  split; [intros; apply linear_response_extends_caches |].
  split; [apply mean_square_fluctuation_extends_caches |].
  split; [apply frequencies_extends_caches | apply bfactor_extends_caches].
Qed.

Lemma covariance_read_cached (d : nat) (s : ANM) (c : ndarray) :
  _covariance s = Some c ->
  getattr (S d) covariance s = (Return (Some c), s).
Proof.
  intros Hc. rewrite getattr_unfold.
  unfold covariance_fget, mbind, get, ret. rewrite Hc. simpl. now rewrite Hc.
Qed.

Lemma mass_weights_read_cached (d : nat) (s : ANM) (w : ndarray) :
  _mass_weights s = Some w ->
  getattr (S d) mass_weights s = (Return (Some w), s).
Proof.
  intros Hw. rewrite getattr_unfold.
  unfold mass_weights_fget, mbind, get, ret. rewrite Hw. simpl. now rewrite Hw.
Qed.

(** A successful read of [hessian] returns a matrix, which is then
    cached. *)
Lemma hessian_read_returns (k : nat) (s s' : ANM) (v : pyval) :
  getattr k hessian s = (Return v, s') ->
  exists h, v = Some h /\ _hessian s' = Some h.
Proof.
  destruct k as [| d]; [discriminate |].
  rewrite getattr_unfold. unfold hessian_fget, mbind, get, lift, modify, ret.
  destruct (_hessian s) as [h |] eqn:Eh.
  - rewrite Eh. intros H. injection H as <- <-. now exists h.
  - destruct (_covariance s) as [c |].
    + destruct (np_linalg_pinv (Some c)) as [h |]; simpl; [| discriminate].
      intros H. injection H as <- <-. now exists h.
    + destruct (compute_hessian _ _ _ None None) as [r |]; simpl; [| discriminate].
      intros H. injection H as <- <-. now exists (fst r).
Qed.

Lemma covariance_read_returns (k : nat) (s s' : ANM) (v : pyval) :
  getattr k covariance s = (Return v, s') ->
  exists c, v = Some c /\ _covariance s' = Some c.
Proof.
  destruct k as [| d]; [discriminate |].
  rewrite getattr_unfold. unfold covariance_fget, mbind, get, lift, modify, ret.
  destruct (_covariance s) as [c |] eqn:Ec.
  - rewrite Ec. intros H. injection H as <- <-. now exists c.
  - destruct (getattr d hessian s) as [[h | e] s1]; [| discriminate].
    destruct (np_linalg_pinv h) as [c |]; simpl; [| discriminate].
    intros H. injection H as <- <-. now exists c.
Qed.

Lemma mass_weights_read_returns (k : nat) (s s' : ANM) (v : pyval) :
  getattr k mass_weights s = (Return v, s') ->
  exists w, v = Some w /\ _mass_weights s' = Some w.
Proof.
  destruct k as [| d]; [discriminate |].
  rewrite getattr_unfold. unfold mass_weights_fget, mbind, get, lift, modify, ret.
  destruct (_mass_weights s) as [w |] eqn:Ew.
  - rewrite Ew. intros H. injection H as <- <-. now exists w.
  - destruct (masses_of (_atoms s)) as [m |]; simpl; [| discriminate].
    intros H. injection H as <- <-. now eexists.
Qed.

(** X12. A read of [hessian], [covariance] or [mass_weights] that
    returns, returns a matrix (never [None]), leaves that matrix in the
    cache, and reading the attribute again returns the same matrix without
    changing the model. *)
Theorem successful_reads_are_repeatable (k d : nat) (s s' : ANM) (v : pyval) :
  (getattr k hessian s = (Return v, s') ->
   exists h, v = Some h /\ _hessian s' = Some h /\
             getattr (S d) hessian s' = (Return v, s')) /\
  (getattr k covariance s = (Return v, s') ->
   exists c, v = Some c /\ _covariance s' = Some c /\
             getattr (S d) covariance s' = (Return v, s')) /\
  (getattr k mass_weights s = (Return v, s') ->
   exists w, v = Some w /\ _mass_weights s' = Some w /\
             getattr (S d) mass_weights s' = (Return v, s')).
Proof.
  split; [| split]; intros H.
  - destruct (hessian_read_returns _ _ H) as (h & -> & Hh).
    exists h. repeat split; [exact Hh | now apply hessian_read_cached].
  - destruct (covariance_read_returns _ _ H) as (c & -> & Hc).
    exists c. repeat split; [exact Hc | now apply covariance_read_cached].
  - destruct (mass_weights_read_returns _ _ H) as (w & -> & Hw).
    exists w. repeat split; [exact Hw | now apply mass_weights_read_cached].
Qed.

(** X13. Validation is deferred to the first read: for a model with
    nothing cached, as the constructor leaves it, when [compute_hessian]
    raises for the model's coordinates and force field, the same exception
    is raised by reading [hessian] or [covariance] and by [eigen],
    [frequencies], [mean_square_fluctuation], [bfactor], [normal_mode] and
    (for a force of a valid shape) [linear_response], and the model is left
    as it was, so that every later read fails in the same way. *)
Theorem hessian_failure_propagates (s : ANM) (e : exn) (d : nat) :
  _hessian s = None ->
  _covariance s = None ->
  compute_hessian (_coord s) (_ff s) (_use_cell_list s) None None = Raise e ->
  getattr (S d) hessian s = (Raise e, s) /\
  getattr (S (S d)) covariance s = (Raise e, s) /\
  eigen (S d) s = (Raise e, s) /\
  frequencies (S d) s = (Raise e, s) /\
  mean_square_fluctuation (S (S d)) s = (Raise e, s) /\
  bfactor (S (S d)) s = (Raise e, s) /\
  (forall index amplitude frames movement,
     normal_mode (S d) index amplitude frames movement s = (Raise e, s)) /\
  (forall force n,
     len (_coord s) = Return n ->
     shape force = [n; 3] \/ shape force = [n * 3] ->
     linear_response (S (S d)) force s = (Raise e, s)).
Proof.
  intros Hh Hc He.
  assert (Hread : forall k, getattr (S k) hessian s = (Raise e, s)).
  { intros k. rewrite getattr_unfold.
    unfold hessian_fget, mbind, get, lift, modify, ret. now rewrite Hh, Hc, He. }
  assert (Hcov : forall k, getattr (S (S k)) covariance s = (Raise e, s)).
  { intros k. rewrite getattr_unfold.
    unfold covariance_fget, mbind, get, lift, modify, ret. now rewrite Hc, Hread. }
  assert (Heig : eigen (S d) s = (Raise e, s)).
  { unfold eigen, mbind. now rewrite Hread. }
  assert (Hmsf : mean_square_fluctuation (S (S d)) s = (Raise e, s)).
  { unfold mean_square_fluctuation, mbind. now rewrite Hcov. }
  split; [apply Hread |]. split; [apply Hcov |]. split; [exact Heig |].
  split; [unfold frequencies, mbind; now rewrite Heig |].
  split; [exact Hmsf |].
  split; [unfold bfactor, mbind; now rewrite Hmsf |].
  split.
  - intros. unfold normal_mode, mbind. now rewrite Heig.
  - intros force n Hlen Hsh. unfold linear_response, mbind, get, lift, ret, raise, ndim.
    rewrite Hlen. destruct Hsh as [Hsh | Hsh]; rewrite Hsh; cbn [length Nat.eqb nth].
    + rewrite shape_eqb_true by reflexivity. cbn [negb]. now rewrite Hcov.
    + rewrite Nat.eqb_refl. cbn [negb]. now rewrite Hcov.
Qed.

(** X14. After [model.covariance = C] with a (3n,3n) matrix [C],
    reading [model.covariance] returns [C] and leaves the model as it is,
    and reading [model.hessian] returns the pseudo-inverse of [C] and caches
    it (the read fails only if the pseudo-inverse does); [C] stays the
    cached covariance after that. *)
Theorem covariance_roundtrip_then_hessian (C : ndarray) (s : ANM) (n d : nat) :
  len (_coord s) = Return n ->
  shape C = [n * 3; n * 3] ->
  let s1 := set_hessian None (set_covariance (Some C) s) in
  setattr covariance C s = (Return tt, s1) /\
  getattr (S d) covariance s1 = (Return (Some C), s1) /\
  getattr (S d) hessian s1 =
    match np_linalg_pinv (Some C) with
    | Return h => (Return (Some h), set_hessian (Some h) s1)
    | Raise e => (Raise e, s1)
    end /\
  (forall h, getattr (S d) covariance (set_hessian (Some h) s1)
             = (Return (Some C), set_hessian (Some h) s1)).
Proof.
  intros Hlen Hsh s1.
  destruct (setter_ok_unfold C s Hlen Hsh) as (_ & Hc & _).
  split; [exact Hc |].
  split; [now apply covariance_read_cached |].
  split.
  - rewrite getattr_unfold. unfold hessian_fget, mbind, get, lift, modify, ret.
    simpl. destruct (np_linalg_pinv (Some C)); reflexivity.
  - intros h. now apply covariance_read_cached.
Qed.

(** X15. An assignment [model.hessian_mw = value] of a (3n,3n)
    matrix runs the setter of lines 163-174: the value becomes the cached
    mass-weighted covariance, the mass weights and the mass-weighted Hessian
    cache are cleared, and reading [hessian_mw] or [covariance_mw]
    afterwards returns [None].  [covariance_mw] itself cannot be assigned:
    [AttributeError], with the model unchanged. *)
Theorem hessian_mw_assignment_fills_covariance_mw (value : ndarray) (s : ANM) (n d : nat) :
  len (_coord s) = Return n ->
  shape value = [n * 3; n * 3] ->
  let s' := set_hessian_mw None (set_mass_weights None (set_covariance_mw (Some value) s)) in
  setattr hessian_mw value s = (Return tt, s') /\
  _covariance_mw s' = Some value /\ _hessian_mw s' = None /\ _mass_weights s' = None /\
  getattr (S d) hessian_mw s' = (Return None, s') /\
  getattr (S d) covariance_mw s' = (Return None, s') /\
  setattr covariance_mw value s = (Raise AttributeError, s).
Proof.
  intros Hlen Hsh s'.
  destruct (setter_ok_unfold value s Hlen Hsh) as (_ & _ & _ & Hm).
  split; [exact Hm |]. split; [reflexivity |]. split; [reflexivity |].
  split; [reflexivity |].
  destruct (mass_weighted_read (S d) s') as [H1 H2].
  split; [exact H1 |]. split; [exact H2 |].
  now rewrite setattr_unfold.
Qed.

(** X16. No sequence of attribute reads, attribute assignments and
    method calls on a constructed model, whatever their arguments and
    whether they return or raise, changes its coordinates, atoms, force
    field or cell-list flag, and none leaves a matrix in the mass-weighted
    Hessian cache. *)
Theorem operations_keep_inputs_and_never_cache_hessian_mw
    (atoms : atoms_t) (ff : ForceField) (use_cell_list : bool)
    (ops : list (nat * operation)) :
  let s := fold_left (fun s o => perform (fst o) (snd o) s) ops
             (__init__ atoms ff use_cell_list) in
  _coord s = struc_coord atoms /\ _atoms s = atoms /\ _ff s = ff /\
  _use_cell_list s = use_cell_list /\ _hessian_mw s = None.
Proof.
  set (inv := fun s : ANM =>
                _coord s = struc_coord atoms /\ _atoms s = atoms /\ _ff s = ff /\
                _use_cell_list s = use_cell_list /\ _hessian_mw s = None).
  assert (Hstep : forall k o s, inv s -> inv (perform k o s)).
  { intros k o s (I1 & I2 & I3 & I4 & I5).
    assert (Hext : forall s', cache_extension s s' -> inv s').
    { intros s' (A1 & A2 & A3 & A4 & A5 & _). unfold inv. repeat split; congruence. }
    destruct o; simpl.
    - apply Hext, getattr_extends_caches.
    - rewrite setattr_unfold.
      destruct name;
        unfold mass_weights_fset, hessian_fset, covariance_mw_fset, covariance_fset,
          check_shape, raise, mbind, get, lift, modify, ret;
        destruct (expected_shape s); simpl;
        try destruct (shape_eqb (shape value) a); simpl;
        unfold inv; simpl; repeat split; assumption.
    - apply Hext, eigen_extends_caches.
    - apply Hext, normal_mode_extends_caches.
    - apply Hext, linear_response_extends_caches.
    - apply Hext, mean_square_fluctuation_extends_caches.
    - apply Hext, frequencies_extends_caches.
    - apply Hext, bfactor_extends_caches. }
  intros s. subst s.
  assert (Hinit : inv (__init__ atoms ff use_cell_list)) by (unfold inv; repeat split).
  revert Hinit. generalize (__init__ atoms ff use_cell_list).
  induction ops as [| o ops IH]; intros s0 H0; simpl; [exact H0 |].
  apply IH. now apply Hstep.
Qed.

End Reads.

(** ** Normal modes: waveforms, frames and rejected arguments *)

Lemma Rmax_list_In (l : list R) (x : R) :
  In x l -> (forall y, In y l -> (y <= x)%R) -> (0 <= x)%R ->
  fold_right Rmax 0%R l = x.
Proof.
  intros Hin Hle H0. apply Rle_antisym.
  - apply Rmax_list_le; [exact H0 | exact Hle].
  - now apply Rmax_list_ge.
Qed.

Lemma floor_bounds (x : R) : (NpOps.floor x <= x < NpOps.floor x + 1)%R.
Proof.
  unfold NpOps.floor. destruct (base_Int_part x) as [H1 H2]. lra.
Qed.

Lemma triangle_bounded (t : R) : (Rabs (triangle t) <= 1)%R.
Proof.
  unfold triangle. pose proof (floor_bounds (t + 0.5)) as [H1 H2].
  set (u := (t - NpOps.floor (t + 0.5))%R) in *.
  assert (Hu : (-0.5 <= u < 0.5)%R) by (unfold u; lra).
  assert (Ha : (0 <= Rabs (2 * u) <= 1)%R).
  { split; [apply Rabs_pos |]. apply Rabs_le. lra. }
  apply Rabs_le. lra.
Qed.

Lemma triangle_0 : triangle 0 = (-1)%R.
Proof.
  unfold triangle. pose proof (floor_bounds (0 + 0.5)) as [H1 H2].
  assert (Hf : NpOps.floor (0 + 0.5) = 0%R).
  { unfold NpOps.floor in *.
    assert (Hz : (Int_part (0 + 0.5) = 0)%Z).
    { assert (H3 : (-1 < IZR (Int_part (0 + 0.5)) < 1)%R) by lra.
      destruct H3 as [H3 H4]. apply lt_IZR in H3. apply lt_IZR in H4. lia. }
    now rewrite Hz. }
  rewrite Hf. replace (2 * (0 - 0))%R with 0%R by ring. rewrite Rabs_R0. lra.
Qed.

Lemma sine_bounded (t : R) : (Rabs (sine t) <= 1)%R.
Proof.
  unfold sine. apply Rabs_le. pose proof (SIN_bound (t * 2 * PI)). lra.
Qed.

Lemma sine_quarter : sine (1 / 4) = 1%R.
Proof.
  unfold sine. replace (1 / 4 * 2 * PI)%R with (PI / 2)%R by field. apply sin_PI2.
Qed.

Section NormalModeFrames.
Context {ext : Externals}.

(** What [normal_mode] does once the eigenvector has been selected and
    reshaped and its largest row length [m] taken: the frames are the
    rescaled mode vectors times the samples of the waveform. *)
Lemma normal_mode_run (s s' : ANM) (d : nat) (index : Z) (amplitude m : R) (frames : Z)
    (movement : string) (eig_values eigenvectors row mode : ndarray) :
  eigen d s = (Return (eig_values, eigenvectors), s') ->
  NpOps.getitem eigenvectors index = Return row ->
  NpOps.reshape_rows3 row = Return mode ->
  NpOps.max (vector_lengths (rows mode)) = Return m ->
  let time := tabulate (Z.to_nat frames) (fun k => (INR k * (1 / IZR frames) + 0)%R) in
  let frames_of wave :=
    map (fun x => map (map (fun y => (x * y)%R))
                    (map (map (fun y => (y * (amplitude / m))%R)) (rows mode)))
        (map wave time) in
  normal_mode d index amplitude frames movement s
  = if (frames <? 0)%Z then (Raise ValueError, s')
    else if String.eqb movement "sine" then (Return (frames_of sine), s')
    else if String.eqb movement "triangle" then (Return (frames_of triangle), s')
    else (Raise ValueError, s').
Proof.
  intros Heig Hrow Hmode Hmax time frames_of.
  unfold normal_mode, mbind, lift, ret, raise. rewrite Heig. cbn [snd].
  rewrite Hrow, Hmode, Hmax. unfold NpOps.linspace01.
  destruct (frames <? 0)%Z; [reflexivity |].
  destruct (String.eqb movement "sine"); [reflexivity |].
  destruct (String.eqb movement "triangle"); reflexivity.
Qed.

(** The largest magnitude over the frames of a waveform bounded by 1. *)
Lemma max_displacement_bounded (amplitude m : R) (mode_vectors : list (list R))
    (samples : list R) :
  NpOps.max (vector_lengths mode_vectors) = Return m ->
  (0 < m)%R -> (0 <= amplitude)%R ->
  (forall x, In x samples -> (Rabs x <= 1)%R) ->
  let disp := map (fun x => map (map (fun y => (x * y)%R))
                              (map (map (fun y => (y * (amplitude / m))%R)) mode_vectors))
                  samples in
  (max_displacement disp <= amplitude)%R /\
  ((exists x, In x samples /\ Rabs x = 1%R) -> max_displacement disp = amplitude).
Proof.
  intros Hmax Hm Ha Hb disp. unfold disp. rewrite max_displacement_frames.
  replace (map (map (fun y => (y * (amplitude / m))%R)) mode_vectors)
    with (map (map (fun y => (amplitude / m * y)%R)) mode_vectors)
    by (apply map_ext; intros v; apply map_ext; intros y; ring).
  rewrite vector_lengths_scale, Rmax_list_scale by apply Rabs_pos.
  rewrite <- (np_max_lengths _ Hmax).
  rewrite Rabs_pos_eq by (apply Rmult_le_pos; [lra | left; now apply Rinv_0_lt_compat]).
  replace (amplitude / m * m)%R with amplitude by (field; lra).
  assert (Hle : (fold_right Rmax 0 (map Rabs samples) <= 1)%R).
  { apply Rmax_list_le; [lra |]. intros y Hy. apply in_map_iff in Hy.
    destruct Hy as (x & <- & Hx). now apply Hb. }
  split.
  - pose proof (Rmax_list_nonneg (map Rabs samples)). nra.
  - intros (x & Hx & H1).
    rewrite (@Rmax_list_In (map Rabs samples) 1%R); [ring | | | lra].
    + rewrite <- H1. now apply in_map.
    + intros y Hy. apply in_map_iff in Hy. destruct Hy as (x' & <- & Hx'). now apply Hb.
Qed.

(** X17. For a selected eigenvector that is not zero, a
    non-negative amplitude and [frames >= 0], [normal_mode] returns, for
    both waveforms, exactly [frames] frames with one vector per row of the
    reshaped mode, and no displacement magnitude in any frame exceeds the
    amplitude. *)
Theorem normal_mode_stays_within_amplitude (s s' : ANM) (d : nat) (index : Z)
    (amplitude m : R) (frames : Z) (movement : string)
    (eig_values eigenvectors row mode : ndarray) :
  eigen d s = (Return (eig_values, eigenvectors), s') ->
  NpOps.getitem eigenvectors index = Return row ->
  NpOps.reshape_rows3 row = Return mode ->
  NpOps.max (vector_lengths (rows mode)) = Return m ->
  (0 < m)%R -> (0 <= amplitude)%R -> (0 <= frames)%Z ->
  movement = "sine"%string \/ movement = "triangle"%string ->
  exists disp,
    normal_mode d index amplitude frames movement s = (Return disp, s') /\
    length disp = Z.to_nat frames /\
    (forall frame, In frame disp -> length frame = length (rows mode)) /\
    (max_displacement disp <= amplitude)%R.
Proof.
  intros Heig Hrow Hmode Hmax Hm Ha Hf Hmov.
  pose proof (@normal_mode_run s s' d index amplitude m frames movement eig_values
                eigenvectors row mode Heig Hrow Hmode Hmax) as Hrun.
  cbv zeta in Hrun.
  assert (Hneg : (frames <? 0)%Z = false) by (apply Z.ltb_ge; lia).
  rewrite Hneg in Hrun.
  destruct Hmov as [-> | ->]; cbn [String.eqb Ascii.eqb Bool.eqb] in Hrun;
    (eexists; split; [exact Hrun |]; split; [| split]).
  - now rewrite !length_map, length_tabulate.
  - intros frame Hin. apply in_map_iff in Hin. destruct Hin as (x & <- & _).
    now rewrite !length_map.
  - apply (@max_displacement_bounded amplitude m (rows mode) _ Hmax Hm Ha).
    intros x Hx. apply in_map_iff in Hx. destruct Hx as (t & <- & _). apply sine_bounded.
  - now rewrite !length_map, length_tabulate.
  - intros frame Hin. apply in_map_iff in Hin. destruct Hin as (x & <- & _).
    now rewrite !length_map.
  - apply (@max_displacement_bounded amplitude m (rows mode) _ Hmax Hm Ha).
    intros x Hx. apply in_map_iff in Hx. destruct Hx as (t & <- & _). apply triangle_bounded.
Qed.

(** X18. The largest displacement magnitude over the frames of
    [normal_mode] is exactly the amplitude
    - with the triangle waveform, for every positive number of frames (the
      waveform is -1 at time 0), and
    - with the sine waveform, when the number of frames is a positive
      multiple of four (one frame is then a quarter period). *)
Theorem normal_mode_reaches_amplitude (s s' : ANM) (d : nat) (index : Z)
    (amplitude m : R) (frames : Z) (movement : string)
    (eig_values eigenvectors row mode : ndarray) :
  eigen d s = (Return (eig_values, eigenvectors), s') ->
  NpOps.getitem eigenvectors index = Return row ->
  NpOps.reshape_rows3 row = Return mode ->
  NpOps.max (vector_lengths (rows mode)) = Return m ->
  (0 < m)%R -> (0 <= amplitude)%R ->
  (movement = "triangle"%string /\ (0 < frames)%Z) \/
  (movement = "sine"%string /\ exists q, (0 < q)%Z /\ frames = (4 * q)%Z) ->
  exists disp,
    normal_mode d index amplitude frames movement s = (Return disp, s') /\
    max_displacement disp = amplitude.
Proof.
  intros Heig Hrow Hmode Hmax Hm Ha Hmov.
  pose proof (@normal_mode_run s s' d index amplitude m frames movement eig_values
                eigenvectors row mode Heig Hrow Hmode Hmax) as Hrun.
  cbv zeta in Hrun.
  assert (Hneg : (frames <? 0)%Z = false).
  { apply Z.ltb_ge. destruct Hmov as [[_ H] | [_ (q & Hq & ->)]]; lia. }
  rewrite Hneg in Hrun.
  destruct Hmov as [[-> Hf] | [-> (q & Hq & ->)]];
    cbn [String.eqb Ascii.eqb Bool.eqb] in Hrun;
    (eexists; split; [exact Hrun |]).
  - apply (@max_displacement_bounded amplitude m (rows mode) _ Hmax Hm Ha).
    + intros x Hx. apply in_map_iff in Hx. destruct Hx as (t & <- & _).
      apply triangle_bounded.
    + exists (triangle 0). split.
      * apply in_map_iff. exists 0%R. split; [reflexivity |].
        unfold tabulate. apply in_map_iff. exists 0. split; [simpl; ring |].
        apply in_seq. lia.
      * rewrite triangle_0. rewrite Rabs_left by lra. lra.
  - apply (@max_displacement_bounded amplitude m (rows mode) _ Hmax Hm Ha).
    + intros x Hx. apply in_map_iff in Hx. destruct Hx as (t & <- & _).
      apply sine_bounded.
    + exists (sine (1 / 4)). split.
      * apply in_map_iff. exists (1 / 4)%R. split; [reflexivity |].
        unfold tabulate. apply in_map_iff. exists (Z.to_nat q). split.
        -- rewrite INR_IZR_INZ, Z2Nat.id by lia. rewrite mult_IZR.
           assert (IZR q <> 0%R) by (apply not_0_IZR; lia). field. assumption.
        -- apply in_seq. lia.
      * rewrite sine_quarter. apply Rabs_R1.
Qed.

(** X19. Once the eigenvectors are computed, [normal_mode] raises
    [IndexError] for an index outside the eigenvector rows, and, for a
    selected mode, [ValueError] for a negative number of frames and for a
    movement that is neither ["sine"] nor ["triangle"]; with zero frames it
    returns the empty trajectory.  In all these cases the model is left as
    [eigen] left it, that is with the Hessian cached. *)
Theorem normal_mode_rejected_arguments (s s' : ANM) (d : nat) (index : Z) (amplitude : R)
    (frames : Z) (movement : string) (eig_values eigenvectors : ndarray) :
  eigen d s = (Return (eig_values, eigenvectors), s') ->
  (forall k rest, shape eigenvectors = k :: rest ->
     ~ (- Z.of_nat k <= index < Z.of_nat k)%Z ->
     normal_mode d index amplitude frames movement s = (Raise IndexError, s')) /\
  (forall row mode m,
     NpOps.getitem eigenvectors index = Return row ->
     NpOps.reshape_rows3 row = Return mode ->
     NpOps.max (vector_lengths (rows mode)) = Return m ->
     ((frames < 0)%Z ->
      normal_mode d index amplitude frames movement s = (Raise ValueError, s')) /\
     (movement <> "sine"%string -> movement <> "triangle"%string ->
      normal_mode d index amplitude frames movement s = (Raise ValueError, s')) /\
     (frames = 0%Z -> movement = "sine"%string \/ movement = "triangle"%string ->
      normal_mode d index amplitude frames movement s = (Return [], s'))).
Proof.
  intros Heig. split.
  - intros k rest Hsh Hidx.
    unfold normal_mode, mbind, lift, ret, raise. rewrite Heig. cbn [snd].
    unfold NpOps.getitem. rewrite Hsh.
    unfold norm_index.
    destruct ((- Z.of_nat k <=? index) && (index <? Z.of_nat k))%Z eqn:E; [| reflexivity].
    apply andb_prop in E. destruct E as [E1 E2].
    apply Z.leb_le in E1. apply Z.ltb_lt in E2. lia.
  - intros row mode m Hrow Hmode Hmax.
    pose proof (@normal_mode_run s s' d index amplitude m frames movement eig_values
                  eigenvectors row mode Heig Hrow Hmode Hmax) as Hrun.
    cbv zeta in Hrun. split; [| split].
    + intros Hf. apply Z.ltb_lt in Hf. now rewrite Hf in Hrun.
    + intros H1 H2. apply String.eqb_neq in H1, H2. rewrite H1, H2 in Hrun.
      now destruct (frames <? 0)%Z.
    + intros -> Hmov. cbn [Z.ltb Z.compare Z.to_nat tabulate seq map] in Hrun.
      destruct Hmov as [-> | ->]; exact Hrun.
Qed.

End NormalModeFrames.

(** ** Arrays: chunks, transposition, diagonal *)

Lemma nth_chunks {A : Type} (n k i j : nat) (d : A) (l : list A) :
  i < n -> j < k ->
  nth j (nth i (chunks n k l) []) d = nth (i * k + j) l d.
Proof.
  revert i l. induction n as [| n IH]; intros i l Hi Hj; [lia |].
  destruct i as [| i]; simpl.
  - now rewrite nth_firstn, (proj2 (Nat.ltb_lt j k) Hj).
  - rewrite IH by lia. rewrite nth_skipn. f_equal. lia.
Qed.

Lemma sum_R_three (l : list R) :
  length l <= 3 -> sum_R l = (nth 0 l 0 + nth 1 l 0 + nth 2 l 0)%R.
Proof.
  unfold sum_R. destruct l as [| x [| y [| z [| w l]]]]; simpl; intros H; try lra; lia.
Qed.

Lemma T_data_1d (c i : nat) (row : list R) :
  length (NpOps.T_data [c] row) = c /\
  (i < c -> nth i (NpOps.T_data [c] row) 0%R = nth i row 0%R).
Proof.
  cbn [NpOps.T_data size_of fold_right]. unfold NpOps.cols.
  cbn [tabulate seq map concat]. rewrite app_nil_r, map_map. split.
  - now rewrite length_map, length_chunks.
  - intros Hi.
    rewrite (nth_indep _ 0%R (nth 0 (NpOps.T_data [] []) 0%R))
      by now rewrite length_map, length_chunks.
    rewrite (map_nth (fun r => nth 0 (NpOps.T_data [] r) 0%R)).
    cbn [NpOps.T_data]. rewrite (nth_chunks 0%R row Hi Nat.lt_0_1). f_equal. lia.
Qed.

(** Entry (j,i) of the transpose of a two-dimensional array is its entry
    (i,j). *)
Lemma entry_T (a : ndarray) (r c i j : nat) :
  shape a = [r; c] -> i < r -> j < c ->
  entry (NpOps.T a) j i = entry a i j.
Proof.
  intros Hsh Hi Hj. unfold entry, NpOps.T. rewrite Hsh.
  cbn [shape data rev app nth].
  change (NpOps.T_data [r; c] (data a))
    with (concat (NpOps.cols (size_of [c])
                    (map (NpOps.T_data [c]) (chunks r (size_of [c]) (data a))))).
  replace (size_of [c]) with c by (simpl; lia).
  set (rs := map (NpOps.T_data [c]) (chunks r c (data a))).
  assert (Hrs : length rs = r) by (unfold rs; now rewrite length_map, length_chunks).
  unfold NpOps.cols.
  rewrite (nth_concat_uniform (k := r) 0%R).
  - rewrite (nth_tabulate _ [] Hj).
    rewrite (nth_indep _ 0%R (nth j (@nil R) 0%R)) by now rewrite length_map, Hrs.
    rewrite (map_nth (fun row => nth j row 0%R)).
    unfold rs.
    rewrite (nth_indep _ [] (NpOps.T_data [c] [])) by now rewrite length_map, length_chunks.
    rewrite map_nth.
    rewrite (proj2 (T_data_1d c j _) Hj).
    now apply nth_chunks.
  - rewrite Forall_forall. intros l Hl. unfold tabulate in Hl.
    apply in_map_iff in Hl. destruct Hl as (q & <- & _). now rewrite length_map.
  - now rewrite length_tabulate.
  - exact Hi.
Qed.

Section Eigen.
Context {ext : Externals}.

(** X20. [eigen] returns the eigenvalues of [np.linalg.eigh] on the
    Hessian unchanged, and its eigenvector matrix transposed: for an (r,c)
    matrix, row i of the result is column i of that matrix.  When the
    decomposition raises, [eigen] raises the same exception; either way the
    model is as the read of [hessian] left it. *)
Theorem eigen_returns_eigenvectors_as_rows (s s1 : ANM) (d : nat) (h : ndarray) :
  getattr d hessian s = (Return (Some h), s1) ->
  match np_linalg_eigh h with
  | Return (eig_values, eig_vectors) =>
      exists vt,
        eigen d s = (Return (eig_values, vt), s1) /\
        shape vt = rev (shape eig_vectors) /\
        forall r c, shape eig_vectors = [r; c] ->
          forall i j, i < c -> j < r -> entry vt i j = entry eig_vectors j i
  | Raise e => eigen d s = (Raise e, s1)
  end.
Proof.
  intros Hh. unfold eigen, mbind, lift, ret. rewrite Hh.
  destruct (np_linalg_eigh h) as [[eig_values eig_vectors] |]; [| reflexivity].
  eexists. split; [reflexivity |]. split; [reflexivity |].
  intros r c Hsh i j Hi Hj. cbn [snd]. now apply (entry_T _ Hsh).
Qed.

End Eigen.

(** ** Fluctuations, B-factors and frequencies *)

(** The diagonal of a square matrix, reshaped to rows of three and summed
    along the rows. *)
Lemma diagonal_blocks_summed (C : ndarray) (n : nat) :
  shape C = [n * 3; n * 3] -> 0 < n ->
  exists diag reshape_diag,
    NpOps.diagonal C = Return diag /\
    NpOps.reshape_rows diag n = Return reshape_diag /\
    shape (NpOps.sum_axis1 reshape_diag) = [n] /\
    length (data (NpOps.sum_axis1 reshape_diag)) = n /\
    forall i, i < n ->
      nth i (data (NpOps.sum_axis1 reshape_diag)) 0%R
      = (entry C (i * 3) (i * 3) + entry C (i * 3 + 1) (i * 3 + 1)
         + entry C (i * 3 + 2) (i * 3 + 2))%R.
Proof.
  intros Hsh Hn. unfold NpOps.diagonal. rewrite Hsh.
  cbn [size_of fold_right app tabulate seq map concat]. rewrite app_nil_r, Nat.min_id.
  eexists. eexists. split; [reflexivity |].
  unfold NpOps.reshape_rows. cbn [shape data size_of fold_right].
  rewrite Nat.mul_1_r.
  assert (Hn0 : (n =? 0) = false) by (apply Nat.eqb_neq; lia).
  assert (Hmod : (n * 3) mod n = 0) by (rewrite Nat.mul_comm; apply Nat.Div0.mod_mul).
  assert (Hdiv : n * 3 / n = 3) by (rewrite Nat.mul_comm; apply Nat.div_mul; lia).
  rewrite Hn0, Hmod, Hdiv. cbn [Nat.eqb negb orb].
  split; [reflexivity |].
  unfold NpOps.sum_axis1, rows. cbn [shape data nth].
  split; [reflexivity |].
  split; [now rewrite length_map, length_chunks |].
  intros i Hi.
  set (l := tabulate (n * 3) _).
  rewrite (nth_indep _ 0%R (sum_R [])) by now rewrite length_map, length_chunks.
  rewrite (map_nth sum_R).
  rewrite sum_R_three by apply length_chunk_le.
  rewrite !(nth_chunks 0%R l Hi) by lia.
  assert (Hl : forall q, q < n * 3 -> nth q l 0%R = entry C q q).
  { intros q Hq. unfold l.
    rewrite (nth_tabulate _ 0%R Hq). unfold entry. rewrite Hsh. cbn [nth].
    f_equal. lia. }
  rewrite !Hl by lia. now rewrite Nat.add_0_r.
Qed.

Section Fluctuations.
Context {ext : Externals}.

Lemma mean_square_fluctuation_run (s s1 : ANM) (k n : nat) (C : ndarray) :
  getattr k covariance s = (Return (Some C), s1) ->
  len (_coord s) = Return n ->
  shape C = [n * 3; n * 3] ->
  0 < n ->
  exists msqf,
    mean_square_fluctuation k s = (Return msqf, s1) /\
    shape msqf = [n] /\
    length (data msqf) = n /\
    forall i, i < n ->
      nth i (data msqf) 0%R
      = (entry C (i * 3) (i * 3) + entry C (i * 3 + 1) (i * 3 + 1)
         + entry C (i * 3 + 2) (i * 3 + 2))%R.
Proof.
  intros Hread Hlen Hsh Hn.
  destruct (diagonal_blocks_summed C Hsh Hn) as (diag & rd & Hd & Hr & Hshape & Hlength & Hv).
  assert (Hlen1 : len (_coord s1) = Return n).
  { pose proof (getattr_extends_caches k covariance s) as (Hc & _).
    rewrite Hread in Hc. simpl in Hc. now rewrite Hc. }
  exists (NpOps.sum_axis1 rd). split; [| now repeat split].
  unfold mean_square_fluctuation, mbind, lift, get, ret.
  now rewrite Hread, Hd, Hlen1, Hr.
Qed.

(** X21. For a model of n > 0 atoms whose covariance read returns
    a (3n,3n) matrix, [mean_square_fluctuation] returns an array of n
    elements, the i-th being the sum of the three diagonal entries of the
    i-th diagonal 3x3 block of the covariance; for a model without atoms it
    raises [ValueError] (the inferred dimension of the reshape is
    undetermined).  The model is as the covariance read left it. *)
Theorem mean_square_fluctuation_sums_diagonal_blocks (s s1 : ANM) (k n : nat)
    (C : ndarray) :
  getattr k covariance s = (Return (Some C), s1) ->
  len (_coord s) = Return n ->
  shape C = [n * 3; n * 3] ->
  (0 < n ->
   exists msqf,
     mean_square_fluctuation k s = (Return msqf, s1) /\
     shape msqf = [n] /\
     length (data msqf) = n /\
     forall i, i < n ->
       nth i (data msqf) 0%R
       = (entry C (i * 3) (i * 3) + entry C (i * 3 + 1) (i * 3 + 1)
          + entry C (i * 3 + 2) (i * 3 + 2))%R) /\
  (n = 0 -> mean_square_fluctuation k s = (Raise ValueError, s1)).
Proof.
  intros Hread Hlen Hsh. split.
  - now apply mean_square_fluctuation_run.
  - intros ->.
    assert (Hlen1 : len (_coord s1) = Return 0).
    { pose proof (getattr_extends_caches k covariance s) as (Hc & _).
      rewrite Hread in Hc. simpl in Hc. now rewrite Hc. }
    unfold mean_square_fluctuation, mbind, lift, get, ret.
    rewrite Hread. unfold NpOps.diagonal. rewrite Hsh. now rewrite Hlen1.
Qed.

(** X22. For a model of n > 0 atoms whose covariance read returns
    a (3n,3n) matrix, [bfactor] returns an array of n elements, the i-th
    being 8 PI^2 / 3 times the sum of the three diagonal entries of the
    i-th diagonal 3x3 block of the covariance. *)
Theorem bfactor_scales_the_fluctuations (s s1 : ANM) (k n : nat) (C : ndarray) :
  getattr k covariance s = (Return (Some C), s1) ->
  len (_coord s) = Return n ->
  shape C = [n * 3; n * 3] ->
  0 < n ->
  exists b_factors,
    bfactor k s = (Return b_factors, s1) /\
    shape b_factors = [n] /\
    length (data b_factors) = n /\
    forall i, i < n ->
      nth i (data b_factors) 0%R
      = (8 * PI ^ 2 / 3
         * (entry C (i * 3) (i * 3) + entry C (i * 3 + 1) (i * 3 + 1)
            + entry C (i * 3 + 2) (i * 3 + 2)))%R.
Proof.
  intros Hread Hlen Hsh Hn.
  destruct (@mean_square_fluctuation_run s s1 k n C Hread Hlen Hsh Hn)
    as (msqf & Hm & Hs & Hl & Hv).
  eexists. split; [| split; [| split]].
  - unfold bfactor, mbind, ret. rewrite Hm. reflexivity.
  - exact Hs.
  - cbn [data]. now rewrite length_map.
  - intros i Hi. cbn [data].
    rewrite (nth_indep _ 0%R (8 * PI ^ 2 / 3 * 0)%R) by now rewrite length_map, Hl.
    rewrite (map_nth (fun x => (8 * PI ^ 2 / 3 * x)%R)). now rewrite Hv.
Qed.

(** X23. [frequencies] returns one value per eigenvalue of
    [eigen]: for a non-negative eigenvalue a non-negative frequency f with
    (2 PI f)^2 equal to the eigenvalue, for a negative eigenvalue NaN (no
    exception); the frequencies of ascending eigenvalues are ascending. *)
Theorem frequencies_are_scaled_square_roots (s s1 : ANM) (d : nat)
    (eig_values eig_vectors : ndarray) :
  eigen d s = (Return (eig_values, eig_vectors), s1) ->
  exists freq,
    frequencies d s = (Return freq, s1) /\
    length freq = length (data eig_values) /\
    (forall i, i < length (data eig_values) ->
       let lambda := nth i (data eig_values) 0%R in
       ((0 <= lambda)%R ->
        exists f, nth i freq None = Some f /\ (0 <= f)%R /\ ((2 * PI * f) ^ 2 = lambda)%R) /\
       ((lambda < 0)%R -> nth i freq None = None)) /\
    (forall i j f g, nth i freq None = Some f -> nth j freq None = Some g ->
       i < length (data eig_values) -> j < length (data eig_values) ->
       (nth i (data eig_values) 0 <= nth j (data eig_values) 0)%R -> (f <= g)%R).
Proof.
  intros Heig.
  set (conv := fun x => option_map (fun y => (1 / (2 * PI) * y)%R) (NpOps.sqrt x)).
  exists (map conv (data eig_values)).
  assert (Hnth : forall i, i < length (data eig_values) ->
            nth i (map conv (data eig_values)) None = conv (nth i (data eig_values) 0%R)).
  { intros i Hi. rewrite (nth_indep _ None (conv 0%R)) by now rewrite length_map.
    apply map_nth. }
  pose proof PI_RGT_0 as Hpi.
  split; [| split; [| split]].
  - unfold frequencies, mbind, ret. now rewrite Heig.
  - apply length_map.
  - intros i Hi lambda. rewrite (Hnth i Hi). fold lambda.
    unfold conv, NpOps.sqrt. destruct (Rle_dec 0 lambda) as [Hle | Hlt]; split.
    + intros _. eexists. split; [reflexivity |]. split.
      * apply Rmult_le_pos; [| apply sqrt_pos].
        apply Rlt_le, Rdiv_lt_0_compat; lra.
      * replace (2 * PI * (1 / (2 * PI) * R_sqrt.sqrt lambda))%R
          with (R_sqrt.sqrt lambda) by (field; lra).
        simpl. rewrite Rmult_1_r. now apply sqrt_sqrt.
    + intros H. lra.
    + intros H. contradiction.
    + reflexivity.
  - intros i j f g Hf Hg Hi Hj Hle.
    rewrite (Hnth i Hi) in Hf. rewrite (Hnth j Hj) in Hg.
    unfold conv, NpOps.sqrt in Hf, Hg.
    destruct (Rle_dec 0 (nth i (data eig_values) 0%R)); [| discriminate Hf].
    destruct (Rle_dec 0 (nth j (data eig_values) 0%R)); [| discriminate Hg].
    injection Hf as <-. injection Hg as <-.
    apply Rmult_le_compat_l; [apply Rlt_le, Rdiv_lt_0_compat; lra |].
    now apply sqrt_le_1_alt.
Qed.

End Fluctuations.

Section MassWeights.
Context {ext : Externals}.

Lemma residue_masses_known (l : list Atom) (mass : string -> R) :
  (forall a, In a l -> struc_info_mass (res_name a) = Return (mass (res_name a))) ->
  residue_masses l
  = Return (flat_map (fun a => let m := mass (res_name a) in [m; m; m]) l).
Proof.
  induction l as [| a l IH]; intros H; simpl; [reflexivity |].
  rewrite (H a (or_introl eq_refl)). simpl.
  rewrite IH by (intros b Hb; apply H; now right). reflexivity.
Qed.

(** X24. For a model built from an atom array all of whose residue
    names have a mass, the first read of [mass_weights] returns (and
    caches) the one-dimensional array that holds, atom by atom, the residue
    mass three times. *)
Theorem mass_weights_repeat_each_residue_mass (l : list Atom) (ff : ForceField)
    (use_cell_list : bool) (d : nat) (mass : string -> R) :
  (forall a, In a l -> struc_info_mass (res_name a) = Return (mass (res_name a))) ->
  let s := __init__ (AtomArray l) ff use_cell_list in
  let masses := flat_map (fun a => let m := mass (res_name a) in [m; m; m]) l in
  let w := mk_ndarray [length l * 3] masses in
  length masses = length l * 3 /\
  getattr (S d) mass_weights s = (Return (Some w), set_mass_weights (Some w) s).
Proof.
  intros Hmass s masses w.
  pose proof (residue_masses_known l mass Hmass) as Hm. fold masses in Hm.
  pose proof (residue_masses_length l Hm) as Hlen. split; [exact Hlen |].
  rewrite getattr_unfold.
  unfold mass_weights_fget, mbind, get, lift, modify, ret.
  cbn [s __init__ _mass_weights _atoms masses_of].
  rewrite Hm. cbn iota beta. unfold w. now rewrite Hlen.
Qed.

(** X25. The first read of [mass_weights] raises [AttributeError]
    for a model built from a non-empty coordinate array (its rows have no
    residue name), and for an atom array it raises the exception of the
    mass table for the first atom whose residue has no mass; in both cases
    nothing is cached. *)
Theorem mass_weights_unavailable (ff : ForceField) (use_cell_list : bool) (d : nat) :
  (forall a k rest,
     shape a = S k :: rest ->
     let s := __init__ (CoordArray a) ff use_cell_list in
     getattr (S d) mass_weights s = (Raise AttributeError, s)) /\
  (forall l1 x l2 e,
     (forall a, In a l1 -> exists m, struc_info_mass (res_name a) = Return m) ->
     struc_info_mass (res_name x) = Raise e ->
     let s := __init__ (AtomArray (l1 ++ x :: l2)) ff use_cell_list in
     getattr (S d) mass_weights s = (Raise e, s)).
Proof.
  split.
  - intros a k rest Hsh s. rewrite getattr_unfold.
    unfold mass_weights_fget, mbind, get, lift, modify, ret.
    cbn [s __init__ _mass_weights _atoms masses_of]. now rewrite Hsh.
  - intros l1 x l2 e Hl1 Hx s. rewrite getattr_unfold.
    unfold mass_weights_fget, mbind, get, lift, modify, ret.
    cbn [s __init__ _mass_weights _atoms masses_of].
    assert (Hr : residue_masses (l1 ++ x :: l2) = Raise e).
    { clear s. induction l1 as [| a l1 IH]; simpl.
      - now rewrite Hx.
      - destruct (Hl1 a (or_introl eq_refl)) as [m Hm]. rewrite Hm. simpl.
        rewrite IH by (intros b Hb; apply Hl1; now right). reflexivity. }
    now rewrite Hr.
Qed.

End MassWeights.

Section LinearResponse.
Context {ext : Externals}.

(** X26. For a force of one of the two valid layouts and a model whose
    covariance read returns a matrix [C], [linear_response] returns the
    elements of [np.dot(C, force)] (the force flattened) as an array of
    shape (n,3), and raises [ValueError] when that product does not have 3n
    elements; the model is as the covariance read left it. *)
Theorem linear_response_applies_the_covariance (s s1 : ANM) (k n : nat)
    (force C d : ndarray) :
  len (_coord s) = Return n ->
  shape force = [n; 3] \/ shape force = [n * 3] ->
  getattr k covariance s = (Return (Some C), s1) ->
  np_dot C (if ndim force =? 2 then flatten force else force) = Return d ->
  linear_response k force s
  = if size_of (shape d) =? n * 3
    then (Return (mk_ndarray [n; 3] (data d)), s1)
    else (Raise ValueError, s1).
Proof.
  intros Hlen Hsh Hread Hdot.
  assert (Hlen1 : len (_coord s1) = Return n).
  { pose proof (getattr_extends_caches k covariance s) as (Hc & _).
    rewrite Hread in Hc. simpl in Hc. now rewrite Hc. }
  assert (Hsize : (size_of [n; 3] =? size_of (shape d)) = (size_of (shape d) =? n * 3)).
  { apply Nat.eqb_sym. }
  unfold linear_response, mbind, get, lift, ret, raise, reshape in *.
  rewrite Hlen. unfold ndim in *.
  destruct Hsh as [Hsh | Hsh]; rewrite Hsh in *; cbn [length Nat.eqb nth] in *.
  - rewrite shape_eqb_true by reflexivity. cbn [negb].
    rewrite Hread, Hdot, Hlen1, Hsize. now destruct (size_of (shape d) =? n * 3).
  - rewrite Nat.eqb_refl. cbn [negb].
    rewrite Hread, Hdot, Hlen1, Hsize. now destruct (size_of (shape d) =? n * 3).
Qed.

End LinearResponse.

(** * Concrete instances *)

Import Examples.

Lemma setter_atomic_on_shape_mismatch_witness :
  setattr (ext := lib) hessian coord1 model1_hessian_set
  = (Raise IndexError, model1_hessian_set).
Proof.
  refine (proj1 (setter_atomic_on_shape_mismatch (ext := lib) hessian coord1
                   model1_hessian_set (n := 1) eq_refl _)).
  discriminate.
Defined.

(** C2, the claim as written fails: on a model whose Hessian is cached, a
    successful assignment to [covariance] leaves no cached Hessian. *)
Lemma covariance_setter_clears_cached_hessian :
  _hessian model1_hessian_set = Some zeros33 /\
  fst (setattr (ext := lib) covariance eye33 model1_hessian_set) = Return tt /\
  _hessian (snd (setattr (ext := lib) covariance eye33 model1_hessian_set)) = None /\
  _hessian (snd (setattr (ext := lib) covariance eye33 model1_hessian_set))
    <> _hessian model1_hessian_set.
Proof.
  repeat split. discriminate.
Qed.

Lemma covariance_and_hessian_setters_witness :
  fst (setattr (ext := lib) covariance eye33 model1_hessian_set) = Return tt /\
  _covariance (snd (setattr (ext := lib) covariance eye33 model1_hessian_set)) = Some eye33 /\
  _hessian (snd (setattr (ext := lib) covariance eye33 model1_hessian_set)) = None.
Proof.
  exact (proj1 (covariance_and_hessian_setters_invalidate_each_other
                  (ext := lib) eye33 model1_hessian_set (n := 1) eq_refl eq_refl)).
Defined.

Lemma hessian_roundtrip_then_covariance_witness :
  getattr (ext := lib) 1 hessian model1_hessian_set
    = (Return (Some zeros33), model1_hessian_set) /\
  getattr (ext := lib) 2 covariance model1_hessian_set
    = (Return (Some zeros33), set_covariance (Some zeros33) model1_hessian_set).
Proof.
  exact (proj2 (hessian_roundtrip_then_covariance
                  (ext := lib) zeros33 model1 (n := 1) 0 eq_refl eq_refl)).
Defined.

(** C8, at the one-atom model as the constructor leaves it: neither read
    returns [None]; both exhaust the recursion limit (here Python's
    default, 1000). *)
Lemma mass_weighted_reads_recurse_on_a_fresh_model :
  getattr (ext := lib) 1000 hessian_mw model1 = (Raise RecursionError, model1) /\
  getattr (ext := lib) 1000 covariance_mw model1 = (Raise RecursionError, model1) /\
  fst (getattr (ext := lib) 1000 hessian_mw model1) <> Return None /\
  fst (getattr (ext := lib) 1000 covariance_mw model1) <> Return None.
Proof.
  assert (H1 : getattr (ext := lib) 1000 hessian_mw model1 = (Raise RecursionError, model1))
    by reflexivity.
  assert (H2 : getattr (ext := lib) 1000 covariance_mw model1 = (Raise RecursionError, model1))
    by reflexivity.
  rewrite H1, H2. repeat split; discriminate.
Qed.

(** C9, the claim as written fails: after [model.mass_weights = zeros33]
    the getter returns that (3,3) matrix, and assigning it back succeeds. *)
Lemma mass_weights_roundtrip_succeeds_after_assignment :
  getattr (ext := lib) 1 mass_weights model1_weights_set
    = (Return (Some zeros33), model1_weights_set) /\
  setattr (ext := lib) mass_weights zeros33 model1_weights_set
    = (Return tt, model1_weights_set).
Proof.
  split; reflexivity.
Qed.

Lemma mass_weights_roundtrip_witness :
  getattr (ext := lib) 1 mass_weights model_ala
    = (Return (Some (mk_ndarray [3] [89.094; 89.094; 89.094]%R)),
       set_mass_weights (Some (mk_ndarray [3] [89.094; 89.094; 89.094]%R)) model_ala) /\
  setattr (ext := lib) mass_weights (mk_ndarray [3] [89.094; 89.094; 89.094]%R)
      (set_mass_weights (Some (mk_ndarray [3] [89.094; 89.094; 89.094]%R)) model_ala)
    = (Raise IndexError,
       set_mass_weights (Some (mk_ndarray [3] [89.094; 89.094; 89.094]%R)) model_ala).
Proof.
  pose proof (mass_weights_roundtrip (ext := lib) model_ala 0
                (n := 1) (masses := [89.094; 89.094; 89.094]%R) zeros33
                eq_refl eq_refl eq_refl eq_refl eq_refl) as [(H1 & _ & H3) _].
  exact (conj H1 H3).
Defined.

Lemma linear_response_accepts_both_layouts_witness :
  linear_response (ext := lib) 2 (mk_ndarray [1; 3] [1; 2; 3]%R) model1
  = linear_response (ext := lib) 2 (mk_ndarray [3] [1; 2; 3]%R) model1.
Proof.
  exact (proj1 (linear_response_accepts_both_layouts
                  (ext := lib) model1 2 (n := 1) (mk_ndarray [1; 3] [1; 2; 3]%R) eq_refl)
               eq_refl).
Defined.

(** C1, the claim as written fails: two atoms at distance 1 with cutoff
    1.5, and the pair (0,1) in both override lists.  The pair is in the
    resulting pair set. *)
Lemma pair_in_both_override_lists_is_present :
  pairs_of (_prepare_values_for_interaction_matrix (ext := lib) coord2 ff_uniform false
              (Some [(0, 1)%Z]) (Some [(0, 1)%Z]))
    = Return [(0, 1); (1, 0)] /\
  In (0, 1) [(0, 1); (1, 0)].
Proof.
  split; [| now left].
  unfold _prepare_values_for_interaction_matrix.
  cbn [ndim shape coord2 length Nat.eqb negb orb nth natoms ff_uniform cutoff_distance
       rows chunks firstn skipn data map displacement vsub sum_sq sum_R fold_right].
  rewrite !Rle_bool_true by lra.
  reflexivity.
Qed.

Lemma on_overrides_win_over_off_overrides_witness :
  In (denotes 2 (0, 1)%Z) [(0, 1); (1, 0)] /\
  ~ In (denotes 2 (1, 0)%Z) [(0, 1)].
Proof.
  split.
  - refine (proj1 (on_overrides_win_over_off_overrides (ext := lib)
                     coord2 ff_dense true [(0, 1)%Z] [(0, 1)%Z]
                     (pairs := [(0, 1); (1, 0)]) eq_refl (0, 1)%Z) _).
    now left.
  - refine (proj2 (on_overrides_win_over_off_overrides (ext := lib)
                     coord2 ff_dense true [(1, 0)%Z] [(0, 1)%Z]
                     (pairs := [(0, 1)]) eq_refl (1, 0)%Z) _ _).
    + now left.
    + intros q [<- | []]. discriminate.
Defined.

Lemma symmetric_pairs_of_three_atoms :
  let pairs := [(0, 1); (1, 0); (1, 2); (2, 1)] in
  (forall i j, In (i, j) pairs -> In (j, i) pairs) /\ (forall i, ~ In (i, i) pairs).
Proof.
  cbv zeta. split.
  - intros i j Hin. simpl in Hin.
    repeat destruct Hin as [Hin | Hin]; try contradiction; inversion Hin; simpl; tauto.
  - intros i Hin. simpl in Hin.
    repeat destruct Hin as [Hin | Hin]; try contradiction; inversion Hin; lia.
Qed.

Lemma distinct_atoms_on_a_line (coord : ndarray) (n : nat) :
  coord = coord2 /\ n = 2 \/ coord = coord3 /\ n = 3 ->
  forall i j, i < n -> j < n -> i <> j -> nth i (rows coord) [] <> nth j (rows coord) [].
Proof.
  intros [[-> ->] | [-> ->]] i j Hi Hj Hne Heq.
  - destruct i as [| [| i]]; destruct j as [| [| j]]; try lia;
      cbv [rows coord2 shape data nth chunks firstn skipn] in Heq;
      injection Heq as Heq; lra.
  - destruct i as [| [| [| i]]]; destruct j as [| [| [| j]]]; try lia;
      cbv [rows coord3 shape data nth chunks firstn skipn] in Heq;
      injection Heq as Heq; lra.
Qed.

Lemma hessian_symmetric_and_translation_invariant_witness :
  (exists H pairs,
     compute_hessian (ext := lib) coord2 ff_uniform false None None = Return (H, pairs) /\
     hessian_invariants 2 H) /\
  (exists H,
     compute_hessian (ext := lib) coord3 ff_dense true (Some [(0, 2); (2, 0)]%Z) None
       = Return (H, [(0, 1); (1, 0); (1, 2); (2, 1)]) /\
     hessian_invariants 3 H).
Proof.
  split.
  - refine (proj1 (@hessian_symmetric_and_translation_invariant lib coord2 ff_uniform false 2
                     eq_refl eq_refl (fun _ _ _ => eq_refl)
                     (distinct_atoms_on_a_line (or_introl (conj eq_refl eq_refl)))) _ _).
    + intros k Hk. discriminate Hk.
    + intros c _ Hu. discriminate Hu.
  - destruct symmetric_pairs_of_three_atoms as [Hs Hirr].
    exact (proj2 (@hessian_symmetric_and_translation_invariant lib coord3 ff_dense true 3
                    eq_refl eq_refl (fun _ _ _ => eq_refl)
                    (distinct_atoms_on_a_line (or_intror (conj eq_refl eq_refl))))
                 (Some [(0, 2); (2, 0)]%Z) None _ _ _ eq_refl Hs Hirr).
Defined.

(** C4, the claim as written fails: two atoms, and the contact (0,1)
    switched off in one direction only.  The pair (1,0) remains, the
    matrix is not symmetric, and the first block row does not sum to
    zero. *)
Lemma hessian_with_one_directional_override :
  match compute_hessian (ext := lib) coord2 ff_dense true (Some [(0, 1)%Z]) None with
  | Return (H, pairs) =>
      pairs = [(1, 0)] /\
      entry H 0 3 <> entry H 3 0 /\
      sum_R (map (fun j => entry H (0 * 3 + 0) (j * 3 + 0)) (seq 0 2)) <> 0%R
  | Raise _ => False
  end.
Proof.
  cbv - [Rplus Rminus Rmult Rdiv Ropp Rinv IZR pow].
  split; [reflexivity |]. split; intros Heq; field_simplify in Heq; lra.
Qed.

(** The Hessian of two atoms at distance 1 along x with force constant 1:
    the xx entries of the off-diagonal blocks are -1, those of the diagonal
    blocks are 1, and the other entries are 0. *)
Example hessian_two_atoms :
  match compute_hessian (ext := lib) coord2 ff_dense true None None with
  | Return (H, pairs) =>
      pairs = [(0, 1); (1, 0)] /\ shape H = [6; 6] /\
      (entry H 0 3 = -1 /\ entry H 3 0 = -1 /\ entry H 0 0 = 1 /\ entry H 3 3 = 1 /\
       entry H 1 1 = 0 /\ entry H 1 4 = 0 /\ entry H 0 1 = 0)%R
  | Raise _ => False
  end.
Proof.
  cbv - [Rplus Rminus Rmult Rdiv Ropp Rinv IZR pow].
  repeat split; field; lra.
Qed.

Lemma unit_x_length :
  NpOps.max (vector_lengths (rows (mk_ndarray [1; 3] [1; 0; 0]%R))) = Return 1%R.
Proof.
  unfold NpOps.max, vector_lengths, rows, sum_R.
  cbn [shape data nth chunks firstn skipn map fold_right fold_left].
  f_equal. replace (1 ^ 2 + (0 ^ 2 + (0 ^ 2 + 0)))%R with 1%R by ring. apply sqrt_1.
Qed.

(** C6, the claim as written fails: for the one-atom model, whose Hessian
    is the zero matrix with the unit vectors as eigenvectors, the largest
    displacement magnitude over the ten frames of mode 0 with amplitude 1
    stays below 0.96. *)
Lemma normal_mode_ten_frames_stay_below_amplitude :
  match normal_mode (ext := lib) 2 0 1 10 "sine" model1 with
  | (Return disp, _) => (max_displacement disp < 0.96)%R
  | (Raise _, _) => False
  end.
Proof.
  assert (H : exists s' disp,
             normal_mode (ext := lib) 2 0 1 10 "sine" model1 = (Return disp, s') /\
             max_displacement disp = (1 * sin (2 * PI / 5))%R).
  { eexists.
    eapply (@normal_mode_sine_ten_frames lib model1 _ 2 0 1 1%R
              (mk_ndarray [3] [0; 0; 0]%R) eye33
              (mk_ndarray [3] [1; 0; 0]%R) (mk_ndarray [1; 3] [1; 0; 0]%R)).
    - reflexivity.
    - reflexivity.
    - reflexivity.
    - exact unit_x_length.
    - lra.
    - lra. }
  destruct H as (s' & disp & Hrun & Hval). rewrite Hrun, Hval.
  pose proof sin_two_fifths_bounds. lra.
Qed.

Lemma normal_mode_sampled_maximum_witness :
  exists s' disp,
    normal_mode (ext := lib) 2 0 1 10 "sine" model1 = (Return disp, s') /\
    max_displacement disp = sin (2 * PI / 5) /\
    (0.95 < max_displacement disp < 0.96)%R.
Proof.
  eexists.
  eapply (@normal_mode_sampled_maximum lib model1 _ 2 0 1%R
            (mk_ndarray [3] [0; 0; 0]%R) eye33
            (mk_ndarray [3] [1; 0; 0]%R) (mk_ndarray [1; 3] [1; 0; 0]%R)).
  - reflexivity.
  - reflexivity.
  - reflexivity.
  - exact unit_x_length.
  - lra.
Defined.

(** ** Instances of the further properties *)

(** The pairs, displacements and squared distances of two atoms without a
    cutoff. *)
Lemma resolver_pairs_are_sorted_and_aligned_witness :
  exists n,
    shape coord2 = [n; 3] /\
    (forall p, In p [(0, 1); (1, 0)] -> fst p < n /\ snd p < n) /\
    StronglySorted pair_lt [(0, 1); (1, 0)] /\
    NoDup [(0, 1); (1, 0)] /\
    length (index_displacement (rows coord2) [(0, 1); (1, 0)]) = 2 /\
    length (map sum_sq (index_displacement (rows coord2) [(0, 1); (1, 0)])) = 2.
Proof.
  exact (@resolver_pairs_are_sorted_and_aligned lib coord2 ff_dense false None None
           [(0, 1); (1, 0)] _ _ eq_refl).
Defined.

Lemma default_pairs_are_the_contacts_within_cutoff_witness :
  exists pairs disp sq_dist,
    _prepare_values_for_interaction_matrix (ext := lib) coord3 ff_uniform false None None
      = Return (pairs, disp, sq_dist) /\
    forall i j,
      In (i, j) pairs <->
      i < 3 /\ j < 3 /\ i <> j /\
      (sum_sq (vsub (nth i (rows coord3) []) (nth j (rows coord3) [])) <= 1.5 ^ 2)%R.
Proof.
  refine (@default_pairs_are_the_contacts_within_cutoff lib coord3 ff_uniform false 3
            eq_refl _ (fun _ => eq_refl)).
  intros k Hk. discriminate Hk.
Defined.

Lemma invalid_coordinates_are_rejected_witness :
  compute_hessian (ext := lib) (mk_ndarray [3] [0; 0; 0]%R) ff_dense true None None
    = Raise ValueError /\
  compute_kirchhoff (ext := lib) (mk_ndarray [3] [0; 0; 0]%R) ff_dense true None None
    = Raise ValueError.
Proof.
  apply invalid_coordinates_are_rejected. left. intros n Hn. discriminate Hn.
Defined.

Lemma cell_list_is_only_an_optimisation_witness :
  compute_hessian (ext := lib) coord3 ff_uniform true (Some [(0, 1)%Z]) None
    = compute_hessian (ext := lib) coord3 ff_uniform false (Some [(0, 1)%Z]) None /\
  compute_kirchhoff (ext := lib) coord3 ff_uniform true (Some [(0, 1)%Z]) None
    = compute_kirchhoff (ext := lib) coord3 ff_uniform false (Some [(0, 1)%Z]) None.
Proof.
  exact (@cell_list_is_only_an_optimisation lib coord3 ff_uniform (Some [(0, 1)%Z]) None 3
           1.5%R _ eq_refl eq_refl eq_refl (fun i j _ _ _ => eq_refl)).
Defined.

Lemma kirchhoff_entries_witness :
  let K := assemble_kirchhoff 2 ff_dense [(0, 1); (1, 0)]
             (map sum_sq (index_displacement (rows coord2) [(0, 1); (1, 0)])) in
  let k i j :=
    if in_dec pair_eq_dec (i, j) [(0, 1); (1, 0)] then 1%R else 0%R in
  exists n,
    shape coord2 = [n; 3] /\
    shape K = [n; n] /\
    length (data K) = n * n /\
    (forall i j, i < n -> j < n -> i <> j -> entry K i j = (- k i j)%R) /\
    (forall j, j < n -> entry K j j = sum_R (map (fun i => k i j) (seq 0 n))).
Proof.
  exact (@kirchhoff_entries lib coord2 ff_dense false None None _ [(0, 1); (1, 0)] eq_refl).
Defined.

Lemma kirchhoff_symmetric_with_zero_sums_witness :
  exists K pairs,
    compute_kirchhoff (ext := lib) coord2 ff_uniform false None None = Return (K, pairs) /\
    (forall i j, i < 2 -> j < 2 -> entry K i j = entry K j i) /\
    (forall i, i < 2 -> sum_R (map (fun j => entry K i j) (seq 0 2)) = 0%R) /\
    (forall j, j < 2 -> sum_R (map (fun i => entry K i j) (seq 0 2)) = 0%R).
Proof.
  refine (proj1 (@kirchhoff_symmetric_with_zero_sums lib coord2 ff_uniform false 2
                   eq_refl (fun _ _ _ => eq_refl)) _ (fun _ => eq_refl)).
  intros k Hk. discriminate Hk.
Defined.

Lemma hessian_blocks_witness :
  let H := assemble_hessian 2 ff_dense [(0, 1); (1, 0)]
             (index_displacement (rows coord2) [(0, 1); (1, 0)])
             (map sum_sq (index_displacement (rows coord2) [(0, 1); (1, 0)])) in
  let d i j := vsub (nth j (rows coord2) []) (nth i (rows coord2) []) in
  let w i j a b :=
    if in_dec pair_eq_dec (i, j) [(0, 1); (1, 0)]
    then (- 1 / sum_sq (d i j) * nth a (d i j) 0 * nth b (d i j) 0)%R
    else 0%R in
  exists n,
    shape coord2 = [n; 3] /\
    shape H = [n * 3; n * 3] /\
    length (data H) = n * 3 * (n * 3) /\
    (forall i j a b, i < n -> j < n -> a < 3 -> b < 3 -> i <> j ->
       entry H (i * 3 + a) (j * 3 + b) = w i j a b) /\
    (forall j a b, j < n -> a < 3 -> b < 3 ->
       entry H (j * 3 + a) (j * 3 + b)
       = (- sum_R (map (fun i => w i j a b) (seq 0 n)))%R).
Proof.
  exact (@hessian_blocks lib coord2 ff_dense false None None _ [(0, 1); (1, 0)] eq_refl).
Defined.

Lemma unit_distance_of_two_atoms (i j : nat) :
  In (i, j) [(0, 1); (1, 0)] ->
  sum_sq (vsub (nth i (rows coord2) []) (nth j (rows coord2) [])) <> 0%R.
Proof.
  intros [H | [H | []]]; injection H as <- <-;
    unfold sum_sq, sum_R; simpl; lra.
Qed.

Lemma hessian_block_traces_are_kirchhoff_entries_witness :
  let H := assemble_hessian 2 ff_dense [(0, 1); (1, 0)]
             (index_displacement (rows coord2) [(0, 1); (1, 0)])
             (map sum_sq (index_displacement (rows coord2) [(0, 1); (1, 0)])) in
  let K := assemble_kirchhoff 2 ff_dense [(0, 1); (1, 0)]
             (map sum_sq (index_displacement (rows coord2) [(0, 1); (1, 0)])) in
  [(0, 1); (1, 0)] = [(0, 1); (1, 0)] /\
  exists n,
    shape coord2 = [n; 3] /\
    forall i j, i < n -> j < n ->
      sum_R (map (fun a => entry H (i * 3 + a) (j * 3 + a)) (seq 0 3)) = entry K i j.
Proof.
  exact (@hessian_block_traces_are_kirchhoff_entries lib coord2 ff_dense false None None
           _ _ [(0, 1); (1, 0)] [(0, 1); (1, 0)] eq_refl eq_refl unit_distance_of_two_atoms).
Defined.

Lemma off_override_indices_witness :
  exists matrix',
    _patch_adjacency_matrix (ext := lib) (full 2 2 true) (Some [(-1, 0)%Z]) None
      = Return matrix' /\
    rect 2 2 matrix' /\
    forall i j,
      get2 false matrix' i j
      = if in_dec pair_eq_dec (i, j) (map (denotes 2) [(-1, 0)%Z]) then false
        else get2 false (full 2 2 true) i j.
Proof.
  refine (proj1 (@off_override_indices lib (full 2 2 true) [(-1, 0)%Z] 2
                   (rect_full 2 2 true)) _).
  intros p [<- | []]. simpl. lia.
Defined.

Lemma matrices_are_translation_invariant_witness :
  compute_hessian (ext := lib) (translate [1; 2; 3]%R coord3) ff_uniform false None None
    = compute_hessian (ext := lib) coord3 ff_uniform false None None /\
  compute_kirchhoff (ext := lib) (translate [1; 2; 3]%R coord3) ff_uniform false None None
    = compute_kirchhoff (ext := lib) coord3 ff_uniform false None None.
Proof.
  exact (@matrices_are_translation_invariant lib coord3 ff_uniform false None None
           [1; 2; 3]%R 3 eq_refl eq_refl eq_refl (fun _ => eq_refl)).
Defined.

(** A model whose force field was built for another number of atoms. *)
Lemma hessian_failure_propagates_witness :
  let s := __init__ (CoordArray coord1) ff_five_atoms true in
  getattr (ext := lib) 1 hessian s = (Raise ValueError, s) /\
  getattr (ext := lib) 2 covariance s = (Raise ValueError, s) /\
  eigen (ext := lib) 1 s = (Raise ValueError, s) /\
  frequencies (ext := lib) 1 s = (Raise ValueError, s) /\
  mean_square_fluctuation (ext := lib) 2 s = (Raise ValueError, s) /\
  bfactor (ext := lib) 2 s = (Raise ValueError, s) /\
  (forall index amplitude frames movement,
     normal_mode (ext := lib) 1 index amplitude frames movement s = (Raise ValueError, s)) /\
  (forall force n,
     len (_coord s) = Return n ->
     shape force = [n; 3] \/ shape force = [n * 3] ->
     linear_response (ext := lib) 2 force s = (Raise ValueError, s)).
Proof.
  exact (@hessian_failure_propagates lib (__init__ (CoordArray coord1) ff_five_atoms true)
           ValueError 0 eq_refl eq_refl eq_refl).
Defined.

Lemma successful_reads_are_repeatable_witness :
  exists h,
    Some zeros33 = Some h /\ _hessian model1_hessian_set = Some h /\
    getattr (ext := lib) 1 hessian model1_hessian_set
    = (Return (Some zeros33), model1_hessian_set).
Proof.
  exact (proj1 (@successful_reads_are_repeatable lib 1 0 model1_hessian_set
                  model1_hessian_set (Some zeros33)) eq_refl).
Defined.

Lemma covariance_roundtrip_then_hessian_witness :
  let s1 := set_hessian None (set_covariance (Some eye33) model1) in
  setattr (ext := lib) covariance eye33 model1 = (Return tt, s1) /\
  getattr (ext := lib) 1 covariance s1 = (Return (Some eye33), s1) /\
  getattr (ext := lib) 1 hessian s1 = (Return (Some eye33), set_hessian (Some eye33) s1) /\
  (forall h, getattr (ext := lib) 1 covariance (set_hessian (Some h) s1)
             = (Return (Some eye33), set_hessian (Some h) s1)).
Proof.
  exact (@covariance_roundtrip_then_hessian lib eye33 model1 1 0 eq_refl eq_refl).
Defined.

Lemma hessian_mw_assignment_fills_covariance_mw_witness :
  let s' := set_hessian_mw None (set_mass_weights None
              (set_covariance_mw (Some zeros33) model1)) in
  setattr (ext := lib) hessian_mw zeros33 model1 = (Return tt, s') /\
  _covariance_mw s' = Some zeros33 /\ _hessian_mw s' = None /\ _mass_weights s' = None /\
  getattr (ext := lib) 1 hessian_mw s' = (Return None, s') /\
  getattr (ext := lib) 1 covariance_mw s' = (Return None, s') /\
  setattr (ext := lib) covariance_mw zeros33 model1 = (Raise AttributeError, model1).
Proof.
  exact (@hessian_mw_assignment_fills_covariance_mw lib zeros33 model1 1 0 eq_refl eq_refl).
Defined.

(** The eigenvectors of the one-atom model, as the example library gives
    them. *)
Lemma eigen_of_one_atom :
  eigen (ext := lib) 2 model1
  = (Return (mk_ndarray [3] [0; 0; 0]%R, eye33),
     snd (getattr (ext := lib) 2 hessian model1)).
Proof. reflexivity. Qed.

Lemma normal_mode_stays_within_amplitude_witness :
  exists disp,
    normal_mode (ext := lib) 2 0 2 7 "triangle" model1
    = (Return disp, snd (getattr (ext := lib) 2 hessian model1)) /\
    length disp = 7 /\
    (forall frame, In frame disp -> length frame = 1) /\
    (max_displacement disp <= 2)%R.
Proof.
  refine (@normal_mode_stays_within_amplitude lib model1 _ 2 0 2%R 1%R 7 "triangle"
            (mk_ndarray [3] [0; 0; 0]%R) eye33
            (mk_ndarray [3] [1; 0; 0]%R) (mk_ndarray [1; 3] [1; 0; 0]%R)
            eigen_of_one_atom eq_refl eq_refl unit_x_length _ _ _ (or_intror eq_refl)).
  - lra.
  - lra.
  - lia.
Defined.

Lemma normal_mode_reaches_amplitude_witness :
  exists disp,
    normal_mode (ext := lib) 2 0 2 8 "sine" model1
    = (Return disp, snd (getattr (ext := lib) 2 hessian model1)) /\
    max_displacement disp = 2%R.
Proof.
  refine (@normal_mode_reaches_amplitude lib model1 _ 2 0 2%R 1%R 8 "sine"
            (mk_ndarray [3] [0; 0; 0]%R) eye33
            (mk_ndarray [3] [1; 0; 0]%R) (mk_ndarray [1; 3] [1; 0; 0]%R)
            eigen_of_one_atom eq_refl eq_refl unit_x_length _ _
            (or_intror (conj eq_refl (ex_intro _ 2%Z (conj eq_refl eq_refl))))).
  - lra.
  - lra.
Defined.

Lemma normal_mode_rejected_arguments_witness :
  normal_mode (ext := lib) 2 3 1 10 "sine" model1
  = (Raise IndexError, snd (getattr (ext := lib) 2 hessian model1)) /\
  normal_mode (ext := lib) 2 0 1 10 "square" model1
  = (Raise ValueError, snd (getattr (ext := lib) 2 hessian model1)).
Proof.
  destruct (@normal_mode_rejected_arguments lib model1 _ 2 3 1%R 10 "sine"
              (mk_ndarray [3] [0; 0; 0]%R) eye33 eigen_of_one_atom) as [Hidx _].
  destruct (@normal_mode_rejected_arguments lib model1 _ 2 0 1%R 10 "square"
              (mk_ndarray [3] [0; 0; 0]%R) eye33 eigen_of_one_atom) as [_ Hmode].
  split.
  - apply (Hidx 3 [3] eq_refl). lia.
  - apply (Hmode (mk_ndarray [3] [1; 0; 0]%R) (mk_ndarray [1; 3] [1; 0; 0]%R) 1%R
             eq_refl eq_refl unit_x_length); discriminate.
Defined.

Lemma eigen_returns_eigenvectors_as_rows_witness :
  exists vt,
    eigen (ext := lib) 1 model1_hessian_set
    = (Return (mk_ndarray [3] [0; 0; 0]%R, vt), model1_hessian_set) /\
    shape vt = [3; 3] /\
    forall r c, [3; 3] = [r; c] ->
      forall i j, i < c -> j < r -> entry vt i j = entry eye33 j i.
Proof.
  exact (@eigen_returns_eigenvectors_as_rows lib model1_hessian_set model1_hessian_set 1
           zeros33 eq_refl).
Defined.

Lemma mean_square_fluctuation_sums_diagonal_blocks_witness :
  let s1 := set_hessian None (set_covariance (Some eye33) model1) in
  exists msqf,
    mean_square_fluctuation (ext := lib) 1 s1 = (Return msqf, s1) /\
    shape msqf = [1] /\
    length (data msqf) = 1 /\
    forall i, i < 1 ->
      nth i (data msqf) 0%R
      = (entry eye33 (i * 3) (i * 3) + entry eye33 (i * 3 + 1) (i * 3 + 1)
         + entry eye33 (i * 3 + 2) (i * 3 + 2))%R.
Proof.
  exact (proj1 (@mean_square_fluctuation_sums_diagonal_blocks lib
                  (set_hessian None (set_covariance (Some eye33) model1))
                  (set_hessian None (set_covariance (Some eye33) model1))
                  1 1 eye33 eq_refl eq_refl eq_refl) Nat.lt_0_1).
Defined.

Lemma bfactor_scales_the_fluctuations_witness :
  let s1 := set_hessian None (set_covariance (Some eye33) model1) in
  exists b_factors,
    bfactor (ext := lib) 1 s1 = (Return b_factors, s1) /\
    shape b_factors = [1] /\
    length (data b_factors) = 1 /\
    forall i, i < 1 ->
      nth i (data b_factors) 0%R
      = (8 * PI ^ 2 / 3
         * (entry eye33 (i * 3) (i * 3) + entry eye33 (i * 3 + 1) (i * 3 + 1)
            + entry eye33 (i * 3 + 2) (i * 3 + 2)))%R.
Proof.
  exact (@bfactor_scales_the_fluctuations lib
           (set_hessian None (set_covariance (Some eye33) model1))
           (set_hessian None (set_covariance (Some eye33) model1))
           1 1 eye33 eq_refl eq_refl eq_refl Nat.lt_0_1).
Defined.

Lemma frequencies_are_scaled_square_roots_witness :
  exists freq,
    frequencies (ext := lib) 2 model1
    = (Return freq, snd (getattr (ext := lib) 2 hessian model1)) /\
    length freq = 3.
Proof.
  destruct (@frequencies_are_scaled_square_roots lib model1 _ 2
              (mk_ndarray [3] [0; 0; 0]%R) eye33 eigen_of_one_atom)
    as (freq & Hrun & Hlen & _).
  exists freq. split; [exact Hrun | exact Hlen].
Defined.

Lemma mass_weights_repeat_each_residue_mass_witness :
  let w := mk_ndarray [3] [89.094; 89.094; 89.094]%R in
  length [89.094; 89.094; 89.094]%R = 3 /\
  getattr (ext := lib) 1 mass_weights model_ala
  = (Return (Some w), set_mass_weights (Some w) model_ala).
Proof.
  refine (@mass_weights_repeat_each_residue_mass lib [mk_Atom "ALA" (0, 0, 0)%R]
            ff_uniform false 0 (fun _ => 89.094%R) _).
  intros a [<- | []]. reflexivity.
Defined.

Lemma mass_weights_unavailable_witness :
  getattr (ext := lib) 1 mass_weights model1 = (Raise AttributeError, model1).
Proof.
  exact (proj1 (@mass_weights_unavailable lib ff_uniform false 0) coord1 0 [3] eq_refl).
Defined.

Lemma linear_response_applies_the_covariance_witness :
  let s1 := set_hessian None (set_covariance (Some eye33) model1) in
  linear_response (ext := lib) 1 (mk_ndarray [1; 3] [1; 2; 3]%R) s1
  = (Return (mk_ndarray [1; 3]
               (matvec (rows eye33) [1; 2; 3]%R)), s1).
Proof.
  exact (@linear_response_applies_the_covariance lib
           (set_hessian None (set_covariance (Some eye33) model1))
           (set_hessian None (set_covariance (Some eye33) model1))
           1 1 (mk_ndarray [1; 3] [1; 2; 3]%R) eye33 _
           eq_refl (or_introl eq_refl) eq_refl eq_refl).
Defined.
